(** * bdg: comparison of two directory trees (src/index.ts)

    A shallow embedding of [collectPaths], [compareDirectories],
    [printDifferences], [printCommonItems], [patternsToRegExp], [loadConfig]
    and the script that calls them, with the properties the specification
    states about them and further properties of the code.

    What the program takes from its host is modelled as follows.
    - A JavaScript exception is a value [Throw e] of [result]; a computation
      that can throw, update a RegExp object or call the file system lives in
      the monad [M].
    - RegExp objects are mutable: [test] on an object carrying the [g] or [y]
      flag reads and writes its [lastIndex]. They live in a store ([Heap]) and
      the pattern array holds references, so that one object may occur at
      several positions of the array and is shared by both traversals. An
      object is an ordinary one: its [test] is the built-in method and its
      [lastIndex] can be written (it is not frozen).
    - The file system is a finite tree ([node]); [readdirSync] and [statSync]
      may fail on a node. Every call is recorded, in order.
    - [path.join], [path.relative], [path.resolve], the engine behind
      [new RegExp] and the conversion of a parsed value to a string are
      parameters of the development.
    - A string is held as the bytes of its UTF-8 form, a list is an array.
    - The number of arguments the engine can pass in one call is a parameter
      of the development. *)

From Stdlib Require Import Ascii.
From stdpp Require Import base list strings gmap sorting pretty.

Set Warnings "-register-all".


(** ** Exceptions *)

(** The code of a failed call of [fs]: three that the examples use, and any
    other by its name. *)
Inductive Errno := EACCES | ENOENT | ENOTDIR | errno (name : string).

(** [SyntaxError] is what [new RegExp] throws on an invalid pattern (the
    specification's InvalidPatternError); [FsError] is what [fs] throws (its
    FilesystemError), with the errno code and the path of the failed call;
    [RangeError] is what the engine throws on a call with more arguments
    than it can pass. *)
Inductive Error :=
| SyntaxError (pattern : string)
| FsError (code : Errno) (path : string)
| RangeError.

Inductive result (A : Type) :=
| Ok (a : A)
| Throw (e : Error).
Arguments Ok {A} a.
Arguments Throw {A} e.

(** ** Strings

    A string of the program is a sequence of UTF-16 code units; here it is
    held as the bytes of its UTF-8 form. [code_units] reads the code units
    off the bytes: one unit for a character of one, two or three bytes, the
    two surrogates of the pair for a character of four bytes. It is [None] on
    bytes that are no UTF-8 (the file names that Node.js hands to the program
    are always well formed). *)

Definition continuation (b : N) : bool := (128 <=? b)%N && (b <? 192)%N.

(** [s.length], the number of code units: a byte that continues a character
    counts for none, the first byte of a character of four bytes for two. *)
Fixpoint length_units (s : string) : nat :=
  match s with
  | EmptyString => 0
  | String c s' =>
      let b := N_of_ascii c in
      (if continuation b then 0 else if (240 <=? b)%N then 2 else 1)
      + length_units s'
  end.

(** U+0080-U+07FF *)
Definition two_bytes (b0 b1 : N) : bool :=
  (194 <=? b0)%N && (b0 <? 224)%N && continuation b1.

(** U+0800-U+FFFF without the surrogates U+D800-U+DFFF *)
Definition three_bytes (b0 b1 b2 : N) : bool :=
  (224 <=? b0)%N && (b0 <? 240)%N && continuation b1 && continuation b2
  && (negb (b0 =? 224)%N || (160 <=? b1)%N)
  && (negb (b0 =? 237)%N || (b1 <? 160)%N).

(** U+10000-U+10FFFF *)
Definition four_bytes (b0 b1 b2 b3 : N) : bool :=
  (240 <=? b0)%N && (b0 <? 245)%N
  && continuation b1 && continuation b2 && continuation b3
  && (negb (b0 =? 240)%N || (144 <=? b1)%N)
  && (negb (b0 =? 244)%N || (b1 <? 144)%N).

Definition unit2 (b0 b1 : N) : N := ((b0 - 192) * 64 + (b1 - 128))%N.

Definition unit3 (b0 b1 b2 : N) : N :=
  ((b0 - 224) * 4096 + (b1 - 128) * 64 + (b2 - 128))%N.

Definition scalar4 (b0 b1 b2 b3 : N) : N :=
  ((b0 - 240) * 262144 + (b1 - 128) * 4096 + (b2 - 128) * 64 + (b3 - 128))%N.

Definition high_surrogate (scalar : N) : N :=
  (55296 + (scalar - 65536) / 1024)%N.

Definition low_surrogate (scalar : N) : N :=
  (56320 + (scalar - 65536) mod 1024)%N.

Fixpoint code_units (s : string) : option (list N) :=
  match s with
  | EmptyString => Some []
  | String c0 s1 =>
      let b0 := N_of_ascii c0 in
      if (b0 <? 128)%N then cons b0 <$> code_units s1
      else
        match s1 with
        | EmptyString => None
        | String c1 s2 =>
            let b1 := N_of_ascii c1 in
            if two_bytes b0 b1 then cons (unit2 b0 b1) <$> code_units s2
            else
              match s2 with
              | EmptyString => None
              | String c2 s3 =>
                  let b2 := N_of_ascii c2 in
                  if three_bytes b0 b1 b2
                  then cons (unit3 b0 b1 b2) <$> code_units s3
                  else
                    match s3 with
                    | EmptyString => None
                    | String c3 s4 =>
                        let b3 := N_of_ascii c3 in
                        if four_bytes b0 b1 b2 b3 then
                          let scalar := scalar4 b0 b1 b2 b3 in
                          (λ units, high_surrogate scalar
                                    :: low_surrogate scalar :: units)
                            <$> code_units s4
                        else None
                    end
              end
        end
  end.

(** The comparison of two strings by [<] (ECMAScript, IsLessThan): the first
    code unit that differs decides, and a proper prefix comes first. *)
Fixpoint units_compare (u v : list N) : comparison :=
  match u, v with
  | [], [] => Eq
  | [], _ :: _ => Lt
  | _ :: _, [] => Gt
  | x :: u', y :: v' =>
      match (x ?= y)%N with
      | Eq => units_compare u' v'
      | r => r
      end
  end.

Definition units_le (u v : list N) : bool :=
  match units_compare u v with
  | Gt => false
  | _ => true
  end.

(** [code_units] as a relation, one rule for each length of a character. *)
Inductive utf8 : string → list N → Prop :=
| utf8_0 : utf8 "" []
| utf8_1 c0 s u :
    (N_of_ascii c0 < 128)%N → utf8 s u →
    utf8 (String c0 s) (N_of_ascii c0 :: u)
| utf8_2 c0 c1 s u :
    two_bytes (N_of_ascii c0) (N_of_ascii c1) → utf8 s u →
    utf8 (String c0 (String c1 s))
      (unit2 (N_of_ascii c0) (N_of_ascii c1) :: u)
| utf8_3 c0 c1 c2 s u :
    three_bytes (N_of_ascii c0) (N_of_ascii c1) (N_of_ascii c2) → utf8 s u →
    utf8 (String c0 (String c1 (String c2 s)))
      (unit3 (N_of_ascii c0) (N_of_ascii c1) (N_of_ascii c2) :: u)
| utf8_4 c0 c1 c2 c3 s u :
    four_bytes (N_of_ascii c0) (N_of_ascii c1) (N_of_ascii c2)
      (N_of_ascii c3) →
    utf8 s u →
    utf8 (String c0 (String c1 (String c2 (String c3 s))))
      (high_surrogate
         (scalar4 (N_of_ascii c0) (N_of_ascii c1) (N_of_ascii c2)
            (N_of_ascii c3))
       :: low_surrogate
            (scalar4 (N_of_ascii c0) (N_of_ascii c1) (N_of_ascii c2)
               (N_of_ascii c3))
       :: u).

(** [unit_rank] below, on the number of a byte. *)
Definition rankN (b : N) : N :=
  if (b <? 238)%N then b else if (b <? 240)%N then (b + 16)%N else (b - 2)%N.

(** ** RegExp objects *)

(** [exec s i] is the engine's search in [s] from index [i]: the end index of
    the match it finds, if any (for a sticky object the match has to start at
    [i]). An index counts code units. *)
Record RegExp := mkRegExp {
  exec : string → nat → option nat;
  global : bool;
  sticky : bool;
  lastIndex : nat
}.

Definition set_lastIndex (r : RegExp) (i : nat) : RegExp :=
  {| exec := exec r; global := global r; sticky := sticky r; lastIndex := i |}.

(** [RegExp.prototype.test] (ECMAScript, RegExpBuiltinExec): without [g] and
    [y] the search starts at 0 and the object is left alone; with one of them
    it starts at [lastIndex], which is moved to the end of the match, or back
    to 0 when there is none or when [lastIndex] is past the end of [s]. *)
Definition test (r : RegExp) (s : string) : bool * RegExp :=
  if global r || sticky r then
    match (if decide (lastIndex r ≤ length_units s)
           then exec r s (lastIndex r) else None) with
    | Some e => (true, set_lastIndex r e)
    | None => (false, set_lastIndex r 0)
    end
  else (bool_decide (is_Some (exec r s 0)), r).

(** A reference to a RegExp object is its index in the store. *)
Abbreviation loc := nat (only parsing).
Abbreviation Heap := (list RegExp) (only parsing).

(** ** File system *)

Inductive FsCall :=
| Readdir (path : string)
| Stat (path : string).

(** What is found at a path: a file, a directory with its entries in the
    order [readdirSync] lists them, a directory that cannot be listed, or
    something [statSync] fails on. *)
Inductive node :=
| File
| Dir (entries : list (string * node))
| Unlistable (code : Errno)
| Unstatable (code : Errno).

Record Stats := mkStats { isDirectory : bool }.

(** What [statSync(path).isDirectory()] says of a node that can be stat-ed. *)
Definition isDirectory_of (n : node) : bool :=
  match n with
  | Dir _ | Unlistable _ => true
  | File | Unstatable _ => false
  end.

(** ** The monad of the program: exceptions, the RegExp store, the log of
    file-system calls *)

Definition M (A : Type) : Type := Heap → result A * Heap * list FsCall.

Definition ret {A} (a : A) : M A := λ h, (Ok a, h, []).
Definition throw {A} (e : Error) : M A := λ h, (Throw e, h, []).
Definition bind {A B} (m : M A) (f : A → M B) : M B := λ h,
  match m h with
  | (Ok a, h1, t1) =>
      match f a h1 with
      | (r, h2, t2) => (r, h2, t1 ++ t2)
      end
  | (Throw e, h1, t1) => (Throw e, h1, t1)
  end.
Definition call (c : FsCall) : M unit := λ h, (Ok (), h, [c]).

Notation "x <- m ;; k" := (bind m (λ x, k))
  (at level 100, m at next level, right associativity,
   format "'[v' x  <-  m  ;;  '/' k ']'").
Notation "m ;;; k" := (bind m (λ _, k))
  (at level 100, right associativity,
   format "'[v' m  ;;;  '/' k ']'").

Definition value {A} (o : result A * Heap * list FsCall) : result A :=
  let '(r, _, _) := o in r.
Definition heap {A} (o : result A * Heap * list FsCall) : Heap :=
  let '(_, h, _) := o in h.
Definition calls {A} (o : result A * Heap * list FsCall) : list FsCall :=
  let '(_, _, t) := o in t.

(** The outcome [o] reached after the calls [t]. *)
Definition after {A} (t : list FsCall) (o : result A * Heap * list FsCall)
    : result A * Heap * list FsCall :=
  (value o, heap o, t ++ calls o).

(** [pattern.test(s)] on the object behind a reference. The callers of
    [compareDirectories] hold references to objects of the store only; a
    reference to nothing matches nothing. *)
Definition RegExp_test (pattern : loc) (s : string) : M bool := λ h,
  match h !! pattern with
  | Some r => let '(b, r') := test r s in (Ok b, <[pattern := r']> h, [])
  | None => (Ok false, h, [])
  end.

(** [patterns.some(pattern => pattern.test(s))]: left to right, stopping at
    the first pattern that matches. *)
Fixpoint some_test (patterns : list loc) (s : string) : M bool :=
  match patterns with
  | [] => ret false
  | pattern :: rest =>
      b <- RegExp_test pattern s ;;
      if b then ret true else some_test rest s
  end.

Definition statSync (path : string) (n : node) : M Stats :=
  call (Stat path) ;;;
  match n with
  | File => ret (mkStats false)
  | Dir _ | Unlistable _ => ret (mkStats true)
  | Unstatable code => throw (FsError code path)
  end.

Definition readdirSync (path : string) (n : node) : M (list (string * node)) :=
  call (Readdir path) ;;;
  match n with
  | Dir entries => ret entries
  | File => throw (FsError ENOTDIR path)
  | Unlistable code | Unstatable code => throw (FsError code path)
  end.

(** [paths.push(...sub)] (line 62): every element of [sub] is an argument of
    the call, and the engine throws a RangeError when they are more than the
    [limit] it can pass. *)
Definition push_spread (limit : N) (paths sub : list string) : M (list string) :=
  if decide (N.of_nat (length sub) ≤ limit)%N then ret (paths ++ sub)
  else throw RangeError.

Section Program.

Variable join : string → string → string.
Variable relative : string → string → string.
(** The number of arguments the engine can pass in the call of [push] made
    for the sub-directory at a path (it depends on the stack that is left
    there; V8 passes about 120000 on an empty stack). *)
Variable argument_limit : string → N.
(** The engine's compiler: [None] when the source is not a valid pattern. *)
Variable regexp_compile : string → option (string → nat → option nat).
(** The tree found at a root path. *)
Variable fs : string → node.

(** ** collectPaths (lines 48-69)

    The recursion follows the tree: the loop over the entries is written
    inside the function, and on anything but a directory that can be listed
    [readdirSync] throws. [collectPaths_unfold] below gives the function the
    shape of the source: [readdirSync], then the loop [collectEntries]. *)

Fixpoint collectPaths (baseDir currentDir : string) (n : node)
    (ignorePatterns : list loc) {struct n} : M (list string) :=
  match n with
  | Dir entries =>
      readdirSync currentDir n ;;;
      (fix loop (entries : list (string * node)) (paths : list string)
           {struct entries} : M (list string) :=
         match entries with
         | [] => ret paths
         | (entry, child) :: rest =>
             let fullPath := join currentDir entry in
             let relativePath := relative baseDir fullPath in
             ignored <- some_test ignorePatterns relativePath ;;
             if ignored then loop rest paths
             else
               stats <- statSync fullPath child ;;
               if isDirectory stats then
                 sub <- collectPaths baseDir fullPath child ignorePatterns ;;
                 paths <- push_spread (argument_limit fullPath) paths sub ;;
                 loop rest paths
               else loop rest (paths ++ [relativePath])
         end) entries []
  | _ => readdirSync currentDir n ;;; ret []
  end.

(** The loop of [collectPaths] over the entries of [currentDir], with the
    array [paths] built so far. *)
Fixpoint collectEntries (baseDir currentDir : string)
    (ignorePatterns : list loc) (entries : list (string * node))
    (paths : list string) : M (list string) :=
  match entries with
  | [] => ret paths
  | (entry, child) :: rest =>
      let fullPath := join currentDir entry in
      let relativePath := relative baseDir fullPath in
      ignored <- some_test ignorePatterns relativePath ;;
      if ignored then collectEntries baseDir currentDir ignorePatterns rest paths
      else
        stats <- statSync fullPath child ;;
        if isDirectory stats then
          sub <- collectPaths baseDir fullPath child ignorePatterns ;;
          paths <- push_spread (argument_limit fullPath) paths sub ;;
          collectEntries baseDir currentDir ignorePatterns rest paths
        else
          collectEntries baseDir currentDir ignorePatterns rest
            (paths ++ [relativePath])
  end.

(** ** compareDirectories (lines 74-96) *)

Record DiffResult := mkDiffResult {
  onlyInFirst : list string;
  onlyInSecond : list string;
  inBoth : list string
}.

(** [new RegExp(source)]: a fresh object without flags, [lastIndex] 0. *)
Definition RegExp_new (source : string) : M loc := λ h,
  match regexp_compile source with
  | Some e => (Ok (length h), h ++ [mkRegExp e false false 0], [])
  | None => (Throw (SyntaxError source), h, [])
  end.

(** [Array.prototype.map] with a callback that may throw. *)
Fixpoint mapM {A B} (f : A → M B) (l : list A) : M (list B) :=
  match l with
  | [] => ret []
  | a :: l' => b <- f a ;; bs <- mapM f l' ;; ret (b :: bs)
  end.

(** [pattern instanceof RegExp ? pattern : new RegExp(pattern)] *)
Definition toRegExp (pattern : string + loc) : M loc :=
  match pattern with
  | inr r => ret r
  | inl source => RegExp_new source
  end.

(** The default order of [Array.prototype.sort]: strings compared by their
    UTF-16 code units. On the UTF-8 bytes of two strings this is the order of
    the first byte that differs, but for one thing: a character above U+FFFF
    is two surrogates in UTF-16 (D800-DFFF) and comes before the characters
    U+E000-U+FFFF, while its UTF-8 form starts with a byte F0-F4, above the
    bytes EE and EF that start those. [unit_rank] moves EE and EF above the
    bytes from F0 on. [path_le_code_units] shows that [path_le] compares the
    code units of the two strings ([code_units]), unit by unit. *)
Definition unit_rank (c : ascii) : ascii :=
  let n := N_of_ascii c in
  if (n <? 238)%N then c
  else if (n <? 240)%N then ascii_of_N (n + 16)
  else ascii_of_N (n - 2).

Fixpoint unit_ranks (s : string) : string :=
  match s with
  | EmptyString => EmptyString
  | String c s' => String (unit_rank c) (unit_ranks s')
  end.

Definition path_le (a b : string) : Prop :=
  String.leb (unit_ranks a) (unit_ranks b).

Definition sort (paths : list string) : list string := merge_sort path_le paths.

(** The three lists before the roots are put back (lines 87-89), and the
    roots put back (lines 91-95). *)
Definition partition3 (paths1 paths2 : list string) : DiffResult :=
  {| onlyInFirst := filter (λ path, path ∉ paths2) paths1;
     onlyInSecond := filter (λ path, path ∉ paths1) paths2;
     inBoth := filter (λ path, path ∈ paths2) paths1 |}.

Definition rooted (dir1 dir2 : string) (rel : DiffResult) : DiffResult :=
  {| onlyInFirst := join dir1 <$> onlyInFirst rel;
     onlyInSecond := join dir2 <$> onlyInSecond rel;
     inBoth := join dir1 <$> inBoth rel |}.

Definition compareDirectories (dir1 dir2 : string)
    (ignorePatterns : list (string + loc)) : M DiffResult :=
  regexPatterns <- mapM toRegExp ignorePatterns ;;
  paths1 <- collectPaths dir1 dir1 (fs dir1) regexPatterns ;;
  let paths1 := sort paths1 in
  paths2 <- collectPaths dir2 dir2 (fs dir2) regexPatterns ;;
  let paths2 := sort paths2 in
  let onlyInFirst := filter (λ path, path ∉ paths2) paths1 in
  let onlyInSecond := filter (λ path, path ∉ paths1) paths2 in
  let inBoth := filter (λ path, path ∈ paths2) paths1 in
  ret {| onlyInFirst := join dir1 <$> onlyInFirst;
         onlyInSecond := join dir2 <$> onlyInSecond;
         inBoth := join dir1 <$> inBoth |}.

(** patternsToRegExp (lines 144-146) *)
Definition patternsToRegExp (patterns : list string) : M (list loc) :=
  mapM RegExp_new patterns.

(** The two sorted snapshots (lines 80-85) and the three lists of
    root-relative paths made from them (lines 87-89). *)
Definition snapshots (dir1 dir2 : string)
    (ignorePatterns : list (string + loc)) : M (list string * list string) :=
  regexPatterns <- mapM toRegExp ignorePatterns ;;
  paths1 <- collectPaths dir1 dir1 (fs dir1) regexPatterns ;;
  paths2 <- collectPaths dir2 dir2 (fs dir2) regexPatterns ;;
  ret (sort paths1, sort paths2).

Definition relativeDiff (dir1 dir2 : string)
    (ignorePatterns : list (string + loc)) : M DiffResult :=
  s <- snapshots dir1 dir2 ignorePatterns ;;
  ret (partition3 s.1 s.2).

(** ** Vocabulary of the properties *)

(** The pattern behind [l] matches [path]: its search from index 0 succeeds. *)
Definition matches_at (h : Heap) (path : string) (l : loc) : bool :=
  match h !! l with
  | Some r => bool_decide (is_Some (exec r path 0))
  | None => false
  end.

(** [path] matches at least one of the patterns. *)
Definition matches (h : Heap) (patterns : list loc) (path : string) : bool :=
  existsb (matches_at h path) patterns.

(** The object behind [l] carries neither [g] nor [y]. *)
Definition flagless (h : Heap) (l : loc) : bool :=
  match h !! l with
  | Some r => negb (global r || sticky r)
  | None => true
  end.

(** No RegExp object of the list carries [g] or [y]; a string of the list is
    compiled without flags and always qualifies. *)
Definition stateless (h : Heap) (ignorePatterns : list (string + loc)) : bool :=
  forallb (λ pattern, match pattern with
                      | inl _ => true
                      | inr l => flagless h l
                      end) ignorePatterns.

(** An object without flags. *)
Definition plain (r : RegExp) : Prop := global r = false ∧ sticky r = false.

(** The store after some allocations of [new RegExp]. *)
Definition grown (h h' : Heap) : Prop :=
  ∃ fresh, h' = h ++ fresh ∧ Forall plain fresh.

(** [kept h patterns baseDir currentDir n path]: below the directory [n] found
    at [currentDir] there is a file with root-relative path [path], and
    neither the file nor any directory on the way down to it has a
    root-relative path that matches a pattern. *)
Inductive kept (h : Heap) (patterns : list loc) (baseDir : string)
    : string → node → string → Prop :=
| kept_file currentDir entries entry :
    (entry, File) ∈ entries →
    matches h patterns (relative baseDir (join currentDir entry)) = false →
    kept h patterns baseDir currentDir (Dir entries)
      (relative baseDir (join currentDir entry))
| kept_below currentDir entries entry child path :
    (entry, child) ∈ entries →
    matches h patterns (relative baseDir (join currentDir entry)) = false →
    kept h patterns baseDir (join currentDir entry) child path →
    kept h patterns baseDir currentDir (Dir entries) path.

(** The tree without the entries whose root-relative path matches a pattern,
    and without what lies below them. *)
Fixpoint prune (h : Heap) (patterns : list loc) (baseDir currentDir : string)
    (n : node) {struct n} : node :=
  match n with
  | Dir entries =>
      Dir ((fix go (entries : list (string * node)) : list (string * node) :=
              match entries with
              | [] => []
              | (entry, child) :: rest =>
                  let fullPath := join currentDir entry in
                  if matches h patterns (relative baseDir fullPath)
                  then go rest
                  else (entry, prune h patterns baseDir fullPath child) :: go rest
              end) entries)
  | _ => n
  end.

Fixpoint pruneEntries (h : Heap) (patterns : list loc)
    (baseDir currentDir : string) (entries : list (string * node))
    : list (string * node) :=
  match entries with
  | [] => []
  | (entry, child) :: rest =>
      let fullPath := join currentDir entry in
      if matches h patterns (relative baseDir fullPath)
      then pruneEntries h patterns baseDir currentDir rest
      else (entry, prune h patterns baseDir fullPath child)
             :: pruneEntries h patterns baseDir currentDir rest
  end.

(** What the traversal of [n] does when no pattern keeps state: the store is
    left as it was, and, when it returns, it returns the kept files. *)
Definition traversal_flagless (patterns : list loc) (n : node) : Prop :=
  ∀ baseDir currentDir h,
    Forall (λ l, flagless h l) patterns →
    heap (collectPaths baseDir currentDir n patterns h) = h ∧
    ∀ paths,
      value (collectPaths baseDir currentDir n patterns h) = Ok paths →
      ∀ path, path ∈ paths ↔
        kept h patterns baseDir currentDir n path.

(** The traversal cannot tell [n] from the pruned [n]. *)
Definition prune_invisible (patterns : list loc) (n : node) : Prop :=
  ∀ baseDir currentDir h,
    Forall (λ l, flagless h l) patterns →
    collectPaths baseDir currentDir
      (prune h patterns baseDir currentDir n) patterns h
    = collectPaths baseDir currentDir n patterns h.

(** [fails baseDir patterns currentDir n h e]: the traversal of [n], started
    with the store [h], comes to a call of [readdirSync] or [statSync] that
    throws [e]: listing [n] itself, or, after the entries before it went
    through, an entry that is not ignored and cannot be stat-ed, or a
    directory entry that is not ignored and below which this happens. *)
Inductive fails (baseDir : string) (patterns : list loc)
    : string → node → Heap → Error → Prop :=
| fails_list currentDir n h e :
    value (readdirSync currentDir n h) = Throw e →
    fails baseDir patterns currentDir n h e
| fails_stat currentDir before entry child after h paths h1 t1 h2 t2 e :
    collectEntries baseDir currentDir patterns before [] h = (Ok paths, h1, t1) →
    some_test patterns (relative baseDir (join currentDir entry)) h1
      = (Ok false, h2, t2) →
    value (statSync (join currentDir entry) child h2) = Throw e →
    fails baseDir patterns currentDir (Dir (before ++ (entry, child) :: after)) h e
| fails_below currentDir before entry child after h paths h1 t1 h2 t2 e :
    collectEntries baseDir currentDir patterns before [] h = (Ok paths, h1, t1) →
    some_test patterns (relative baseDir (join currentDir entry)) h1
      = (Ok false, h2, t2) →
    value (statSync (join currentDir entry) child h2) = Ok (mkStats true) →
    fails baseDir patterns (join currentDir entry) child h2 e →
    fails baseDir patterns currentDir (Dir (before ++ (entry, child) :: after)) h e.

End Program.

(** ** What the specification says of [compareDirectories], as properties of
    one call *)

Section Claims.

Context (join relative : string → string → string).
Context (argument_limit : string → N).
Context (regexp_compile : string → option (string → nat → option nat)).

(** Ignore pruning. A root-relative path that matches a pattern is in none
    of the three lists; every path of a list is the path of a kept file of
    its root, so that nothing below a directory whose path matches comes
    out; and the call cannot tell the trees from the pruned ones. *)
Definition ignore_pruning (fs : string → node) (dir1 dir2 : string)
    (ignorePatterns : list (string + loc)) (h : Heap) : Prop :=
  ∀ regexPatterns h1 t0 rel h' t,
    mapM (toRegExp regexp_compile) ignorePatterns h = (Ok regexPatterns, h1, t0) →
    relativeDiff join relative argument_limit regexp_compile fs dir1 dir2
        ignorePatterns h
      = (Ok rel, h', t) →
    let kept1 := kept join relative h1 regexPatterns dir1 dir1 (fs dir1) in
    let kept2 := kept join relative h1 regexPatterns dir2 dir2 (fs dir2) in
    let pruned dir := prune join relative h1 regexPatterns dir dir (fs dir) in
    compareDirectories join relative argument_limit regexp_compile fs dir1
        dir2 ignorePatterns h
      = (Ok (rooted join dir1 dir2 rel), h', t) ∧
    (∀ path, matches h1 regexPatterns path →
       (path ∉ onlyInFirst rel) ∧ (path ∉ onlyInSecond rel) ∧
       (path ∉ inBoth rel)) ∧
    (∀ path, path ∈ onlyInFirst rel ∨ path ∈ inBoth rel → kept1 path) ∧
    (∀ path, path ∈ onlyInSecond rel ∨ path ∈ inBoth rel → kept2 path) ∧
    compareDirectories join relative argument_limit regexp_compile pruned dir1
        dir2
      ignorePatterns h = (Ok (rooted join dir1 dir2 rel), h', t).

(** Idempotence. When the root can be traversed, comparing it to itself
    returns two empty lists and, in [inBoth], every kept file of the root. *)
Definition idempotent (fs : string → node) (dir : string)
    (ignorePatterns : list (string + loc)) (h : Heap) : Prop :=
  ∀ regexPatterns h1 t0 paths h2 t1,
    mapM (toRegExp regexp_compile) ignorePatterns h = (Ok regexPatterns, h1, t0) →
    collectPaths join relative argument_limit dir dir (fs dir) regexPatterns h1
      = (Ok paths, h2, t1) →
    (∃ h' t,
       compareDirectories join relative argument_limit regexp_compile fs dir
           dir ignorePatterns h
       = (Ok {| onlyInFirst := []; onlyInSecond := [];
                inBoth := join dir <$> sort paths |}, h', t)) ∧
    (∀ path, path ∈ paths ↔
       kept join relative h1 regexPatterns dir dir (fs dir) path).

(** Symmetry, on the lists of root-relative paths. *)
Definition symmetric (fs : string → node) (A B : string)
    (ignorePatterns : list (string + loc)) (h : Heap) : Prop :=
  ∀ d h' t,
    compareDirectories join relative argument_limit regexp_compile fs A B
        ignorePatterns h
      = (Ok d, h', t) →
    ∃ rel rel' h'' t',
      relativeDiff join relative argument_limit regexp_compile fs A B
          ignorePatterns h
        = (Ok rel, h', t) ∧
      d = rooted join A B rel ∧
      relativeDiff join relative argument_limit regexp_compile fs B A
          ignorePatterns h
        = (Ok rel', h'', t') ∧
      compareDirectories join relative argument_limit regexp_compile fs B A
          ignorePatterns h
        = (Ok (rooted join B A rel'), h'', t') ∧
      onlyInFirst rel = onlyInSecond rel' ∧
      onlyInSecond rel = onlyInFirst rel' ∧
      list_to_set (inBoth rel) =@{gset string} list_to_set (inBoth rel').

End Claims.

(** ** The reports (lines 101-139) *)

Definition newline : string := String "010"%char "".
Definition quote : string := String "034"%char "".

(** [console.log(line)], the console being the list of the messages logged,
    one for each call; a message may hold line breaks of its own. *)
Definition console_log (console : list string) (line : string) : list string :=
  console ++ [line].

Section Reporter.

Variable resolve : string → string.

Definition printDifferences (dir1 dir2 : string) (diff : DiffResult)
    : list string :=
  let console := console_log [] "Directory Structure Comparison:" in
  let console := console_log console "===============================" in
  if decide (length (onlyInFirst diff) = 0 ∧ length (onlyInSecond diff) = 0)
  then console_log console "✅ Directories are identical"
  else
    let console :=
      if decide (0 < length (onlyInFirst diff)) then
        foldl (λ console path, console_log console (" - " +:+ path))
          (console_log console
             (newline +:+ "Only in " +:+ quote +:+ resolve dir1 +:+ quote +:+ ":"))
          (onlyInFirst diff)
      else console in
    let console :=
      if decide (0 < length (onlyInSecond diff)) then
        foldl (λ console path, console_log console (" - " +:+ path))
          (console_log console
             (newline +:+ "Only in " +:+ quote +:+ resolve dir2 +:+ quote +:+ ":"))
          (onlyInSecond diff)
      else console in
    console_log console
      (newline +:+ "Found " +:+ pretty (length (inBoth diff))
       +:+ " identical paths, "
       +:+ pretty (length (onlyInFirst diff) + length (onlyInSecond diff))
       +:+ " differences").

Definition printCommonItems (dir1 dir2 : string) (diff : DiffResult)
    : list string :=
  let console := console_log [] "Common Directory Structure:" in
  let console := console_log console "==========================" in
  if decide (length (inBoth diff) = 0)
  then console_log console "❌ No common files or directories found"
  else
    let console :=
      console_log console
        (newline +:+ "Files and directories in both " +:+ quote +:+ resolve dir1
         +:+ quote +:+ " and " +:+ quote +:+ resolve dir2 +:+ quote +:+ ":") in
    let console :=
      foldl (λ console path, console_log console (" - " +:+ path))
        console (inBoth diff) in
    console_log console
      (newline +:+ "Found " +:+ pretty (length (inBoth diff)) +:+ " common paths").

End Reporter.

(** The count line of the difference report. *)
Definition count_line (diff : DiffResult) : string :=
  newline +:+ "Found " +:+ pretty (length (inBoth diff))
  +:+ " identical paths, "
  +:+ pretty (length (onlyInFirst diff) + length (onlyInSecond diff))
  +:+ " differences".

Definition ends_with_count (resolve : string → string) (dir1 dir2 : string)
    (diff : DiffResult) : Prop :=
  last (printDifferences resolve dir1 dir2 diff) = Some (count_line diff).

(** ** loadConfig (lines 17-43) *)

(** A value returned by [JSON.parse]. *)
Inductive json :=
| JNull
| JBool (b : bool)
| JNumber (text : string)
| JString (s : string)
| JArray (items : list json)
| JObject (fields : gmap string json).

(** [v.ignorePaths]: [None] when the read throws (on [null]), [Some None]
    when it gives [undefined]. *)
Definition get_ignorePaths (v : json) : option (option json) :=
  match v with
  | JNull => None
  | JObject fields => Some (fields !! "ignorePaths")
  | JBool _ | JNumber _ | JString _ | JArray _ => Some None
  end.

(** [typeof x === 'object' && Array.isArray(x)] *)
Definition is_array (x : option json) : bool :=
  match x with
  | Some (JArray _) => true
  | _ => false
  end.

Section Config.

(** [existsSync], [readFileSync(_, 'utf8')] and [JSON.parse]; [None] stands
    for a throw. [configPath] is [resolve(process.cwd(), '.bdgrc.json')]. *)
Variable existsSync : string → bool.
Variable readFileSync : string → option string.
Variable JSON_parse : string → option json.
Variable configPath : string.

Definition emptyConfig : json := JObject {[ "ignorePaths" := JArray [] ]}.

(** The result and what was written to the console. The body of the [try]
    is a computation in [option]; the [catch] block handles [None]. *)
Definition loadConfig : json * list string :=
  if existsSync configPath then
    match
      configContent ← readFileSync configPath;
      parsedConfig ← JSON_parse configContent;
      ignorePaths ← get_ignorePaths parsedConfig;
      Some (parsedConfig, is_array ignorePaths)
    with
    | Some (parsedConfig, true) => (parsedConfig, [])
    | Some (_, false) =>
        (emptyConfig,
         ["Invalid config format in .bdgrc.json, using empty ignore list."])
    | None => (emptyConfig, ["Error loading config from .bdgrc.json:"])
    end
  else (emptyConfig, [".bdgrc.json not found, using empty ignore list."]).

End Config.

(** ** The script (lines 149-156) *)

(** How the script ends: at its last line, or on an exception that nothing
    catches, one of [Error] or the TypeError of the engine (a property read
    on [undefined], a value that cannot be converted to a string). *)
Inductive Completion :=
| Normal
| Uncaught (e : Error)
| TypeError.

(** A run of the script: how it ends, what it wrote to the console, the
    calls of the file system, and the RegExp objects at the end. *)
Record Run := mkRun {
  run_completion : Completion;
  run_console : list string;
  run_calls : list FsCall;
  run_heap : Heap
}.

Section Script.

Variable join : string → string → string.
Variable relative : string → string → string.
Variable argument_limit : string → N.
Variable regexp_compile : string → option (string → nat → option nat).
Variable fs : string → node.
Variable resolve : string → string.
Variable existsSync : string → bool.
Variable readFileSync : string → option string.
Variable JSON_parse : string → option json.
Variable configPath : string.
(** [ToString] on a parsed value that is not a string; [None] when it throws
    a TypeError. *)
Variable ToString : json → option string.

(** The source [new RegExp(item)] compiles: a string as it is, another value
    through [ToString]. *)
Definition pattern_source (item : json) : option string :=
  match item with
  | JString source => Some source
  | _ => ToString item
  end.

(** The sources of the items that [patterns.map] comes to, in order, up to
    the first item whose conversion throws, and whether none does. *)
Fixpoint sources_of (items : list json) : list string * bool :=
  match items with
  | [] => ([], true)
  | item :: rest =>
      match pattern_source item with
      | Some source =>
          let '(sources, all) := sources_of rest in (source :: sources, all)
      | None => ([], false)
      end
  end.

Definition script (h : Heap) : Run :=
  let '(config, messages) :=
    loadConfig existsSync readFileSync JSON_parse configPath in
  match get_ignorePaths config with
  | Some (Some (JArray items)) =>
      let '(sources, all) := sources_of items in
      match patternsToRegExp regexp_compile sources h with
      | (Ok ignorePatterns, h1, t0) =>
          if all then
            let dir1 := resolve "../oc-esim-service" in
            let dir2 := resolve "../oc-catalogue-service" in
            match compareDirectories join relative argument_limit
                regexp_compile fs
                    dir1 dir2 (inr <$> ignorePatterns) h1 with
            | (Ok diff, h2, t) =>
                mkRun Normal
                  (messages ++ printCommonItems resolve dir1 dir2 diff)
                  (t0 ++ t) h2
            | (Throw e, h2, t) => mkRun (Uncaught e) messages (t0 ++ t) h2
            end
          else mkRun TypeError messages t0 h1
      | (Throw e, h1, t0) => mkRun (Uncaught e) messages t0 h1
      end
  | _ => mkRun TypeError messages [] h
  end.

End Script.

(** ** Vocabulary of further properties *)

Definition is_Stat (c : FsCall) : bool :=
  match c with Stat _ => true | Readdir _ => false end.
Definition is_Readdir (c : FsCall) : bool :=
  match c with Readdir _ => true | Stat _ => false end.

(** The path a call was made on. *)
Definition call_path (c : FsCall) : string :=
  match c with Readdir path | Stat path => path end.

(** How many calls of a kind a log holds. *)
Definition count_calls (kind : FsCall → bool) (t : list FsCall) : nat :=
  length (filter (λ c, kind c) t).

(** What a call of [test] may change of an object: [lastIndex], and only
    when the object carries [g] or [y]. *)
Definition same_pattern (r r' : RegExp) : Prop :=
  exec r' = exec r ∧ global r' = global r ∧ sticky r' = sticky r ∧
  (global r || sticky r = false → lastIndex r' = lastIndex r).

(** An element of the pattern list matches [s]: the compiled string does, or
    the object behind the reference does. *)
Definition pattern_matches
    (regexp_compile : string → option (string → nat → option nat))
    (h : Heap) (s : string) (pattern : string + loc) : bool :=
  match pattern with
  | inl source =>
      match regexp_compile source with
      | Some e => bool_decide (is_Some (e s 0))
      | None => false
      end
  | inr l => matches_at h s l
  end.

(** The references of the list are references to objects of the store. *)
Definition valid_refs (h : Heap) (ignorePatterns : list (string + loc)) : Prop :=
  ∀ l, inr l ∈ ignorePatterns → l < length h.

(** What a caller sees of an outcome besides the store. *)
Definition visible {A} (o : result A * Heap * list FsCall)
    : result A * list FsCall :=
  (value o, calls o).

(** The store [h'] holds the objects of [h], in place, changed at most in
    this way. *)
Definition evolved (h h' : Heap) : Prop := Forall2 same_pattern h h'.

(** [e] is the error of a file-system call on a path, and this call is the
    last of the log [t]. *)
Definition thrown_last (e : Error) (t : list FsCall) : Prop :=
  ∃ code path t0 c,
    e = FsError code path ∧ t = t0 ++ [c] ∧ call_path c = path.

(** What [new RegExp(source)] makes of a string that compiles: an object
    with the compiled pattern, no flag, and [lastIndex] 0. *)
Definition compiled_from
    (regexp_compile : string → option (string → nat → option nat))
    (source : string) (r : RegExp) : Prop :=
  regexp_compile source = Some (exec r) ∧ plain r ∧ lastIndex r = 0.

(** The message a report logs for a path, and the messages of this
    shape. *)
Definition bullet (path : string) : string := " - " +:+ path.
Definition is_bullet (message : string) : bool := String.prefix " - " message.

(** A section of the difference report: nothing for an empty list, else the
    heading with the resolved root and one line for each path. *)
Definition only_in_section (root : string) (paths : list string) : list string :=
  match paths with
  | [] => []
  | _ => (newline +:+ "Only in " +:+ quote +:+ root +:+ quote +:+ ":")
         :: (bullet <$> paths)
  end.

(** The two reports that list nothing. *)
Definition identical_report : list string :=
  ["Directory Structure Comparison:"; "===============================";
   "✅ Directories are identical"].
Definition no_common_report : list string :=
  ["Common Directory Structure:"; "==========================";
   "❌ No common files or directories found"].

(** A directory in which everything can be read: it can be listed, and
    each of its entries is a file or such a directory. *)
Fixpoint listable (n : node) : bool :=
  match n with
  | Dir entries =>
      forallb (λ '(_, child),
                 match child with
                 | File => true
                 | _ => listable child
                 end) entries
  | _ => false
  end.

(** The number of files below a node. *)
Fixpoint files_below (n : node) : nat :=
  match n with
  | File => 1
  | Dir entries => sum_list_with (λ '(_, child), files_below child) entries
  | _ => 0
  end.

(** No sub-directory below the directory found at [currentDir] holds more
    files than the engine can pass as the arguments of the call made for
    it. *)
Fixpoint spreadable (join : string → string → string)
    (argument_limit : string → N) (currentDir : string) (n : node)
    {struct n} : bool :=
  match n with
  | Dir entries =>
      forallb (λ '(entry, child),
                 match child with
                 | Dir _ =>
                     bool_decide (N.of_nat (files_below child)
                                  ≤ argument_limit (join currentDir entry))%N
                     && spreadable join argument_limit
                          (join currentDir entry) child
                 | _ => true
                 end) entries
  | _ => true
  end.

(** [reorder n n']: the trees [n] and [n'] hold the same entries, listed in
    another order, in the directory itself and in the directories below. *)
Inductive reorder : node → node → Prop :=
| reorder_File : reorder File File
| reorder_Dir entries shuffled entries' :
    Forall2 (λ x y, x.1 = y.1 ∧ reorder x.2 y.2) entries shuffled →
    shuffled ≡ₚ entries' →
    reorder (Dir entries) (Dir entries')
| reorder_Unlistable code : reorder (Unlistable code) (Unlistable code)
| reorder_Unstatable code : reorder (Unstatable code) (Unstatable code).

(** When the traversal of [n] returns, the traversal of [n'] returns the
    same paths in another order. *)
Definition listed_alike (join relative : string → string → string)
    (argument_limit : string → N)
    (baseDir : string) (patterns : list loc) (h : Heap) (n n' : node) : Prop :=
  ∀ currentDir paths,
    value (collectPaths join relative argument_limit baseDir currentDir n
        patterns h)
    = Ok paths →
    ∃ paths',
      value (collectPaths join relative argument_limit baseDir currentDir n'
          patterns h)
      = Ok paths' ∧
      paths ≡ₚ paths'.

(** ** A concrete host, to run the program on examples *)

Module Posix.

(** [path.join] and [path.relative] on normalised paths (no [.] or [..]
    segment, no doubled or trailing separator), [to] below [from]. *)
Definition join (a b : string) : string := a +:+ "/" +:+ b.

Definition relative (from to : string) : string :=
  if String.prefix (from +:+ "/") to
  then String.substring (String.length from + 1)
         (String.length to - String.length from - 1) to
  else to.

(** An engine that passes up to 120000 arguments, wherever the call is
    made. *)
Definition argument_limit (path : string) : N := 120000.

(** The search of a regular expression that is a plain literal, in a string
    of ASCII characters (there an index in code units is an index in
    bytes). *)
Definition literal (lit : string) (s : string) (i : nat) : option nat :=
  (λ j, j + String.length lit) <$> String.index i lit s.

(** The same anchored by [^]: only a match at index 0 counts. *)
Definition anchored (lit : string) (s : string) (i : nat) : option nat :=
  if decide (i = 0) then
    if String.prefix lit s then Some (String.length lit) else None
  else None.

(** The engine on the sources of the examples: a literal of letters, digits,
    [/], [_] and [-], possibly after [^]; an unbalanced ["("] is rejected. *)
Definition regexp_compile (source : string)
    : option (string → nat → option nat) :=
  match source with
  | String "^"%char lit => Some (anchored lit)
  | String "("%char EmptyString => None
  | lit => Some (literal lit)
  end.

End Posix.

(** ** Inputs of the examples *)

Module Examples.

(** Scenario 1 of the specification. *)
Definition tree1 : node :=
  Dir [("a.txt", File); ("b", Dir [("c.txt", File)])].
Definition tree2 : node :=
  Dir [("a.txt", File); ("b", Dir [("d.txt", File)])].
Definition disk (root : string) : node :=
  if decide (root = "dir1") then tree1
  else if decide (root = "dir2") then tree2
  else Unstatable ENOENT.

(** Two roots that hold one file each, [a]. *)
Definition disk_a (root : string) : node :=
  if decide (root = "dir1") then Dir [("a", File)]
  else if decide (root = "dir2") then Dir [("a", File)]
  else Unstatable ENOENT.

(** The object [/a/g], as the caller builds it. *)
Definition a_global : RegExp := mkRegExp (Posix.literal "a") true false 0.

(** Scenario 5: [dir1] holds a subdirectory that cannot be read. *)
Definition disk_locked (root : string) : node :=
  if decide (root = "dir1") then
    Dir [("a.txt", File); ("secret", Unlistable EACCES)]
  else if decide (root = "dir2") then tree2
  else Unstatable ENOENT.

(** A configuration file, and a parser that knows this one text. *)
Definition bdgrc : string :=
  "{" +:+ quote +:+ "ignorePaths" +:+ quote +:+ ": ["
  +:+ quote +:+ "^b/" +:+ quote +:+ "]}".
Definition bdgrc_value : json :=
  JObject {[ "ignorePaths" := JArray [JString "^b/"] ]}.
Definition parse_bdgrc (text : string) : option json :=
  if decide (text = bdgrc) then Some bdgrc_value else None.

(** Two empty roots (scenario 3). *)
Definition empty_disk (root : string) : node := Dir [].

(** The object [/c/], without flags. *)
Definition c_plain : RegExp := mkRegExp (Posix.literal "c") false false 0.

(** A root with two files named by one character each, U+FF5E and U+1F600,
    beside an empty root. *)
Definition disk_wide (root : string) : node :=
  if decide (root = "dir1") then Dir [("～", File); ("😀", File)]
  else if decide (root = "dir2") then Dir []
  else Unstatable ENOENT.

End Examples.

(** ** Inputs of the examples of the further properties *)

Module Inputs.

Import Examples.

(** The object [/d/], without flags. *)
Definition d_plain : RegExp := mkRegExp (Posix.literal "d") false false 0.

(** The tree of [dir1] with its entries listed in the opposite order. *)
Definition tree1_reversed : node :=
  Dir [("b", Dir [("c.txt", File)]); ("a.txt", File)].
Definition disk_reversed (root : string) : node :=
  if decide (root = "dir1") then tree1_reversed
  else if decide (root = "dir2") then tree2
  else Unstatable ENOENT.

(** The tree of scenario 1 beside an empty root. *)
Definition disk_beside_empty (root : string) : node :=
  if decide (root = "dir1") then tree1
  else if decide (root = "dir2") then Dir []
  else Unstatable ENOENT.

(** The trees of scenario 1 at the two roots of the script. *)
Definition disk_services (root : string) : node :=
  if decide (root = "../oc-esim-service") then tree1
  else if decide (root = "../oc-catalogue-service") then tree2
  else Unstatable ENOENT.

(** An engine with no stack left for the arguments of a call. *)
Definition no_arguments (path : string) : N := 0.

(** A configuration whose array holds an object with a property [toString]
    of its own, which is not a function. *)
Definition bdgrc_object : json :=
  JObject {[ "ignorePaths" := JArray [JObject {[ "toString" := JNull ]}] ]}.

(** [ToString] on a parsed value: a number is held by the text that
    [ToString] gives for it; an array is its elements joined by commas, with
    nothing for [null]; an object with a property [toString] of its own,
    which is not a function, cannot be converted, and another object gives
    the tag of [Object.prototype.toString]. *)
Fixpoint ToString (item : json) : option string :=
  match item with
  | JNull => Some "null"
  | JBool true => Some "true"
  | JBool false => Some "false"
  | JNumber text => Some text
  | JString s => Some s
  | JArray items =>
      (fix join_items (items : list json) : option string :=
         match items with
         | [] => Some ""
         | item :: rest =>
             first ← match item with JNull => Some "" | _ => ToString item end;
             match rest with
             | [] => Some first
             | _ => others ← join_items rest; Some (first +:+ "," +:+ others)
             end
         end) items
  | JObject fields =>
      if decide (is_Some (fields !! "toString")) then None
      else Some "[object Object]"
  end.

End Inputs.

(** * Properties *)

(** ** The monad *)

Lemma bind_Ok {A B} (m : M A) (f : A → M B) h a h1 t1 :
  m h = (Ok a, h1, t1) →
  bind m f h = (value (f a h1), heap (f a h1), t1 ++ calls (f a h1)).
Proof. unfold bind. intros ->. by destruct (f a h1) as [[??]?]. Qed.

Lemma bind_Throw {A B} (m : M A) (f : A → M B) h e h1 t1 :
  m h = (Throw e, h1, t1) → bind m f h = (Throw e, h1, t1).
Proof. unfold bind. by intros ->. Qed.

Lemma bind_Ok_inv {A B} (m : M A) (f : A → M B) h b h' t :
  bind m f h = (Ok b, h', t) →
  ∃ a h1 t1 t2,
    m h = (Ok a, h1, t1) ∧ f a h1 = (Ok b, h', t2) ∧ t = t1 ++ t2.
Proof.
  unfold bind. destruct (m h) as [[[a|e] h1] t1]; [|done].
  destruct (f a h1) as [[r h2] t2] eqn:Hf. intros [= -> -> <-].
  by exists a, h1, t1, t2.
Qed.

Lemma outcome_eta {A} (o : result A * Heap * list FsCall) :
  o = (value o, heap o, calls o).
Proof. by destruct o as [[??]?]. Qed.

(** ** The order of [sort] *)

Lemma ascii_compare_refl c : Ascii.compare c c = Eq.
Proof. unfold Ascii.compare. apply N.compare_refl. Qed.

Lemma string_compare_refl s : String.compare s s = Eq.
Proof. induction s as [|c s IH]; simpl; [done|]. by rewrite ascii_compare_refl. Qed.

Lemma string_compare_lt_trans a b c :
  String.compare a b = Lt → String.compare b c = Lt → String.compare a c = Lt.
Proof.
  revert b c. induction a as [|x a IH]; intros [|y b] [|z c]; simpl; try done.
  unfold Ascii.compare.
  destruct (N.compare_spec (N_of_ascii x) (N_of_ascii y)) as [Hxy|Hxy|Hxy];
    destruct (N.compare_spec (N_of_ascii y) (N_of_ascii z)) as [Hyz|Hyz|Hyz];
    try done; intros H1 H2.
  - rewrite Hxy, Hyz, N.compare_refl. eauto.
  - by rewrite Hxy, (proj2 (N.compare_lt_iff _ _) Hyz).
  - by rewrite <-Hyz, (proj2 (N.compare_lt_iff _ _) Hxy).
  - by rewrite (proj2 (N.compare_lt_iff _ _) (N.lt_trans _ _ _ Hxy Hyz)).
Qed.

Lemma string_leb_refl s : String.leb s s.
Proof. unfold String.leb. by rewrite string_compare_refl. Qed.

Lemma string_leb_trans a b c : String.leb a b → String.leb b c → String.leb a c.
Proof.
  unfold String.leb.
  destruct (String.compare a b) eqn:Hab; [| |done].
  - apply String.compare_eq_iff in Hab as ->. done.
  - intros _. destruct (String.compare b c) eqn:Hbc; [| |done].
    + apply String.compare_eq_iff in Hbc as <-. by rewrite Hab.
    + by rewrite (string_compare_lt_trans _ _ _ Hab Hbc).
Qed.

Lemma unit_rank_inj c c' : unit_rank c = unit_rank c' → c = c'.
Proof.
  pose (inv := λ c : ascii,
          let n := N_of_ascii c in
          if (n <? 238)%N then c
          else if (n <? 254)%N then ascii_of_N (n + 2)
          else ascii_of_N (n - 16)).
  assert (∀ c, inv (unit_rank c) = c) as Hinv.
  { by intros [[] [] [] [] [] [] [] []]. }
  intros Heq. by rewrite <-(Hinv c), <-(Hinv c'), Heq.
Qed.

Lemma unit_ranks_inj a b : unit_ranks a = unit_ranks b → a = b.
Proof.
  revert b. induction a as [|c a IH]; intros [|c' b]; simpl; try done.
  intros [= Hc%unit_rank_inj Hrest%IH]. by subst.
Qed.

(** ** The order of [sort] is the order of the UTF-16 code units *)

Lemma N_of_unit_rank c : N_of_ascii (unit_rank c) = rankN (N_of_ascii c).
Proof. by destruct c as [[] [] [] [] [] [] [] []]. Qed.

Lemma code_units_utf8 s u : code_units s = Some u → utf8 s u.
Proof.
  remember (String.length s) as n eqn:Hn. revert s u Hn.
  induction n as [n IH] using lt_wf_ind. intros s u ->.
  assert (∀ s' u', String.length s' < String.length s →
            code_units s' = Some u' → utf8 s' u') as IH'
    by (intros s' u' Hlt Hs'; by eapply IH).
  clear IH.
  destruct s as [|c0 s1]; [intros [= <-]; constructor|].
  cbn [code_units]. cbv zeta.
  destruct (N.ltb_spec (N_of_ascii c0) 128) as [H0|H0].
  { destruct (code_units s1) as [u1|] eqn:H1; intros [= <-].
    constructor; [done|]. apply IH'; [simpl; lia|done]. }
  destruct s1 as [|c1 s2]; [done|].
  destruct (two_bytes _ _) eqn:H2.
  { destruct (code_units s2) as [u2|] eqn:Hu; intros [= <-].
    constructor; [by rewrite H2|]. apply IH'; [simpl; lia|done]. }
  destruct s2 as [|c2 s3]; [done|].
  destruct (three_bytes _ _ _) eqn:H3.
  { destruct (code_units s3) as [u3|] eqn:Hu; intros [= <-].
    constructor; [by rewrite H3|]. apply IH'; [simpl; lia|done]. }
  destruct s3 as [|c3 s4]; [done|].
  destruct (four_bytes _ _ _ _) eqn:H4; [|done].
  destruct (code_units s4) as [u4|] eqn:Hu; intros [= <-].
  constructor; [by rewrite H4|]. apply IH'; [simpl; lia|done].
Qed.

Lemma string_compare_cons c d a b :
  String.compare (String c a) (String d b)
  = match (N_of_ascii c ?= N_of_ascii d)%N with
    | Eq => String.compare a b
    | r => r
    end.
Proof. done. Qed.

Lemma continuation_spec b : continuation b → (128 ≤ b < 192)%N.
Proof.
  unfold continuation. intros [H1%Is_true_true H2%Is_true_true]%andb_True.
  apply N.leb_le in H1. apply N.ltb_lt in H2. done.
Qed.

Lemma guard_spec (P : N → N → bool) (k b : N) (c d : N) :
  negb (b =? k)%N || P c d → b = k → P c d.
Proof. intros H ->. by rewrite N.eqb_refl in H. Qed.

Lemma two_bytes_spec b0 b1 :
  two_bytes b0 b1 → (194 ≤ b0 < 224 ∧ 128 ≤ b1 < 192)%N.
Proof.
  unfold two_bytes.
  intros [[H1%Is_true_true%N.leb_le H2%Is_true_true%N.ltb_lt]%andb_True
            H3%continuation_spec]%andb_True.
  lia.
Qed.

Lemma three_bytes_spec b0 b1 b2 :
  three_bytes b0 b1 b2 →
  (224 ≤ b0 < 240 ∧ 128 ≤ b1 < 192 ∧ 128 ≤ b2 < 192
   ∧ (b0 = 224 → 160 ≤ b1) ∧ (b0 = 237 → b1 < 160))%N.
Proof.
  unfold three_bytes.
  intros [[[[[H1%Is_true_true%N.leb_le H2%Is_true_true%N.ltb_lt]%andb_True
            H3%continuation_spec]%andb_True H4%continuation_spec]%andb_True
            H5]%andb_True H6]%andb_True.
  repeat split; try lia.
  - intros ->. by apply N.leb_le, Is_true_true.
  - intros ->. by apply N.ltb_lt, Is_true_true.
Qed.

Lemma four_bytes_spec b0 b1 b2 b3 :
  four_bytes b0 b1 b2 b3 →
  (240 ≤ b0 < 245 ∧ 128 ≤ b1 < 192 ∧ 128 ≤ b2 < 192 ∧ 128 ≤ b3 < 192
   ∧ (b0 = 240 → 144 ≤ b1) ∧ (b0 = 244 → b1 < 144))%N.
Proof.
  unfold four_bytes.
  intros [[[[[[H1%Is_true_true%N.leb_le H2%Is_true_true%N.ltb_lt]%andb_True
            H3%continuation_spec]%andb_True H4%continuation_spec]%andb_True
            H4'%continuation_spec]%andb_True
            H5]%andb_True H6]%andb_True.
  repeat split; try lia.
  - intros ->. by apply N.leb_le, Is_true_true.
  - intros ->. by apply N.ltb_lt, Is_true_true.
Qed.

Lemma continuation_true b : (128 ≤ b < 192)%N → continuation b = true.
Proof.
  intros [H1 H2]. unfold continuation.
  by rewrite (proj2 (N.leb_le _ _) H1), (proj2 (N.ltb_lt _ _) H2).
Qed.

Lemma continuation_false b : (b < 128 ∨ 192 ≤ b)%N → continuation b = false.
Proof.
  intros H. unfold continuation.
  destruct (N.leb_spec 128 b), (N.ltb_spec b 192); try done; lia.
Qed.

(** [length_units] is the number of code units. *)
Lemma length_units_utf8 s u : utf8 s u → length_units s = length u.
Proof.
  induction 1 as [|c0 s u H0 Hs IH|c0 c1 s u H0 Hs IH
                  |c0 c1 c2 s u H0 Hs IH|c0 c1 c2 c3 s u H0 Hs IH];
    cbn [length_units length]; cbv zeta; [done|..].
  - rewrite continuation_false by lia.
    destruct (N.leb_spec 240 (N_of_ascii c0)); [lia|]. by rewrite IH.
  - apply two_bytes_spec in H0.
    rewrite (continuation_false (N_of_ascii c0)) by lia.
    rewrite (continuation_true (N_of_ascii c1)) by lia.
    destruct (N.leb_spec 240 (N_of_ascii c0)); [lia|]. by rewrite IH.
  - apply three_bytes_spec in H0.
    rewrite (continuation_false (N_of_ascii c0)) by lia.
    rewrite (continuation_true (N_of_ascii c1)) by lia.
    rewrite (continuation_true (N_of_ascii c2)) by lia.
    destruct (N.leb_spec 240 (N_of_ascii c0)); [lia|]. by rewrite IH.
  - apply four_bytes_spec in H0.
    rewrite (continuation_false (N_of_ascii c0)) by lia.
    rewrite (continuation_true (N_of_ascii c1)) by lia.
    rewrite (continuation_true (N_of_ascii c2)) by lia.
    rewrite (continuation_true (N_of_ascii c3)) by lia.
    destruct (N.leb_spec 240 (N_of_ascii c0)); [|lia]. by rewrite IH.
Qed.

Lemma length_units_code_units s u :
  code_units s = Some u → length_units s = length u.
Proof. intros H%code_units_utf8. by apply length_units_utf8. Qed.

Lemma rankN_low b : (b < 238)%N → rankN b = b.
Proof. unfold rankN. intros ->%N.ltb_lt. done. Qed.

Lemma rankN_mid b : (238 ≤ b < 240)%N → rankN b = (b + 16)%N.
Proof.
  unfold rankN. intros [H1 H2].
  destruct (N.ltb_spec b 238); [lia|]. by apply N.ltb_lt in H2 as ->.
Qed.

Lemma rankN_high b : (240 ≤ b)%N → rankN b = (b - 2)%N.
Proof.
  unfold rankN. intros H.
  destruct (N.ltb_spec b 238); [lia|]. destruct (N.ltb_spec b 240); [lia|done].
Qed.

(** The bands: where the rank of the first byte of a character and its first
    code unit lie, for each length of the character. The bands come in the
    same order on both sides. *)
Lemma band_1 b0 : (b0 < 128)%N → (rankN b0 < 128 ∧ b0 < 128)%N.
Proof. intros H. rewrite rankN_low; lia. Qed.

Lemma band_2 b0 b1 :
  two_bytes b0 b1 →
  (194 ≤ rankN b0 < 224 ∧ 128 ≤ unit2 b0 b1 < 2048)%N.
Proof.
  intros H%two_bytes_spec. rewrite rankN_low by lia. unfold unit2. lia.
Qed.

Lemma band_3 b0 b1 b2 :
  three_bytes b0 b1 b2 →
  (224 ≤ rankN b0 < 238 ∧ 2048 ≤ unit3 b0 b1 b2 < 55296)%N
  ∨ (254 ≤ rankN b0 < 256 ∧ 57344 ≤ unit3 b0 b1 b2 < 65536)%N.
Proof.
  intros H%three_bytes_spec. unfold unit3.
  destruct (N.lt_ge_cases b0 238).
  - left. rewrite rankN_low by lia. lia.
  - right. rewrite rankN_mid by lia. lia.
Qed.

Lemma scalar4_bounds b0 b1 b2 b3 :
  four_bytes b0 b1 b2 b3 → (65536 ≤ scalar4 b0 b1 b2 b3 < 1114112)%N.
Proof. intros H%four_bytes_spec. unfold scalar4. lia. Qed.

Lemma band_4 b0 b1 b2 b3 :
  four_bytes b0 b1 b2 b3 →
  (238 ≤ rankN b0 < 243
   ∧ 55296 ≤ high_surrogate (scalar4 b0 b1 b2 b3) < 56320)%N.
Proof.
  intros H. pose proof (scalar4_bounds _ _ _ _ H) as Hs.
  apply four_bytes_spec in H. rewrite rankN_high by lia.
  unfold high_surrogate. generalize dependent (scalar4 b0 b1 b2 b3).
  intros x Hx. split; [lia|]. split; [apply N.le_add_r|].
  assert ((x - 65536) / 1024 < 1024)%N; [|lia].
  apply N.Div0.div_lt_upper_bound. lia.
Qed.

Lemma decided (x y x' y' : N) (R R' : comparison) :
  (x < y ∧ x' < y')%N ∨ (y < x ∧ y' < x')%N →
  match (x ?= y)%N with Eq => R | r => r end
  = match (x' ?= y')%N with Eq => R' | r => r end.
Proof.
  intros [[H1 H2]|[H1 H2]].
  - by rewrite (proj2 (N.compare_lt_iff _ _) H1),
      (proj2 (N.compare_lt_iff _ _) H2).
  - by rewrite (proj2 (N.compare_gt_iff _ _) H1),
      (proj2 (N.compare_gt_iff _ _) H2).
Qed.

Lemma lex_2 b0 b1 d0 d1 (R : comparison) :
  two_bytes b0 b1 → two_bytes d0 d1 →
  match (rankN b0 ?= rankN d0)%N with
  | Eq => match (rankN b1 ?= rankN d1)%N with Eq => R | r => r end
  | r => r
  end
  = match (unit2 b0 b1 ?= unit2 d0 d1)%N with Eq => R | r => r end.
Proof.
  intros Hb%two_bytes_spec Hd%two_bytes_spec. unfold unit2.
  rewrite !rankN_low by lia.
  destruct (N.compare_spec b0 d0) as [->| |];
    [destruct (N.compare_spec b1 d1) as [->| |]|..].
  - by rewrite N.compare_refl.
  - by rewrite (proj2 (N.compare_lt_iff _ _)) by lia.
  - by rewrite (proj2 (N.compare_gt_iff _ _)) by lia.
  - by rewrite (proj2 (N.compare_lt_iff _ _)) by lia.
  - by rewrite (proj2 (N.compare_gt_iff _ _)) by lia.
Qed.

Lemma rankN_compare_3 b d :
  (224 ≤ b < 240)%N → (224 ≤ d < 240)%N →
  (rankN b ?= rankN d)%N = (b ?= d)%N.
Proof.
  intros Hb Hd.
  destruct (N.lt_ge_cases b 238), (N.lt_ge_cases d 238);
    rewrite ?(rankN_low b), ?(rankN_low d), ?(rankN_mid b), ?(rankN_mid d)
      by lia; try done.
  - rewrite (proj2 (N.compare_lt_iff b (d + 16))) by lia.
    symmetry. apply N.compare_lt_iff. lia.
  - rewrite (proj2 (N.compare_gt_iff (b + 16) d)) by lia.
    symmetry. apply N.compare_gt_iff. lia.
  - destruct (N.compare_spec b d) as [->| |].
    + apply N.compare_refl.
    + apply N.compare_lt_iff. lia.
    + apply N.compare_gt_iff. lia.
Qed.

Lemma lex_3 b0 b1 b2 d0 d1 d2 (R : comparison) :
  three_bytes b0 b1 b2 → three_bytes d0 d1 d2 →
  match (rankN b0 ?= rankN d0)%N with
  | Eq => match (rankN b1 ?= rankN d1)%N with
          | Eq => match (rankN b2 ?= rankN d2)%N with Eq => R | r => r end
          | r => r
          end
  | r => r
  end
  = match (unit3 b0 b1 b2 ?= unit3 d0 d1 d2)%N with Eq => R | r => r end.
Proof.
  intros Hb%three_bytes_spec Hd%three_bytes_spec. unfold unit3.
  rewrite rankN_compare_3 by lia.
  rewrite !(rankN_low b1), !(rankN_low d1), !(rankN_low b2), !(rankN_low d2)
    by lia.
  destruct Hb as (Hb0 & Hb1 & Hb2 & _), Hd as (Hd0 & Hd1 & Hd2 & _).
  destruct (N.compare_spec b0 d0) as [->| |];
    [destruct (N.compare_spec b1 d1) as [->| |];
     [destruct (N.compare_spec b2 d2) as [->| |]|..]|..].
  - by rewrite N.compare_refl.
  - by rewrite (proj2 (N.compare_lt_iff _ _)) by lia.
  - by rewrite (proj2 (N.compare_gt_iff _ _)) by lia.
  - by rewrite (proj2 (N.compare_lt_iff _ _)) by lia.
  - by rewrite (proj2 (N.compare_gt_iff _ _)) by lia.
  - by rewrite (proj2 (N.compare_lt_iff _ _)) by lia.
  - by rewrite (proj2 (N.compare_gt_iff _ _)) by lia.
Qed.

Lemma surrogates_compare x y (R : comparison) :
  (65536 ≤ x)%N → (65536 ≤ y)%N →
  match (high_surrogate x ?= high_surrogate y)%N with
  | Eq => match (low_surrogate x ?= low_surrogate y)%N with
          | Eq => R
          | r => r
          end
  | r => r
  end
  = match (x ?= y)%N with Eq => R | r => r end.
Proof.
  intros Hx Hy. unfold high_surrogate, low_surrogate.
  pose proof (N.Div0.div_mod (x - 65536) 1024) as Ex.
  pose proof (N.Div0.div_mod (y - 65536) 1024) as Ey.
  pose proof (N.mod_upper_bound (x - 65536) 1024) as Bx.
  pose proof (N.mod_upper_bound (y - 65536) 1024) as By.
  generalize dependent ((x - 65536) / 1024)%N.
  generalize dependent ((y - 65536) / 1024)%N.
  generalize dependent ((x - 65536) mod 1024)%N.
  generalize dependent ((y - 65536) mod 1024)%N.
  intros ry By rx Bx qy Ey qx Ex.
  specialize (Bx ltac:(done)). specialize (By ltac:(done)).
  destruct (N.compare_spec (55296 + qx) (55296 + qy));
    [destruct (N.compare_spec (56320 + rx) (56320 + ry))|..].
  - by rewrite (proj2 (N.compare_eq_iff x y)) by lia.
  - by rewrite (proj2 (N.compare_lt_iff x y)) by lia.
  - by rewrite (proj2 (N.compare_gt_iff x y)) by lia.
  - by rewrite (proj2 (N.compare_lt_iff x y)) by lia.
  - by rewrite (proj2 (N.compare_gt_iff x y)) by lia.
Qed.

Lemma lex_4 b0 b1 b2 b3 d0 d1 d2 d3 (R : comparison) :
  four_bytes b0 b1 b2 b3 → four_bytes d0 d1 d2 d3 →
  match (rankN b0 ?= rankN d0)%N with
  | Eq =>
      match (rankN b1 ?= rankN d1)%N with
      | Eq =>
          match (rankN b2 ?= rankN d2)%N with
          | Eq => match (rankN b3 ?= rankN d3)%N with Eq => R | r => r end
          | r => r
          end
      | r => r
      end
  | r => r
  end
  = match (high_surrogate (scalar4 b0 b1 b2 b3)
           ?= high_surrogate (scalar4 d0 d1 d2 d3))%N with
    | Eq => match (low_surrogate (scalar4 b0 b1 b2 b3)
                   ?= low_surrogate (scalar4 d0 d1 d2 d3))%N with
            | Eq => R
            | r => r
            end
    | r => r
    end.
Proof.
  intros Hb Hd.
  rewrite surrogates_compare by by apply scalar4_bounds.
  apply four_bytes_spec in Hb as (Hb0 & Hb1 & Hb2 & Hb3 & _).
  apply four_bytes_spec in Hd as (Hd0 & Hd1 & Hd2 & Hd3 & _).
  unfold scalar4.
  rewrite (rankN_high b0), (rankN_high d0) by lia.
  rewrite !(rankN_low b1), !(rankN_low d1), !(rankN_low b2), !(rankN_low d2),
    !(rankN_low b3), !(rankN_low d3) by lia.
  destruct (N.compare_spec (b0 - 2) (d0 - 2)) as [E0| |];
    [assert (b0 = d0) as -> by lia; clear E0;
     destruct (N.compare_spec b1 d1) as [->| |];
     [destruct (N.compare_spec b2 d2) as [->| |];
      [destruct (N.compare_spec b3 d3) as [->| |]|..]|..]|..].
  - by rewrite N.compare_refl.
  - by rewrite (proj2 (N.compare_lt_iff _ _)) by lia.
  - by rewrite (proj2 (N.compare_gt_iff _ _)) by lia.
  - by rewrite (proj2 (N.compare_lt_iff _ _)) by lia.
  - by rewrite (proj2 (N.compare_gt_iff _ _)) by lia.
  - by rewrite (proj2 (N.compare_lt_iff _ _)) by lia.
  - by rewrite (proj2 (N.compare_gt_iff _ _)) by lia.
  - by rewrite (proj2 (N.compare_lt_iff _ _)) by lia.
  - by rewrite (proj2 (N.compare_gt_iff _ _)) by lia.
Qed.

Ltac bands :=
  repeat match goal with
         | H : (N_of_ascii _ < 128)%N |- _ => apply band_1 in H
         | H : Is_true (two_bytes _ _) |- _ => apply band_2 in H
         | H : Is_true (three_bytes _ _ _) |- _ => apply band_3 in H
         | H : Is_true (four_bytes _ _ _ _) |- _ => apply band_4 in H
         end.

(** The bytes under [unit_rank] compare as the code units do. *)
Lemma unit_ranks_compare a u :
  utf8 a u → ∀ b v, utf8 b v →
  String.compare (unit_ranks a) (unit_ranks b) = units_compare u v.
Proof.
  induction 1 as [|c0 s u H0 Hs IH|c0 c1 s u H0 Hs IH
                  |c0 c1 c2 s u H0 Hs IH|c0 c1 c2 c3 s u H0 Hs IH];
    intros b v Hb; inversion Hb as [|d0 t w G0 Ht|d0 d1 t w G0 Ht
                                    |d0 d1 d2 t w G0 Ht|d0 d1 d2 d3 t w G0 Ht];
    subst; clear Hb; cbn [unit_ranks units_compare]; try done;
    rewrite ?string_compare_cons, ?N_of_unit_rank.
  all: try (rewrite (IH _ _ Ht)).
  all: first
    [ by rewrite (rankN_low (N_of_ascii c0)), (rankN_low (N_of_ascii d0)) by lia
    | by apply lex_2
    | by apply lex_3
    | by apply lex_4
    | bands; apply decided; lia ].
Qed.

Lemma string_leb_compare a b :
  String.leb a b = match String.compare a b with Gt => false | _ => true end.
Proof. done. Qed.

(** [path_le] is the order of the code units. *)
Theorem path_le_code_units a b u v :
  code_units a = Some u → code_units b = Some v →
  path_le a b ↔ units_le u v.
Proof.
  intros Ha%code_units_utf8 Hb%code_units_utf8.
  unfold path_le, units_le.
  by rewrite string_leb_compare, (unit_ranks_compare _ _ Ha _ _ Hb).
Qed.

(** ** The order of [sort] is a total order *)

Global Instance path_le_dec : RelDecision path_le.
Proof. intros a b. unfold path_le. apply _. Defined.

Global Instance path_le_total : Total path_le.
Proof.
  intros a b. unfold path_le.
  destruct (String.leb_total (unit_ranks a) (unit_ranks b)) as [->| ->];
    [by left|by right].
Qed.

Global Instance path_le_refl : Reflexive path_le.
Proof. intros a. apply string_leb_refl. Qed.

Global Instance path_le_trans : Transitive path_le.
Proof. intros a b c. apply string_leb_trans. Qed.

Global Instance path_le_antisym : AntiSymm (=) path_le.
Proof.
  intros a b Hab Hba. apply unit_ranks_inj, String.leb_antisym;
    by apply Is_true_true.
Qed.

Lemma sort_Permutation paths : sort paths ≡ₚ paths.
Proof. apply merge_sort_Permutation. Qed.

Lemma sort_StronglySorted paths : StronglySorted path_le (sort paths).
Proof. apply StronglySorted_merge_sort; apply _. Qed.

Lemma elem_of_sort x paths : x ∈ sort paths ↔ x ∈ paths.
Proof. by rewrite sort_Permutation. Qed.

(** [sort] is the only way to put a list in order: whatever algorithm the
    host uses returns this list. *)
Lemma sort_unique paths l :
  l ≡ₚ paths → Sorted path_le l → l = sort paths.
Proof.
  intros Hp Hs. apply (Sorted_unique path_le); [done| |].
  - apply Sorted_merge_sort, _.
  - by rewrite Hp, sort_Permutation.
Qed.

Lemma StronglySorted_filter {A} (R : relation A) (P : A → Prop)
    `{!∀ x, Decision (P x)} (l : list A) :
  StronglySorted R l → StronglySorted R (filter P l).
Proof.
  induction 1 as [|x l Hl IH Hx]; [constructor|].
  rewrite filter_cons. case_decide; [|done].
  constructor; [done|]. rewrite Forall_forall in Hx |- *.
  intros y [_ Hy]%list_elem_of_filter. auto.
Qed.

(** ** The partition (lines 87-89) *)

Lemma partition3_sets (s1 s2 : list string) :
  let S1 : gset string := list_to_set s1 in
  let S2 : gset string := list_to_set s2 in
  let rel := partition3 s1 s2 in
  list_to_set (inBoth rel) = S1 ∩ S2 ∧
  list_to_set (onlyInFirst rel) = S1 ∖ S2 ∧
  list_to_set (onlyInSecond rel) = S2 ∖ S1 ∧
  list_to_set (onlyInFirst rel) ∪ list_to_set (inBoth rel) = S1 ∧
  list_to_set (onlyInSecond rel) ∪ list_to_set (inBoth rel) = S2.
Proof.
  simpl. split_and!; apply set_eq; intros x;
    rewrite ?elem_of_union, ?elem_of_intersection, ?elem_of_difference,
      ?elem_of_list_to_set, ?list_elem_of_filter;
    destruct (decide (x ∈ s1)), (decide (x ∈ s2)); tauto.
Qed.

Lemma list_to_set_sort (paths : list string) :
  list_to_set (sort paths) =@{gset string} list_to_set paths.
Proof.
  apply set_eq. intros x. by rewrite !elem_of_list_to_set, elem_of_sort.
Qed.

(** ** Induction on trees *)

Lemma node_ind' (P : node → Prop) :
  P File →
  (∀ entries, Forall (λ e, P e.2) entries → P (Dir entries)) →
  (∀ code, P (Unlistable code)) →
  (∀ code, P (Unstatable code)) →
  ∀ n, P n.
Proof.
  intros HFile HDir HUnl HUns. fix IH 1. intros [|entries|code|code].
  - exact HFile.
  - apply HDir.
    refine ((fix go (es : list (string * node)) : Forall (λ e, P e.2) es :=
               match es with
               | [] => List.Forall_nil _
               | e :: es' => List.Forall_cons _ e es' (IH e.2) (go es')
               end) entries).
  - apply HUnl.
  - apply HUns.
Qed.

(** ** RegExp objects without flags *)

Lemma test_plain r s :
  plain r → test r s = (bool_decide (is_Some (exec r s 0)), r).
Proof. intros [Hg Hs]. unfold test. by rewrite Hg, Hs. Qed.

Lemma flagless_lookup h l r : flagless h l → h !! l = Some r → plain r.
Proof.
  unfold flagless, plain. intros H Hr. rewrite Hr in H.
  by destruct (global r), (sticky r).
Qed.

Lemma RegExp_test_flagless h l s :
  flagless h l → RegExp_test l s h = (Ok (matches_at h s l), h, []).
Proof.
  intros Hl. unfold RegExp_test, matches_at.
  destruct (h !! l) as [r|] eqn:Hr; [|done].
  rewrite (test_plain r s (flagless_lookup _ _ _ Hl Hr)).
  by rewrite list_insert_id.
Qed.

Lemma some_test_flagless h patterns s :
  Forall (λ l, flagless h l) patterns →
  some_test patterns s h = (Ok (matches h patterns s), h, []).
Proof.
  induction 1 as [|l rest Hl Hrest IH]; [done|].
  simpl. rewrite (bind_Ok _ _ _ _ _ _ (RegExp_test_flagless h l s Hl)).
  destruct (matches_at h s l); [done|]. by rewrite IH.
Qed.

Lemma grown_refl h : grown h h.
Proof. exists []. by rewrite app_nil_r. Qed.

Lemma grown_trans h1 h2 h3 : grown h1 h2 → grown h2 h3 → grown h1 h3.
Proof.
  intros (f1 & -> & H1) (f2 & -> & H2). exists (f1 ++ f2).
  split; [by rewrite app_assoc|by apply Forall_app].
Qed.

Lemma flagless_grown h h' l : grown h h' → flagless h l → flagless h' l.
Proof.
  intros (fresh & -> & Hf). unfold flagless.
  destruct (h !! l) as [r|] eqn:Hr.
  - by rewrite (lookup_app_l_Some _ _ _ _ Hr).
  - intros _. destruct ((h ++ fresh) !! l) as [r|] eqn:Hr'; [|done].
    apply lookup_app_Some in Hr' as [Hr'|[_ Hr']]; [congruence|].
    rewrite Forall_forall in Hf.
    destruct (Hf r (list_elem_of_lookup_2 _ _ _ Hr')) as [-> ->]. done.
Qed.

Lemma stateless_spec h (ignorePatterns : list (string + loc)) :
  stateless h ignorePatterns ↔ ∀ l, inr l ∈ ignorePatterns → flagless h l.
Proof.
  unfold stateless. rewrite forallb_True, Forall_forall. split.
  - intros H l Hl. apply (H _ Hl).
  - intros H [source|l] Hl; [done|by apply H].
Qed.

Lemma bind_ext {A B} (m : M A) (f g : A → M B) h :
  (∀ a h1, f a h1 = g a h1) → bind m f h = bind m g h.
Proof. intros Hfg. unfold bind. destruct (m h) as [[[a|e] h1] t1]; by rewrite ?Hfg. Qed.

(** ** The file-system calls *)

Lemma statSync_eq path n h :
  statSync path n h
  = (match n with
     | File => Ok (mkStats false)
     | Dir _ | Unlistable _ => Ok (mkStats true)
     | Unstatable code => Throw (FsError code path)
     end, h, [Stat path]).
Proof. by destruct n. Qed.

Lemma readdirSync_eq path n h :
  readdirSync path n h
  = (match n with
     | Dir entries => Ok entries
     | File => Throw (FsError ENOTDIR path)
     | Unlistable code | Unstatable code => Throw (FsError code path)
     end, h, [Readdir path]).
Proof. by destruct n. Qed.

(** The definitions under names that the sections below do not
    specialise to their host. *)
Local Abbreviation collectEntries_def := collectEntries (only parsing).
Local Abbreviation collectPaths_def := collectPaths (only parsing).
Local Abbreviation compareDirectories_def := compareDirectories (only parsing).
Local Abbreviation relativeDiff_def := relativeDiff (only parsing).
Local Abbreviation rooted_def := rooted (only parsing).
Local Abbreviation snapshots_def := snapshots (only parsing).
Local Abbreviation script_def := script (only parsing).

(** ** The traversal *)

Section Traversal.

Context (join relative : string → string → string).
Context (argument_limit : string → N).

Local Abbreviation collectPaths := (collectPaths join relative argument_limit).
Local Abbreviation collectEntries := (collectEntries join relative
    argument_limit).
Local Abbreviation traversal_flagless := (traversal_flagless join relative
    argument_limit).
Local Abbreviation prune_invisible := (prune_invisible join relative
    argument_limit).

Lemma collectPaths_unfold baseDir currentDir n patterns h :
  collectPaths baseDir currentDir n patterns h
  = (entries <- readdirSync currentDir n ;;
     collectEntries baseDir currentDir patterns entries []) h.
Proof.
  destruct n as [|entries|code|code]; try done.
  cbn [collectPaths_def]. unfold readdirSync, bind, call, ret.
  match goal with
  | |- context [?loop entries [] h] =>
      enough (∀ es paths h1,
        loop es paths h1 = collectEntries baseDir currentDir patterns es paths h1)
        as -> by done
  end.
  induction es as [|[entry child] rest IH]; intros paths h1; [done|].
  simpl. apply bind_ext. intros [] h2; [apply IH|].
  apply bind_ext. intros stats h3. destruct (isDirectory stats); [|apply IH].
  apply bind_ext. intros sub h4. apply bind_ext. intros paths' h5. apply IH.
Qed.

Lemma collectPaths_eq baseDir currentDir n patterns h :
  collectPaths baseDir currentDir n patterns h
  = match n with
    | Dir entries =>
        after [Readdir currentDir]
          (collectEntries baseDir currentDir patterns entries [] h)
    | File => (Throw (FsError ENOTDIR currentDir), h, [Readdir currentDir])
    | Unlistable code | Unstatable code =>
        (Throw (FsError code currentDir), h, [Readdir currentDir])
    end.
Proof.
  rewrite collectPaths_unfold. destruct n; try done.
  by rewrite (bind_Ok _ _ _ _ _ _ (readdirSync_eq _ (Dir _) h)).
Qed.

(** One turn of the loop, by cases on what the entry is. *)
Lemma collectEntries_cons baseDir currentDir patterns entry child rest paths h :
  collectEntries baseDir currentDir patterns ((entry, child) :: rest) paths h
  = let fullPath := join currentDir entry in
    let relativePath := relative baseDir fullPath in
    match some_test patterns relativePath h with
    | (Ok true, h1, t1) =>
        after t1 (collectEntries baseDir currentDir patterns rest paths h1)
    | (Ok false, h1, t1) =>
        after t1
          match child with
          | File =>
              after [Stat fullPath]
                (collectEntries baseDir currentDir patterns rest
                   (paths ++ [relativePath]) h1)
          | Unstatable code =>
              (Throw (FsError code fullPath), h1, [Stat fullPath])
          | Dir _ | Unlistable _ =>
              match collectPaths baseDir fullPath child patterns h1 with
              | (Ok sub, h2, t2) =>
                  if decide (N.of_nat (length sub) ≤ argument_limit fullPath)%N
                  then
                    after (Stat fullPath :: t2)
                      (collectEntries baseDir currentDir patterns rest
                         (paths ++ sub) h2)
                  else (Throw RangeError, h2, Stat fullPath :: t2)
              | (Throw e, h2, t2) => (Throw e, h2, Stat fullPath :: t2)
              end
          end
    | (Throw e, h1, t1) => (Throw e, h1, t1)
    end.
Proof.
  cbn [collectEntries_def]. cbv zeta.
  destruct (some_test patterns _ h) as [[[[]|e] h1] t1] eqn:Htest.
  - by rewrite (bind_Ok _ _ _ _ _ _ Htest).
  - rewrite (bind_Ok _ _ _ _ _ _ Htest). unfold after at 1. f_equal; [f_equal|f_equal].
    all: destruct child as [|sub_entries|code|code].
    all: try by rewrite (bind_Ok _ _ _ _ _ _ (statSync_eq _ File h1)).
    all: try by rewrite (bind_Throw _ _ _ _ _ _ (statSync_eq _ (Unstatable code) h1)).
    all: first [rewrite (bind_Ok _ _ _ _ _ _ (statSync_eq _ (Dir sub_entries) h1))
               |rewrite (bind_Ok _ _ _ _ _ _ (statSync_eq _ (Unlistable code) h1))].
    all: cbn [isDirectory];
      unfold bind, after, value, heap, calls, push_spread, ret, throw.
    all: repeat case_match; simplify_eq/=; rewrite ?app_nil_r; congruence.
  - by rewrite (bind_Throw _ _ _ _ _ _ Htest).
Qed.

(** ** The traversal with patterns that keep no state *)

Lemma collectEntries_cons_flagless baseDir currentDir patterns entry child
    rest paths h :
  Forall (λ l, flagless h l) patterns →
  collectEntries baseDir currentDir patterns ((entry, child) :: rest) paths h
  = let fullPath := join currentDir entry in
    let relativePath := relative baseDir fullPath in
    if matches h patterns relativePath
    then collectEntries baseDir currentDir patterns rest paths h
    else
      match child with
      | File =>
          after [Stat fullPath]
            (collectEntries baseDir currentDir patterns rest
               (paths ++ [relativePath]) h)
      | Unstatable code => (Throw (FsError code fullPath), h, [Stat fullPath])
      | Dir _ | Unlistable _ =>
          match collectPaths baseDir fullPath child patterns h with
          | (Ok sub, h', t) =>
              if decide (N.of_nat (length sub) ≤ argument_limit fullPath)%N
              then
                after (Stat fullPath :: t)
                  (collectEntries baseDir currentDir patterns rest
                     (paths ++ sub) h')
              else (Throw RangeError, h', Stat fullPath :: t)
          | (Throw e, h', t) => (Throw e, h', Stat fullPath :: t)
          end
      end.
Proof.
  intros Hp. rewrite collectEntries_cons. cbv zeta.
  rewrite (some_test_flagless h patterns _ Hp).
  destruct (matches h patterns _); unfold after at 1; cbn [app];
    by rewrite <-outcome_eta.
Qed.

(** A kept path matches no pattern. *)
Lemma kept_not_matched h patterns baseDir currentDir n path :
  kept join relative h patterns baseDir currentDir n path →
  matches h patterns path = false.
Proof. by induction 1. Qed.

Lemma kept_Dir_nil h patterns baseDir currentDir path :
  ¬ kept join relative h patterns baseDir currentDir (Dir []) path.
Proof. inversion 1 as [??? Hin|????? Hin]; by apply elem_of_nil in Hin. Qed.

Lemma kept_Dir_cons h patterns baseDir currentDir entry child rest path :
  kept join relative h patterns baseDir currentDir (Dir ((entry, child) :: rest)) path
  ↔ (matches h patterns (relative baseDir (join currentDir entry)) = false ∧
     ((child = File ∧ path = relative baseDir (join currentDir entry)) ∨
      kept join relative h patterns baseDir (join currentDir entry) child path))
    ∨ kept join relative h patterns baseDir currentDir (Dir rest) path.
Proof.
  split.
  - inversion 1 as [?? e Hin Hm|?? e ch ? Hin Hm Hk]; subst;
      apply elem_of_cons in Hin as [[= <- <-]|Hin].
    + left. split; [done|]. by left.
    + right. by constructor.
    + left. split; [done|]. by right.
    + right. by econstructor.
  - intros [[Hm [[-> ->]|Hk]]|Hk].
    + constructor; [by left|done].
    + econstructor; [by left|done..].
    + inversion Hk as [?? e Hin Hm|?? e ch ? Hin Hm Hk']; subst.
      * constructor; [by right|done].
      * econstructor; [by right|done..].
Qed.

Lemma collectEntries_flagless patterns baseDir currentDir entries paths h :
  Forall (λ e, traversal_flagless patterns e.2) entries →
  Forall (λ l, flagless h l) patterns →
  heap (collectEntries baseDir currentDir patterns entries paths h) = h ∧
  ∀ paths',
    value (collectEntries baseDir currentDir patterns entries paths h)
    = Ok paths' →
    ∀ path, path ∈ paths' ↔
      path ∈ paths ∨
      kept join relative h patterns baseDir currentDir (Dir entries) path.
Proof.
  intros Hentries Hp. revert paths.
  induction Hentries as [|[entry child] rest Hchild _ IH]; intros paths.
  { split; [done|]. intros ? [= <-] path. split; [by left|].
    intros [?|?%kept_Dir_nil]; done. }
  rewrite collectEntries_cons_flagless by done. cbv zeta.
  setoid_rewrite kept_Dir_cons.
  destruct (matches h patterns _) eqn:Hm.
  { destruct (IH paths) as [Hh Hv]. split; [done|].
    intros paths' Hpaths' path. rewrite (Hv _ Hpaths'). split; [tauto|].
    intros [?|[[? _]|?]]; [tauto|done|tauto]. }
  simpl in Hchild.
  destruct (Hchild baseDir (join currentDir entry) h Hp) as [Hh Hv].
  destruct child as [|sub_entries|code|code].
  - destruct (IH (paths ++ [relative baseDir (join currentDir entry)]))
      as [Hh' Hv'].
    split; [done|]. intros paths' Hpaths' path.
    rewrite (Hv' _ Hpaths'), elem_of_app, list_elem_of_singleton.
    split.
    + intros [[?|?]|?]; [tauto| |tauto]. right. left. split; [done|]. by left.
    + intros [?|[[_ [[_ ?]|Hk]]|?]]; [tauto|tauto|inversion Hk|tauto].
  - destruct (collectPaths baseDir (join currentDir entry) (Dir sub_entries)
                patterns h) as [[[sub|e] h'] t'] eqn:Hsub;
      unfold heap, value in Hh, Hv; simpl in Hh, Hv; subst h'; [|done].
    case_decide; [|done].
    destruct (IH (paths ++ sub)) as [Hh' Hv'].
    split; [done|]. intros paths' Hpaths' path.
    rewrite (Hv' _ Hpaths'), elem_of_app, (Hv sub eq_refl path).
    split.
    + intros [[?|?]|?]; [tauto| |tauto]. right. left. split; [done|]. by right.
    + intros [?|[[_ [[[=] _]|?]]|?]]; tauto.
  - by rewrite collectPaths_eq.
  - done.
Qed.

Lemma collectPaths_flagless patterns n : traversal_flagless patterns n.
Proof.
  induction n as [|entries IH|code|code] using node_ind';
    intros baseDir currentDir h Hp; rewrite collectPaths_eq; try done.
  destruct (collectEntries_flagless patterns baseDir currentDir entries [] h IH Hp)
    as [Hh Hv].
  split; [done|]. intros paths Hpaths path.
  rewrite (Hv _ Hpaths). split; [intros [?%elem_of_nil|?]|]; tauto.
Qed.

(** ** Pruned trees *)

Lemma prune_Dir h patterns baseDir currentDir entries :
  prune join relative h patterns baseDir currentDir (Dir entries)
  = Dir (pruneEntries join relative h patterns baseDir currentDir entries).
Proof.
  cbn [prune]. f_equal.
  induction entries as [|[entry child] rest IH]; [done|].
  cbn [pruneEntries]. cbv zeta. by rewrite <-IH.
Qed.

Lemma collectEntries_prune patterns baseDir currentDir entries paths h :
  Forall (λ e, prune_invisible patterns e.2) entries →
  Forall (λ l, flagless h l) patterns →
  collectEntries baseDir currentDir patterns
    (pruneEntries join relative h patterns baseDir currentDir entries) paths h
  = collectEntries baseDir currentDir patterns entries paths h.
Proof.
  intros Hentries Hp. revert paths.
  induction Hentries as [|[entry child] rest Hchild _ IH]; intros paths; [done|].
  rewrite (collectEntries_cons_flagless _ _ _ _ _ rest) by done.
  cbn [pruneEntries]. cbv zeta.
  destruct (matches h patterns _) eqn:Hm; [done|].
  rewrite collectEntries_cons_flagless by done. cbv zeta. rewrite Hm.
  simpl in Hchild. specialize (Hchild baseDir (join currentDir entry) h Hp).
  destruct (collectPaths_flagless patterns child baseDir
              (join currentDir entry) h Hp) as [Hh _].
  destruct child as [|sub_entries|code|code]; [cbn [prune]| |done..].
  - by rewrite IH.
  - rewrite prune_Dir in Hchild |- *. cbv beta match. rewrite Hchild.
    destruct (collectPaths _ _ (Dir sub_entries) _ _) as [[[sub|e] h'] t'];
      [|done].
    unfold heap in Hh. simpl in Hh. subst h'. by rewrite IH.
Qed.

Lemma collectPaths_prune patterns n : prune_invisible patterns n.
Proof.
  induction n as [|entries IH|code|code] using node_ind';
    intros baseDir currentDir h Hp; try done.
  rewrite prune_Dir, !collectPaths_eq. by rewrite collectEntries_prune.
Qed.

(** A traversal that starts with patterns without flags ends with the store
    it started with. *)
Lemma collectPaths_heap baseDir currentDir n patterns h r h' t :
  Forall (λ l, flagless h l) patterns →
  collectPaths baseDir currentDir n patterns h = (r, h', t) → h' = h.
Proof.
  intros Hp Hc.
  destruct (collectPaths_flagless patterns n baseDir currentDir
              h Hp) as [Hh _].
  by rewrite Hc in Hh.
Qed.

Lemma collectPaths_kept baseDir currentDir n patterns h paths h' t :
  Forall (λ l, flagless h l) patterns →
  collectPaths baseDir currentDir n patterns h = (Ok paths, h', t) →
  ∀ path, path ∈ paths ↔
    kept join relative h patterns baseDir currentDir n path.
Proof.
  intros Hp Hc.
  destruct (collectPaths_flagless patterns n baseDir currentDir
              h Hp) as [_ Hv].
  apply Hv. by rewrite Hc.
Qed.

(** ** Failures *)

Lemma collectEntries_app baseDir currentDir patterns before rest paths h :
  collectEntries baseDir currentDir patterns (before ++ rest) paths h
  = (paths' <- collectEntries baseDir currentDir patterns before paths ;;
     collectEntries baseDir currentDir patterns rest paths') h.
Proof.
  revert paths h.
  induction before as [|[entry child] before IH]; intros paths h.
  { unfold bind. simpl. by destruct (collectEntries _ _ _ rest paths h) as [[??]?]. }
  cbn [app collectEntries_def]. cbv zeta. unfold bind.
  destruct (some_test patterns _ h) as [[[[]|e] h1] t1]; [..|done].
  { rewrite IH. unfold bind.
    repeat case_match; simplify_eq/=; by rewrite ?app_assoc. }
  destruct (statSync _ child h1) as [[[stats|e] h2] t2]; [|done].
  destruct (isDirectory stats).
  - destruct (collectPaths _ _ child _ h2) as [[[sub|e] h3] t3]; [|done].
    unfold push_spread. case_decide; [|done]. simpl. rewrite IH. unfold bind.
    repeat case_match; simplify_eq/=; by rewrite ?app_assoc.
  - rewrite IH. unfold bind.
    repeat case_match; simplify_eq/=; by rewrite ?app_assoc.
Qed.

(** A traversal that fails throws the error of the failing call. *)
Lemma collectPaths_fails baseDir patterns currentDir n h e :
  fails join relative argument_limit baseDir patterns currentDir n h e →
  value (collectPaths baseDir currentDir n patterns h) = Throw e.
Proof.
  induction 1 as [currentDir n h e Hlist
                 |currentDir before entry child rest h paths h1 t1 h2 t2 e
                    Hbefore Htest Hstat
                 |currentDir before entry child rest h paths h1 t1 h2 t2 e
                    Hbefore Htest Hstat _ IH].
  - rewrite readdirSync_eq in Hlist. rewrite collectPaths_eq.
    by destruct n; simplify_eq/=.
  - rewrite collectPaths_eq, collectEntries_app, (bind_Ok _ _ _ _ _ _ Hbefore).
    rewrite collectEntries_cons. cbv zeta. rewrite Htest.
    rewrite statSync_eq in Hstat. by destruct child; simplify_eq/=.
  - rewrite collectPaths_eq, collectEntries_app, (bind_Ok _ _ _ _ _ _ Hbefore).
    rewrite collectEntries_cons. cbv zeta. rewrite Htest.
    rewrite statSync_eq in Hstat.
    destruct (collectPaths baseDir (join currentDir entry) child patterns h2)
      as [[[sub|e'] h4] t4] eqn:Hsub; simpl in IH; [done|].
    injection IH as ->. destruct child; simpl in Hstat; try done;
      by rewrite Hsub.
Qed.

(** The loop adds to the array it is given. *)
Lemma collectEntries_acc baseDir currentDir patterns entries paths h :
  collectEntries baseDir currentDir patterns entries paths h
  = match collectEntries baseDir currentDir patterns entries [] h with
    | (Ok found, h', t) => (Ok (paths ++ found), h', t)
    | (Throw e, h', t) => (Throw e, h', t)
    end.
Proof.
  revert paths h.
  induction entries as [|[entry child] rest IH]; intros paths h.
  { simpl. unfold ret. by rewrite app_nil_r. }
  rewrite !collectEntries_cons. cbv zeta.
  destruct (some_test patterns _ h) as [[[[]|e] h1] t1]; [| |done].
  { rewrite IH. by destruct (collectEntries _ _ _ rest [] h1) as [[[?|?] ?] ?]. }
  destruct child as [|sub_entries|code|code]; [| | |done].
  - rewrite IH, (IH ([] ++ _)).
    destruct (collectEntries _ _ _ rest [] h1) as [[[?|?] ?] ?]; [|done].
    simpl. by rewrite <-app_assoc.
  - destruct (collectPaths _ _ (Dir sub_entries) _ h1) as [[[sub|e] h2] t2];
      [|done].
    case_decide; [|done]. rewrite IH, (IH ([] ++ _)).
    destruct (collectEntries _ _ _ rest [] h2) as [[[?|?] ?] ?]; [|done].
    simpl. by rewrite <-app_assoc.
  - destruct (collectPaths _ _ (Unlistable code) _ h1) as [[[sub|e] h2] t2];
      [|done].
    case_decide; [|done]. rewrite IH, (IH ([] ++ _)).
    destruct (collectEntries _ _ _ rest [] h2) as [[[?|?] ?] ?]; [|done].
    simpl. by rewrite <-app_assoc.
Qed.

Lemma some_test_Ok patterns s h :
  ∃ b h', some_test patterns s h = (Ok b, h', []).
Proof.
  revert h. induction patterns as [|l rest IH]; intros h; [by eexists _, _|].
  simpl. unfold bind, RegExp_test.
  destruct (h !! l) as [r|].
  - destruct (test r s) as [[] r']; [by eexists _, _|].
    destruct (IH (<[l:=r']> h)) as (b & h' & ->). by eexists _, _.
  - destruct (IH h) as (b & h' & ->). by eexists _, _.
Qed.

(** Conversely, a traversal throws an error other than the RangeError of
    line 62 only when it fails in the sense of [fails]. *)
Lemma collectEntries_Throw baseDir currentDir patterns entries h e :
  Forall (λ x, ∀ currentDir h e,
            value (collectPaths baseDir currentDir x.2 patterns h) = Throw e →
            e ≠ RangeError →
            fails join relative argument_limit baseDir patterns currentDir x.2
                h e)
    entries →
  e ≠ RangeError →
  value (collectEntries baseDir currentDir patterns entries [] h) = Throw e →
  ∃ before entry child rest paths h1 t1 h2 t2,
    entries = before ++ (entry, child) :: rest ∧
    collectEntries baseDir currentDir patterns before [] h = (Ok paths, h1, t1) ∧
    some_test patterns (relative baseDir (join currentDir entry)) h1
      = (Ok false, h2, t2) ∧
    (value (statSync (join currentDir entry) child h2) = Throw e ∨
     value (statSync (join currentDir entry) child h2) = Ok (mkStats true) ∧
     fails join relative argument_limit baseDir patterns
         (join currentDir entry) child h2 e).
Proof.
  intros Hentries Hne. revert h.
  induction Hentries as [|[entry child] rest Hchild _ IH]; intros h; [done|].
  rewrite collectEntries_cons. cbv zeta. simpl in Hchild.
  destruct (some_test_Ok patterns (relative baseDir (join currentDir entry)) h)
    as (ignored & h1 & Htest).
  rewrite Htest.
  assert (∀ found h2 t2,
    (∀ paths', collectEntries baseDir currentDir patterns
                 ((entry, child) :: paths') [] h
               = match collectEntries baseDir currentDir patterns paths' [] h2 with
                 | (Ok more, h3, t3) => (Ok (found ++ more), h3, t2 ++ t3)
                 | (Throw e, h3, t3) => (Throw e, h3, t2 ++ t3)
                 end) →
    value (collectEntries baseDir currentDir patterns rest [] h2) = Throw e →
    ∃ before entry0 child0 rest0 paths h1 t1 h2 t2,
      (entry, child) :: rest = before ++ (entry0, child0) :: rest0 ∧
      collectEntries baseDir currentDir patterns before [] h = (Ok paths, h1, t1) ∧
      some_test patterns (relative baseDir (join currentDir entry0)) h1
        = (Ok false, h2, t2) ∧
      (value (statSync (join currentDir entry0) child0 h2) = Throw e ∨
       value (statSync (join currentDir entry0) child0 h2) = Ok (mkStats true) ∧
       fails join relative argument_limit baseDir patterns
           (join currentDir entry0) child0 h2 e))
    as Hnext.
  { intros found h2 t2 Hstep Hrest.
    destruct (IH h2 Hrest)
      as (before & entry0 & child0 & rest0 & paths & h3 & t3 & h4 & t4
          & -> & Hbefore & Htest0 & Hfail).
    exists ((entry, child) :: before), entry0, child0, rest0, (found ++ paths),
      h3, (t2 ++ t3), h4, t4.
    split_and!; [done| |done..]. by rewrite Hstep, Hbefore. }
  destruct ignored.
  { intros Hrest. apply (Hnext [] h1 []); [|done].
    intros paths'. rewrite collectEntries_cons. cbv zeta. rewrite Htest.
    by destruct (collectEntries _ _ _ paths' [] h1) as [[[?|?] ?] ?]. }
  assert (∀ e', value (collectPaths baseDir (join currentDir entry) child
                         patterns h1) = Throw e' →
            e' ≠ RangeError →
            isDirectory_of child = true →
            ∃ before entry0 child0 rest0 paths h1 t1 h2 t2,
              (entry, child) :: rest = before ++ (entry0, child0) :: rest0 ∧
              collectEntries baseDir currentDir patterns before [] h
                = (Ok paths, h1, t1) ∧
              some_test patterns (relative baseDir (join currentDir entry0)) h1
                = (Ok false, h2, t2) ∧
              (value (statSync (join currentDir entry0) child0 h2) = Throw e' ∨
               value (statSync (join currentDir entry0) child0 h2)
                 = Ok (mkStats true) ∧
               fails join relative argument_limit baseDir patterns
                   (join currentDir entry0)
                 child0 h2 e')) as Hbelow.
  { intros e' He' Hne' Hdir.
    exists [], entry, child, rest, [], h, [], h1, [].
    split_and!; [done..|]. right. split; [|by apply Hchild].
    rewrite statSync_eq. by destruct child. }
  destruct child as [|sub_entries|code|code].
  - intros Hrest. simpl in Hrest. rewrite collectEntries_acc in Hrest.
    apply (Hnext [relative baseDir (join currentDir entry)] h1
             [Stat (join currentDir entry)]).
    + intros paths'. rewrite collectEntries_cons. cbv zeta. rewrite Htest.
      rewrite collectEntries_acc.
      by destruct (collectEntries _ _ _ paths' [] h1) as [[[?|?] ?] ?].
    + by destruct (collectEntries _ _ _ rest [] h1) as [[[?|?] ?] ?].
  - destruct (collectPaths _ _ (Dir sub_entries) _ h1)
      as [[[sub|e'] h2] t2] eqn:Hsub.
    + case_decide as Hfits; [|simpl; by intros [= <-]].
      intros Hrest. simpl in Hrest. rewrite collectEntries_acc in Hrest.
      apply (Hnext sub h2 (Stat (join currentDir entry) :: t2)).
      * intros paths'. rewrite collectEntries_cons. cbv zeta.
        rewrite Htest, Hsub, decide_True, collectEntries_acc by done.
        by destruct (collectEntries _ _ _ paths' [] h2) as [[[?|?] ?] ?].
      * by destruct (collectEntries _ _ _ rest [] h2) as [[[?|?] ?] ?].
    + simpl. intros [= ->]. by apply Hbelow.
  - rewrite collectPaths_eq. simpl. intros [= <-].
    apply Hbelow; [|done..]. by rewrite collectPaths_eq.
  - simpl. intros [= <-].
    exists [], entry, (Unstatable code), rest, [], h, [], h1, [].
    split_and!; [done..|]. by left.
Qed.

Lemma collectPaths_Throw baseDir patterns currentDir n h e :
  value (collectPaths baseDir currentDir n patterns h) = Throw e →
  e ≠ RangeError →
  fails join relative argument_limit baseDir patterns currentDir n h e.
Proof.
  revert currentDir h e.
  induction n as [|entries IH|code|code] using node_ind';
    intros currentDir h e; rewrite collectPaths_eq;
    try (simpl; intros [= <-] _; apply fails_list; by rewrite readdirSync_eq).
  intros He Hne. simpl in He.
  destruct (collectEntries_Throw baseDir currentDir patterns entries h e IH
              Hne He)
    as (before & entry & child & rest & paths & h1 & t1 & h2 & t2
        & -> & Hbefore & Htest & [Hstat|[Hstat Hfails]]).
  - by eapply fails_stat.
  - by eapply fails_below.
Qed.

End Traversal.

Section Compile.

Context (regexp_compile : string → option (string → nat → option nat)).

Local Abbreviation toRegExp := (toRegExp regexp_compile).

(** ** Compiling the patterns (lines 80-82) *)

Lemma toRegExp_inv pattern h l h' t :
  toRegExp pattern h = (Ok l, h', t) →
  t = [] ∧ grown h h' ∧ flagless h' l ∨
  t = [] ∧ h' = h ∧ pattern = inr l.
Proof.
  destruct pattern as [source|r]; simpl.
  - unfold RegExp_new. destruct (regexp_compile source) as [e|]; [|done].
    intros [= <- <- <-]. left. split_and!; [done| |].
    + eexists. split; [done|]. by repeat constructor.
    + unfold flagless. by rewrite lookup_app_r, Nat.sub_diag by done.
  - intros [= <- <- <-]. by right.
Qed.

Lemma mapM_toRegExp_inv ignorePatterns h regexPatterns h1 t0 :
  mapM toRegExp ignorePatterns h = (Ok regexPatterns, h1, t0) →
  t0 = [] ∧ grown h h1 ∧
  (stateless h ignorePatterns → Forall (λ l, flagless h1 l) regexPatterns).
Proof.
  revert h regexPatterns h1 t0.
  induction ignorePatterns as [|pattern rest IH]; intros h pats h1 t0; simpl.
  { intros [= <- <- <-]. split_and!; [done|apply grown_refl|by constructor]. }
  intros (l & ha & ta & ? & Ha & H & ->)%bind_Ok_inv.
  apply bind_Ok_inv in H as (ls & hb & tb & ? & Hb & H & ->).
  injection H as <- <- <-.
  destruct (IH _ _ _ _ Hb) as (-> & Hgb & Hfl).
  assert (ta = [] ∧ grown h ha ∧ (stateless h (pattern :: rest) → flagless ha l))
    as (-> & Hga & Hl).
  { destruct (toRegExp_inv _ _ _ _ _ Ha) as [(-> & ? & ?)|(-> & -> & ->)];
      [done|].
    split_and!; [done|apply grown_refl|].
    intros Hs. apply (proj1 (stateless_spec _ _) Hs). by left. }
  split_and!; [done|by eapply grown_trans|]. intros Hs.
  pose proof (proj1 (stateless_spec h (pattern :: rest)) Hs) as Hs'.
  constructor.
  - eapply flagless_grown; eauto.
  - apply Hfl, stateless_spec. intros l' Hl'. eapply flagless_grown; [done|].
    apply Hs'. by right.
Qed.

(** A pattern that does not compile: the first such pattern is thrown, and
    the file system has not been called. *)
Lemma mapM_toRegExp_invalid ignorePatterns source h :
  inl source ∈ ignorePatterns → regexp_compile source = None →
  ∃ source' h',
    inl source' ∈ ignorePatterns ∧ regexp_compile source' = None ∧
    mapM toRegExp ignorePatterns h = (Throw (SyntaxError source'), h', []).
Proof.
  intros Hin Hinvalid. revert h.
  induction ignorePatterns as [|pattern rest IH]; intros h;
    [by apply elem_of_nil in Hin|].
  simpl. destruct (toRegExp pattern h) as [[[l|e] ha] ta] eqn:Ha.
  - assert (ta = []) as -> by (by destruct (toRegExp_inv _ _ _ _ _ Ha) as [(-> & _)|(-> & _)]).
    apply elem_of_cons in Hin as [<-|Hin].
    { simpl in Ha. unfold RegExp_new in Ha. by rewrite Hinvalid in Ha. }
    destruct (IH Hin ha) as (source' & h' & Hin' & Hc' & Hm).
    exists source', h'. split_and!; [by right|done|].
    rewrite (bind_Ok _ _ _ _ _ _ Ha), (bind_Throw _ _ _ _ _ _ Hm). done.
  - destruct pattern as [source0|r]; simpl in Ha; [|done].
    unfold RegExp_new in Ha.
    destruct (regexp_compile source0) eqn:Hc0; [done|].
    injection Ha as <- <- <-. exists source0, h.
    split_and!; [by left|done|]. unfold bind. simpl. unfold RegExp_new.
    by rewrite Hc0.
Qed.

(** [patternsToRegExp] is the same compilation, of strings only. *)
Lemma patternsToRegExp_mapM patterns h :
  patternsToRegExp regexp_compile patterns h
  = mapM toRegExp (inl <$> patterns) h.
Proof.
  unfold patternsToRegExp. revert h.
  induction patterns as [|source rest IH]; intros h; [done|].
  simpl. apply bind_ext. intros l h1. unfold bind. by rewrite IH.
Qed.

Lemma patternsToRegExp_invalid patterns source h :
  source ∈ patterns → regexp_compile source = None →
  ∃ source' h',
    source' ∈ patterns ∧ regexp_compile source' = None ∧
    patternsToRegExp regexp_compile patterns h
    = (Throw (SyntaxError source'), h', []).
Proof.
  intros Hin Hinvalid. rewrite patternsToRegExp_mapM.
  destruct (mapM_toRegExp_invalid (inl <$> patterns) source h)
    as (source' & h' & Hin' & Hc & Hm); [by apply list_elem_of_fmap_2|done|].
  exists source', h'. split_and!; [|done..].
  apply list_elem_of_fmap in Hin' as (x & [= ->] & Hx). done.
Qed.

End Compile.

(** ** The comparison *)

Section Properties.

Context (join relative : string → string → string).
Context (argument_limit : string → N).
Context (regexp_compile : string → option (string → nat → option nat)).
Context (fs : string → node).

Local Abbreviation collectPaths := (collectPaths join relative argument_limit).
Local Abbreviation collectEntries := (collectEntries join relative
    argument_limit).
Local Abbreviation toRegExp := (toRegExp regexp_compile).
Local Abbreviation rooted := (rooted join).
Local Abbreviation snapshots := (snapshots join relative argument_limit
    regexp_compile fs).
Local Abbreviation relativeDiff := (relativeDiff join relative argument_limit
    regexp_compile fs).
Local Abbreviation compareDirectories :=
  (compareDirectories join relative argument_limit regexp_compile fs).

Lemma compareDirectories_snapshots dir1 dir2 ignorePatterns h :
  compareDirectories dir1 dir2 ignorePatterns h
  = (s <- snapshots dir1 dir2 ignorePatterns ;;
     ret (rooted dir1 dir2 (partition3 s.1 s.2))) h.
Proof.
  unfold compareDirectories_def, snapshots_def, bind, ret.
  repeat case_match; simplify_eq/=; by rewrite ?app_nil_r, ?app_assoc.
Qed.

Lemma compareDirectories_relativeDiff dir1 dir2 ignorePatterns h :
  compareDirectories dir1 dir2 ignorePatterns h
  = (rel <- relativeDiff dir1 dir2 ignorePatterns ;;
     ret (rooted dir1 dir2 rel)) h.
Proof.
  rewrite compareDirectories_snapshots.
  unfold relativeDiff_def, bind, ret.
  repeat case_match; simplify_eq/=; by rewrite ?app_nil_r.
Qed.

Lemma snapshots_inv dir1 dir2 ignorePatterns h s1 s2 h' t :
  snapshots dir1 dir2 ignorePatterns h = (Ok (s1, s2), h', t) →
  ∃ regexPatterns h1 t0 paths1 h2 t1 paths2 t2,
    mapM toRegExp ignorePatterns h = (Ok regexPatterns, h1, t0) ∧
    collectPaths dir1 dir1 (fs dir1) regexPatterns h1 = (Ok paths1, h2, t1) ∧
    collectPaths dir2 dir2 (fs dir2) regexPatterns h2 = (Ok paths2, h', t2) ∧
    s1 = sort paths1 ∧ s2 = sort paths2 ∧ t = t0 ++ t1 ++ t2.
Proof.
  unfold snapshots_def.
  intros (pats & h1 & t0 & ? & Hc & H & ->)%bind_Ok_inv.
  apply bind_Ok_inv in H as (p1 & h2 & t1 & ? & H1 & H & ->).
  apply bind_Ok_inv in H as (p2 & h3 & t2 & ? & H2 & H & ->).
  injection H as <- <- <- <-.
  exists pats, h1, t0, p1, h2, t1, p2, t2. by rewrite app_nil_r.
Qed.

Lemma snapshots_Ok dir1 dir2 ignorePatterns h regexPatterns h1 t0
    paths1 h2 t1 paths2 h3 t2 :
  mapM toRegExp ignorePatterns h = (Ok regexPatterns, h1, t0) →
  collectPaths dir1 dir1 (fs dir1) regexPatterns h1 = (Ok paths1, h2, t1) →
  collectPaths dir2 dir2 (fs dir2) regexPatterns h2 = (Ok paths2, h3, t2) →
  snapshots dir1 dir2 ignorePatterns h
  = (Ok (sort paths1, sort paths2), h3, t0 ++ t1 ++ t2).
Proof.
  intros Hc H1 H2. unfold snapshots_def.
  rewrite (bind_Ok _ _ _ _ _ _ Hc), (bind_Ok _ _ _ _ _ _ H1),
    (bind_Ok _ _ _ _ _ _ H2). simpl. by rewrite app_nil_r.
Qed.

Lemma compareDirectories_inv dir1 dir2 ignorePatterns h d h' t :
  compareDirectories dir1 dir2 ignorePatterns h = (Ok d, h', t) →
  ∃ s1 s2,
    snapshots dir1 dir2 ignorePatterns h = (Ok (s1, s2), h', t) ∧
    relativeDiff dir1 dir2 ignorePatterns h = (Ok (partition3 s1 s2), h', t) ∧
    d = rooted dir1 dir2 (partition3 s1 s2).
Proof.
  rewrite compareDirectories_snapshots.
  intros ([s1 s2] & h1 & t1 & ? & Hs & H & ->)%bind_Ok_inv.
  injection H as <- <- <-. exists s1, s2. rewrite app_nil_r.
  split_and!; [done| |done].
  unfold relativeDiff_def. rewrite (bind_Ok _ _ _ _ _ _ Hs). simpl.
  by rewrite app_nil_r.
Qed.

Lemma compareDirectories_Ok dir1 dir2 ignorePatterns h s1 s2 h' t :
  snapshots dir1 dir2 ignorePatterns h = (Ok (s1, s2), h', t) →
  compareDirectories dir1 dir2 ignorePatterns h
  = (Ok (rooted dir1 dir2 (partition3 s1 s2)), h', t).
Proof.
  intros Hs. rewrite compareDirectories_snapshots, (bind_Ok _ _ _ _ _ _ Hs).
  simpl. by rewrite app_nil_r.
Qed.

Lemma relativeDiff_inv dir1 dir2 ignorePatterns h rel h' t :
  relativeDiff dir1 dir2 ignorePatterns h = (Ok rel, h', t) →
  ∃ s1 s2,
    snapshots dir1 dir2 ignorePatterns h = (Ok (s1, s2), h', t) ∧
    rel = partition3 s1 s2.
Proof.
  unfold relativeDiff_def.
  intros ([s1 s2] & h1 & t1 & ? & Hs & H & ->)%bind_Ok_inv.
  injection H as <- <- <-. exists s1, s2. by rewrite app_nil_r.
Qed.

(** [compareDirectories] returns as soon as the patterns compile and the two
    traversals return. *)
Lemma compareDirectories_returns dir1 dir2 ignorePatterns h regexPatterns h1 t0
    paths1 h2 t1 paths2 h3 t2 :
  mapM toRegExp ignorePatterns h = (Ok regexPatterns, h1, t0) →
  collectPaths dir1 dir1 (fs dir1) regexPatterns h1 = (Ok paths1, h2, t1) →
  collectPaths dir2 dir2 (fs dir2) regexPatterns h2 = (Ok paths2, h3, t2) →
  compareDirectories dir1 dir2 ignorePatterns h
  = (Ok (rooted dir1 dir2 (partition3 (sort paths1) (sort paths2))),
     h3, t0 ++ t1 ++ t2).
Proof.
  intros Hc H1 H2. apply compareDirectories_Ok. by eapply snapshots_Ok.
Qed.

(** C1. The three lists, as sets of root-relative paths, are the
    intersection and the two differences of the sets of paths collected from
    the roots; [onlyInFirst] and [inBoth] together are what was collected from
    [dir1], [onlyInSecond] and [inBoth] together what was collected from
    [dir2]. *)
Theorem compareDirectories_set_semantics dir1 dir2 ignorePatterns h d h' t :
  compareDirectories dir1 dir2 ignorePatterns h = (Ok d, h', t) →
  ∃ regexPatterns h1 t0 paths1 h2 t1 paths2 t2 rel,
    mapM toRegExp ignorePatterns h = (Ok regexPatterns, h1, t0) ∧
    collectPaths dir1 dir1 (fs dir1) regexPatterns h1 = (Ok paths1, h2, t1) ∧
    collectPaths dir2 dir2 (fs dir2) regexPatterns h2 = (Ok paths2, h', t2) ∧
    rel = partition3 (sort paths1) (sort paths2) ∧
    d = rooted dir1 dir2 rel ∧
    let S1 : gset string := list_to_set paths1 in
    let S2 : gset string := list_to_set paths2 in
    list_to_set (sort paths1) = S1 ∧
    list_to_set (sort paths2) = S2 ∧
    list_to_set (inBoth rel) = S1 ∩ S2 ∧
    list_to_set (onlyInFirst rel) = S1 ∖ S2 ∧
    list_to_set (onlyInSecond rel) = S2 ∖ S1 ∧
    list_to_set (onlyInFirst rel) ∪ list_to_set (inBoth rel) = S1 ∧
    list_to_set (onlyInSecond rel) ∪ list_to_set (inBoth rel) = S2.
Proof.
  intros (s1 & s2 & Hs & _ & ->)%compareDirectories_inv.
  apply snapshots_inv in Hs
    as (pats & h1 & t0 & p1 & h2 & t1 & p2 & t2 & Hc & H1 & H2 & -> & -> & ->).
  exists pats, h1, t0, p1, h2, t1, p2, t2, (partition3 (sort p1) (sort p2)).
  split_and!; [done..|].
  cbv zeta. rewrite <-(list_to_set_sort p1), <-(list_to_set_sort p2).
  split_and!; [done|done|apply partition3_sets..].
Qed.

(** C3. Each of the three lists is in ascending order of the root-relative
    paths, the order of [sort]. *)
Theorem compareDirectories_sorted dir1 dir2 ignorePatterns h d h' t :
  compareDirectories dir1 dir2 ignorePatterns h = (Ok d, h', t) →
  ∃ rel,
    relativeDiff dir1 dir2 ignorePatterns h = (Ok rel, h', t) ∧
    d = rooted dir1 dir2 rel ∧
    StronglySorted path_le (onlyInFirst rel) ∧
    StronglySorted path_le (onlyInSecond rel) ∧
    StronglySorted path_le (inBoth rel).
Proof.
  intros (s1 & s2 & Hs & Hr & ->)%compareDirectories_inv.
  apply snapshots_inv in Hs
    as (pats & h1 & t0 & p1 & h2 & t1 & p2 & t2 & _ & _ & _ & -> & -> & _).
  eexists. split_and!; [done|done|..];
    apply StronglySorted_filter, sort_StronglySorted.
Qed.

(** C10. [onlyInFirst] and [inBoth] are the two complementary filters of the
    sorted first snapshot and keep every occurrence of it; [onlyInSecond] is a
    filter of the sorted second snapshot and keeps every occurrence of a path
    that is not in the first. *)
Theorem compareDirectories_multiplicity dir1 dir2 ignorePatterns h d h' t :
  compareDirectories dir1 dir2 ignorePatterns h = (Ok d, h', t) →
  ∃ regexPatterns h1 t0 paths1 h2 t1 paths2 t2 rel,
    mapM toRegExp ignorePatterns h = (Ok regexPatterns, h1, t0) ∧
    collectPaths dir1 dir1 (fs dir1) regexPatterns h1 = (Ok paths1, h2, t1) ∧
    collectPaths dir2 dir2 (fs dir2) regexPatterns h2 = (Ok paths2, h', t2) ∧
    relativeDiff dir1 dir2 ignorePatterns h = (Ok rel, h', t) ∧
    d = rooted dir1 dir2 rel ∧
    onlyInFirst rel = filter (λ path, path ∉ sort paths2) (sort paths1) ∧
    inBoth rel = filter (λ path, ¬ (path ∉ sort paths2)) (sort paths1) ∧
    onlyInSecond rel = filter (λ path, path ∉ sort paths1) (sort paths2) ∧
    length (onlyInFirst d) + length (inBoth d) = length paths1 ∧
    onlyInFirst rel ++ inBoth rel ≡ₚ paths1 ∧
    onlyInFirst rel `sublist_of` sort paths1 ∧
    inBoth rel `sublist_of` sort paths1 ∧
    onlyInSecond rel `sublist_of` sort paths2 ∧
    (∀ path, path ∉ paths1 →
       count_occ String.string_dec (onlyInSecond rel) path
       = count_occ String.string_dec paths2 path).
Proof.
  intros (s1 & s2 & Hs & Hr & ->)%compareDirectories_inv.
  apply snapshots_inv in Hs
    as (pats & h1 & t0 & p1 & h2 & t1 & p2 & t2 & Hc & H1 & H2 & -> & -> & ->).
  exists pats, h1, t0, p1, h2, t1, p2, t2, (partition3 (sort p1) (sort p2)).
  assert (Hin : inBoth (partition3 (sort p1) (sort p2))
                = filter (λ path, ¬ (path ∉ sort p2)) (sort p1)).
  { apply list_filter_iff. intros x. split; [tauto|].
    destruct (decide (x ∈ sort p2)); tauto. }
  assert (Hperm : onlyInFirst (partition3 (sort p1) (sort p2))
                  ++ inBoth (partition3 (sort p1) (sort p2)) ≡ₚ p1).
  { rewrite Hin. cbn [onlyInFirst partition3].
    by rewrite filter_app_complement, sort_Permutation. }
  split_and!; try done.
  - cbn [rooted rooted_def onlyInFirst inBoth].
    rewrite !length_fmap, <-length_app. by rewrite Hperm.
  - apply sublist_filter.
  - apply sublist_filter.
  - apply sublist_filter.
  - intros path Hpath. cbn [onlyInSecond partition3].
    rewrite <-(proj1 (Permutation_count_occ String.string_dec _ _)
                 (sort_Permutation p2) path).
    clear Hr Hin Hperm. induction (sort p2) as [|x l IH]; [done|].
    rewrite filter_cons. case_decide as Hx; simpl.
    + by rewrite IH.
    + destruct (String.string_dec x path) as [->|]; [|done].
      by rewrite elem_of_sort in Hx.
Qed.

(** C6. When a string of the pattern list is not a valid regular
    expression, [compareDirectories] throws the SyntaxError of [new RegExp]
    (for the first such string) without having called the file system, and
    returns no DiffResult. *)
Theorem compareDirectories_invalid_pattern dir1 dir2 ignorePatterns source h :
  inl source ∈ ignorePatterns → regexp_compile source = None →
  ∃ source' h',
    inl source' ∈ ignorePatterns ∧ regexp_compile source' = None ∧
    compareDirectories dir1 dir2 ignorePatterns h
    = (Throw (SyntaxError source'), h', []).
Proof.
  intros Hin Hinvalid.
  destruct (mapM_toRegExp_invalid _ _ _ h Hin Hinvalid)
    as (source' & h' & Hin' & Hc' & Hm).
  exists source', h'. split_and!; [done..|].
  unfold compareDirectories_def. by rewrite (bind_Throw _ _ _ _ _ _ Hm).
Qed.

(** C7. When a traversal comes to a call of [readdirSync] or [statSync] that
    throws, on a root or on an entry that is not ignored, in the first tree or,
    the first one traversed, in the second, the error comes out of
    [compareDirectories] as it was thrown: the comparison returns no
    DiffResult. *)
Theorem compareDirectories_fail_fast dir1 dir2 ignorePatterns h
    regexPatterns h1 t0 e :
  mapM toRegExp ignorePatterns h = (Ok regexPatterns, h1, t0) →
  fails join relative argument_limit dir1 regexPatterns dir1 (fs dir1) h1 e ∨
  (∃ paths1 h2 t1,
     collectPaths dir1 dir1 (fs dir1) regexPatterns h1 = (Ok paths1, h2, t1) ∧
     fails join relative argument_limit dir2 regexPatterns dir2 (fs dir2) h2 e) →
  value (compareDirectories dir1 dir2 ignorePatterns h) = Throw e.
Proof.
  intros Hc Hfails. unfold compareDirectories_def.
  rewrite (bind_Ok _ _ _ _ _ _ Hc). cbn [value].
  destruct Hfails as [Hf|(paths1 & h2 & t1 & H1 & Hf)];
    apply collectPaths_fails in Hf.
  - destruct (collectPaths dir1 dir1 (fs dir1) regexPatterns h1)
      as [[[paths1|e'] h2] t1] eqn:H1; simplify_eq/=.
    by rewrite (bind_Throw _ _ _ _ _ _ H1).
  - rewrite (bind_Ok _ _ _ _ _ _ H1). cbn [value].
    destruct (collectPaths dir2 dir2 (fs dir2) regexPatterns h2)
      as [[[paths2|e'] h3] t2] eqn:H2; simplify_eq/=.
    by rewrite (bind_Throw _ _ _ _ _ _ H2).
Qed.

(** Conversely, [compareDirectories] throws an error other than the
    RangeError of line 62, once the patterns are compiled, only when a
    traversal fails. *)
Lemma compareDirectories_Throw dir1 dir2 ignorePatterns h regexPatterns h1 t0 e :
  mapM toRegExp ignorePatterns h = (Ok regexPatterns, h1, t0) →
  value (compareDirectories dir1 dir2 ignorePatterns h) = Throw e →
  e ≠ RangeError →
  fails join relative argument_limit dir1 regexPatterns dir1 (fs dir1) h1 e ∨
  (∃ paths1 h2 t1,
     collectPaths dir1 dir1 (fs dir1) regexPatterns h1 = (Ok paths1, h2, t1) ∧
     fails join relative argument_limit dir2 regexPatterns dir2 (fs dir2) h2 e).
Proof.
  intros Hc. unfold compareDirectories_def.
  rewrite (bind_Ok _ _ _ _ _ _ Hc). cbn [value].
  destruct (collectPaths dir1 dir1 (fs dir1) regexPatterns h1)
    as [[[paths1|e'] h2] t1] eqn:H1.
  - rewrite (bind_Ok _ _ _ _ _ _ H1). cbn [value].
    destruct (collectPaths dir2 dir2 (fs dir2) regexPatterns h2)
      as [[[paths2|e'] h3] t2] eqn:H2.
    + by rewrite (bind_Ok _ _ _ _ _ _ H2).
    + rewrite (bind_Throw _ _ _ _ _ _ H2). intros [= <-] Hne. right.
      exists paths1, h2, t1. split; [done|].
      apply collectPaths_Throw; [by rewrite H2|done].
  - rewrite (bind_Throw _ _ _ _ _ _ H1). intros [= <-] Hne. left.
    apply collectPaths_Throw; [by rewrite H1|done].
Qed.

End Properties.

(** ** Patterns that keep no state *)

Lemma filter_not_elem_self (l : list string) : filter (λ x, x ∉ l) l = [].
Proof.
  apply elem_of_nil_inv. intros x. rewrite list_elem_of_filter. tauto.
Qed.

Lemma filter_elem_self (l : list string) : filter (λ x, x ∈ l) l = l.
Proof.
  assert (∀ k : list string,
            (∀ x, x ∈ k → x ∈ l) → filter (λ x, x ∈ l) k = k) as H.
  { induction k as [|x k IH]; intros Hk; [done|].
    rewrite filter_cons_True by (apply Hk; by left).
    f_equal. apply IH. intros y Hy. apply Hk. by right. }
  by apply H.
Qed.

Section Stateless.

Context (join relative : string → string → string).
Context (argument_limit : string → N).
Context (regexp_compile : string → option (string → nat → option nat)).

Local Abbreviation collectPaths := (collectPaths join relative argument_limit).
Local Abbreviation toRegExp := (toRegExp regexp_compile).
Local Abbreviation snapshots := (snapshots join relative argument_limit
    regexp_compile).
Local Abbreviation compareDirectories :=
  (compareDirectories join relative argument_limit regexp_compile).

(** X21. When no RegExp object of the pattern list carries [g] or
    [y]: a root-relative path that matches a pattern is in none of the three
    result lists; every path of a list is the path of a kept file of its
    root, one that neither matches itself nor lies below a directory whose
    path matches, whatever the paths below that directory are; and the call
    does the same, and returns the same, on the trees from which the entries
    with a matching path have been removed together with what lies below
    them: it skips them and never descends into them. *)
Theorem ignore_pruning_stateless fs dir1 dir2 ignorePatterns h :
  stateless h ignorePatterns →
  ignore_pruning join relative argument_limit regexp_compile fs dir1 dir2
      ignorePatterns h.
Proof.
  intros Hs pats h1 t0 rel h' t Hc Hrel. cbv zeta.
  apply relativeDiff_inv in Hrel as (s1 & s2 & Hsnap & ->).
  pose proof Hsnap as Hsnap'.
  apply snapshots_inv in Hsnap'
    as (pats' & h1' & t0' & p1 & h2 & t1 & p2 & t2 & Hc' & H1 & H2
        & -> & -> & ->).
  rewrite Hc in Hc'. injection Hc' as <- <- <-.
  destruct (mapM_toRegExp_inv _ _ _ _ _ _ Hc) as (_ & _ & Hp).
  specialize (Hp Hs).
  assert (h2 = h1) as -> by by eapply collectPaths_heap.
  assert (h' = h1) as -> by by eapply collectPaths_heap.
  pose proof (collectPaths_kept _ _ _ _ _ _ _ _ _ _ _ Hp H1) as Hk1.
  pose proof (collectPaths_kept _ _ _ _ _ _ _ _ _ _ _ Hp H2) as Hk2.
  assert (∀ path, path ∈ sort p1 →
            kept join relative h1 pats dir1 dir1 (fs dir1) path) as Hin1.
  { by intros path Hin%elem_of_sort%Hk1. }
  assert (∀ path, path ∈ sort p2 →
            kept join relative h1 pats dir2 dir2 (fs dir2) path) as Hin2.
  { by intros path Hin%elem_of_sort%Hk2. }
  split_and!.
  - by apply compareDirectories_Ok.
  - intros path Hmatch. cbn [partition3 onlyInFirst onlyInSecond inBoth].
    rewrite !list_elem_of_filter.
    split_and!; intros [_ Hin]; [apply Hin1 in Hin|apply Hin2 in Hin
                                |apply Hin1 in Hin];
      apply kept_not_matched in Hin; by rewrite Hin in Hmatch.
  - intros path [[_ Hin]%list_elem_of_filter|[_ Hin]%list_elem_of_filter];
      by apply Hin1.
  - intros path [[_ Hin]%list_elem_of_filter|[Hin _]%list_elem_of_filter];
      by apply Hin2.
  - apply compareDirectories_Ok.
    eapply snapshots_Ok; [exact Hc|..]; cbv beta;
      by rewrite collectPaths_prune.
Qed.

(** X22. When no RegExp object of the pattern list carries [g] or
    [y], and the root can be traversed: comparing the root to itself returns
    [onlyInFirst = []], [onlyInSecond = []] and, in [inBoth], the paths of all
    the kept files of the root, in order. *)
Theorem idempotent_stateless fs dir ignorePatterns h :
  stateless h ignorePatterns →
  idempotent join relative argument_limit regexp_compile fs dir ignorePatterns h.
Proof.
  intros Hs pats h1 t0 paths h2 t1 Hc H1.
  destruct (mapM_toRegExp_inv _ _ _ _ _ _ Hc) as (_ & _ & Hp).
  specialize (Hp Hs).
  assert (h2 = h1) as -> by by eapply collectPaths_heap.
  split; [|by eapply collectPaths_kept].
  exists h1, (t0 ++ t1 ++ t1).
  rewrite (compareDirectories_Ok _ _ _ _ _ _ _ _ _ _ _ _ _
             (snapshots_Ok _ _ _ _ _ _ _ _ _ _ _ _ _ _ _ _ _ _ Hc H1 H1)).
  unfold rooted, partition3. cbn [onlyInFirst onlyInSecond inBoth].
  by rewrite filter_not_elem_self, filter_elem_self.
Qed.

(** X23. When no RegExp object of the pattern list carries [g] or
    [y]: if [compareDirectories A B] returns, so does [compareDirectories B A];
    the root-relative paths of [onlyInFirst] of the one are those of
    [onlyInSecond] of the other, in the same order, and the two [inBoth] hold
    the same set of root-relative paths. *)
Theorem symmetric_stateless fs A B ignorePatterns h :
  stateless h ignorePatterns →
  symmetric join relative argument_limit regexp_compile fs A B ignorePatterns h.
Proof.
  intros Hs d h' t Hcmp.
  apply compareDirectories_inv in Hcmp as (s1 & s2 & Hsnap & Hrel & ->).
  apply snapshots_inv in Hsnap
    as (pats & h1 & t0 & pA & h2 & tA & pB & tB & Hc & HA & HB
        & -> & -> & ->).
  destruct (mapM_toRegExp_inv _ _ _ _ _ _ Hc) as (_ & _ & Hp).
  specialize (Hp Hs).
  assert (h2 = h1) as -> by by eapply collectPaths_heap.
  assert (h' = h1) as -> by by eapply collectPaths_heap.
  pose proof (snapshots_Ok _ _ _ _ _ _ _ _ _ _ _ _ _ _ _ _ _ _ Hc HB HA) as Hsnap'.
  exists (partition3 (sort pA) (sort pB)), (partition3 (sort pB) (sort pA)),
    h1, (t0 ++ tB ++ tA).
  split_and!; [done|done| |by apply compareDirectories_Ok|done|done|].
  - unfold relativeDiff. by rewrite (bind_Ok _ _ _ _ _ _ Hsnap'), app_nil_r.
  - destruct (partition3_sets (sort pA) (sort pB)) as (-> & _).
    destruct (partition3_sets (sort pB) (sort pA)) as (-> & _).
    apply (comm_L (∩)).
Qed.

End Stateless.

(** ** The reports *)

Lemma last_console_log console line : last (console_log console line) = Some line.
Proof. apply last_snoc. Qed.

(** C8, amended. The difference report ends with the count line whenever
    [onlyInFirst] or [onlyInSecond] is not empty. When both are empty it is the
    two lines of the header and the line that says the directories are
    identical: the function returns there and prints no count line. *)
Theorem printDifferences_count_line resolve dir1 dir2 diff :
  (onlyInFirst diff ≠ [] ∨ onlyInSecond diff ≠ [] →
   ends_with_count resolve dir1 dir2 diff) ∧
  (onlyInFirst diff = [] → onlyInSecond diff = [] →
   printDifferences resolve dir1 dir2 diff
   = ["Directory Structure Comparison:"; "===============================";
      "✅ Directories are identical"]).
Proof.
  split.
  - intros Hne. unfold ends_with_count, printDifferences. cbv zeta.
    case_decide as Hempty.
    + destruct Hempty as [H1%nil_length_inv H2%nil_length_inv]. tauto.
    + by rewrite last_console_log.
  - intros H1 H2. unfold printDifferences. by rewrite H1, H2.
Qed.

(** ** loadConfig *)

(** C9. [loadConfig] returns a configuration in every state of the file. It
    is [emptyConfig], whose [ignorePaths] is the empty array, when the file
    is absent, cannot be read, is not JSON, or holds a value whose
    [ignorePaths] is not an array (or cannot be read at all); and it is the
    parsed value itself, with its array untouched, when [ignorePaths] is an
    array. *)
Theorem loadConfig_fallback existsSync readFileSync JSON_parse configPath :
  let config := (loadConfig existsSync readFileSync JSON_parse configPath).1 in
  get_ignorePaths emptyConfig = Some (Some (JArray [])) ∧
  (existsSync configPath = false → config = emptyConfig) ∧
  (existsSync configPath = true → readFileSync configPath = None →
   config = emptyConfig) ∧
  (∀ content,
     existsSync configPath = true → readFileSync configPath = Some content →
     JSON_parse content = None → config = emptyConfig) ∧
  (∀ content v,
     existsSync configPath = true → readFileSync configPath = Some content →
     JSON_parse content = Some v →
     (∀ items, get_ignorePaths v ≠ Some (Some (JArray items))) →
     config = emptyConfig) ∧
  (∀ content v items,
     existsSync configPath = true → readFileSync configPath = Some content →
     JSON_parse content = Some v →
     get_ignorePaths v = Some (Some (JArray items)) →
     config = v ∧ get_ignorePaths config = Some (Some (JArray items))).
Proof.
  cbv zeta. unfold loadConfig. split_and!.
  - done.
  - by intros ->.
  - by intros -> ->.
  - intros content -> ->. simpl. by intros ->.
  - intros content v -> ->. simpl. intros -> Hv. simpl.
    destruct (get_ignorePaths v) as [[[]|]|] eqn:Hget; simpl; try done.
    by destruct (Hv items).
  - intros content v items -> ->. simpl. intros -> Hget. simpl.
    by rewrite Hget.
Qed.

(** * The scenarios of the specification, and the examples of the theorems *)

Module Scenarios.

Import Posix Examples.

Local Abbreviation compare fs :=
  (compareDirectories join relative argument_limit regexp_compile fs).

(** Scenario 1. *)
Example scenario1 :
  value (compare disk "dir1" "dir2" [] [])
  = Ok {| onlyInFirst := ["dir1/b/c.txt"];
          onlyInSecond := ["dir2/b/d.txt"];
          inBoth := ["dir1/a.txt"] |}.
Proof. reflexivity. Qed.

(** Scenario 2: the files below [b] are never stat-ed. *)
Example scenario2 :
  let o := compare disk "dir1" "dir2" [inl "^b/"] [] in
  value o = Ok {| onlyInFirst := []; onlyInSecond := [];
                  inBoth := ["dir1/a.txt"] |} ∧
  calls o = [Readdir "dir1"; Stat "dir1/a.txt"; Stat "dir1/b"; Readdir "dir1/b";
             Readdir "dir2"; Stat "dir2/a.txt"; Stat "dir2/b"; Readdir "dir2/b"].
Proof. split; reflexivity. Qed.

(** Scenario 3. *)
Example scenario3 :
  let diff := {| onlyInFirst := []; onlyInSecond := []; inBoth := [] |} in
  value (compare empty_disk "dir1" "dir2" [] []) = Ok diff ∧
  printDifferences id "dir1" "dir2" diff
  = ["Directory Structure Comparison:"; "===============================";
     "✅ Directories are identical"] ∧
  printCommonItems id "dir1" "dir2" diff
  = ["Common Directory Structure:"; "==========================";
     "❌ No common files or directories found"].
Proof. split_and!; reflexivity. Qed.

(** Scenario 4. *)
Example scenario4 :
  compare disk "dir1" "dir2" [inl "("] [] = (Throw (SyntaxError "("), [], []).
Proof. reflexivity. Qed.

(** Scenario 5. *)
Example scenario5 :
  value (compare disk_locked "dir1" "dir2" [] [])
  = Throw (FsError EACCES "dir1/secret").
Proof. reflexivity. Qed.

End Scenarios.

(** ** The theorems at concrete inputs *)

Section Witnesses.

Import Posix Examples.

Local Abbreviation compare fs :=
  (compareDirectories join relative argument_limit regexp_compile fs).

Lemma compareDirectories_set_semantics_witness :
  ∃ d h' t,
    compare disk "dir1" "dir2" [] [] = (Ok d, h', t) ∧
    ∃ paths1 paths2 rel,
      d = rooted join "dir1" "dir2" rel ∧
      list_to_set (inBoth rel)
      =@{gset string} list_to_set paths1 ∩ list_to_set paths2 ∧
      list_to_set (onlyInFirst rel) ∪ list_to_set (inBoth rel)
      =@{gset string} list_to_set paths1.
Proof.
  eexists _, _, _. split; [vm_compute; reflexivity|].
  destruct (compareDirectories_set_semantics join relative argument_limit
      regexp_compile disk
              "dir1" "dir2" [] [] _ _ _ eq_refl)
    as (_ & _ & _ & paths1 & _ & _ & paths2 & _ & rel & _ & _ & _ & _ & Hd
        & _ & _ & Hboth & _ & _ & Hfirst & _).
  exists paths1, paths2, rel. by split_and!.
Defined.

Lemma compareDirectories_sorted_witness :
  ∃ d h' t,
    compare disk "dir1" "dir2" [] [] = (Ok d, h', t) ∧
    ∃ rel,
      d = rooted join "dir1" "dir2" rel ∧
      StronglySorted path_le (onlyInFirst rel) ∧
      StronglySorted path_le (onlyInSecond rel) ∧
      StronglySorted path_le (inBoth rel).
Proof.
  eexists _, _, _. split; [vm_compute; reflexivity|].
  destruct (compareDirectories_sorted join relative argument_limit
      regexp_compile disk
              "dir1" "dir2" [] [] _ _ _ eq_refl) as (rel & _ & Hd & H).
  by exists rel.
Defined.

Lemma compareDirectories_multiplicity_witness :
  ∃ d h' t,
    compare disk "dir1" "dir2" [] [] = (Ok d, h', t) ∧
    ∃ paths1 rel,
      d = rooted join "dir1" "dir2" rel ∧
      length (onlyInFirst d) + length (inBoth d) = length paths1 ∧
      onlyInFirst rel ++ inBoth rel ≡ₚ paths1.
Proof.
  eexists _, _, _. split; [vm_compute; reflexivity|].
  destruct (compareDirectories_multiplicity join relative argument_limit
      regexp_compile disk
              "dir1" "dir2" [] [] _ _ _ eq_refl)
    as (_ & _ & _ & paths1 & _ & _ & _ & _ & rel & _ & _ & _ & _ & Hd
        & _ & _ & _ & Hlen & Hperm & _).
  by exists paths1, rel.
Defined.

Lemma compareDirectories_invalid_pattern_witness :
  inl "(" ∈ [inr 0; inl "b"; inl "("; inl "a"] ∧
  regexp_compile "(" = None ∧
  ∃ source' h',
    compare disk "dir1" "dir2" [inr 0; inl "b"; inl "("; inl "a"] [c_plain]
    = (Throw (SyntaxError source'), h', []).
Proof.
  assert (inl "(" ∈ [inr 0; inl "b"; inl "("; inl "a"]) as Hin
    by (right; right; left).
  split_and!; [exact Hin|reflexivity|].
  destruct (compareDirectories_invalid_pattern join relative argument_limit
      regexp_compile
              disk "dir1" "dir2" _ "(" [c_plain] Hin eq_refl)
    as (source' & h' & _ & _ & H).
  by exists source', h'.
Defined.

Lemma compareDirectories_fail_fast_witness :
  mapM (toRegExp regexp_compile) [] [] = (Ok [], [], []) ∧
  fails join relative argument_limit "dir1" [] "dir1" (disk_locked "dir1") []
    (FsError EACCES "dir1/secret") ∧
  value (compare disk_locked "dir1" "dir2" [] [])
  = Throw (FsError EACCES "dir1/secret").
Proof.
  assert (fails join relative argument_limit "dir1" [] "dir1"
      (disk_locked "dir1") []
            (FsError EACCES "dir1/secret")) as Hfails.
  { apply (fails_below join relative argument_limit "dir1" [] "dir1"
      [("a.txt", File)]
             "secret" (Unlistable EACCES) [] [] ["a.txt"] []
             [Stat "dir1/a.txt"] [] []); [reflexivity..|].
    by apply fails_list. }
  split_and!; [reflexivity|exact Hfails|].
  apply (compareDirectories_fail_fast join relative argument_limit
      regexp_compile disk_locked
           "dir1" "dir2" [] [] [] [] [] _ eq_refl).
  by left.
Defined.

Lemma ignore_pruning_stateless_witness :
  stateless [c_plain] [inr 0; inl "^b/"] ∧
  ignore_pruning join relative argument_limit regexp_compile disk "dir1" "dir2"
    [inr 0; inl "^b/"] [c_plain].
Proof.
  split; [exact I|].
  exact (ignore_pruning_stateless join relative argument_limit regexp_compile disk
           "dir1" "dir2" [inr 0; inl "^b/"] [c_plain] I).
Defined.

Lemma idempotent_stateless_witness :
  stateless [c_plain] [inr 0; inl "^b/"] ∧
  idempotent join relative argument_limit regexp_compile disk "dir1"
    [inr 0; inl "^b/"] [c_plain].
Proof.
  split; [exact I|].
  exact (idempotent_stateless join relative argument_limit regexp_compile disk
      "dir1"
           [inr 0; inl "^b/"] [c_plain] I).
Defined.

Lemma symmetric_stateless_witness :
  stateless [c_plain] [inr 0; inl "^b/"] ∧
  symmetric join relative argument_limit regexp_compile disk "dir1" "dir2"
    [inr 0; inl "^b/"] [c_plain].
Proof.
  split; [exact I|].
  exact (symmetric_stateless join relative argument_limit regexp_compile disk
      "dir1" "dir2"
           [inr 0; inl "^b/"] [c_plain] I).
Defined.

Lemma printDifferences_count_line_witness :
  let diff := {| onlyInFirst := ["dir1/b/c.txt"];
                 onlyInSecond := ["dir2/b/d.txt"];
                 inBoth := ["dir1/a.txt"] |} in
  onlyInFirst diff ≠ [] ∧ ends_with_count id "dir1" "dir2" diff.
Proof.
  cbv zeta. split; [done|].
  apply (printDifferences_count_line id "dir1" "dir2"). by left.
Defined.

Lemma loadConfig_fallback_witness :
  let config :=
    (loadConfig (λ _, true) (λ _, Some bdgrc) parse_bdgrc ".bdgrc.json").1 in
  get_ignorePaths bdgrc_value = Some (Some (JArray [JString "^b/"])) ∧
  config = bdgrc_value ∧
  get_ignorePaths config = Some (Some (JArray [JString "^b/"])).
Proof.
  cbv zeta. split; [reflexivity|].
  destruct (loadConfig_fallback (λ _, true) (λ _, Some bdgrc) parse_bdgrc
              ".bdgrc.json") as (_ & _ & _ & _ & _ & Hvalid).
  exact (Hvalid bdgrc bdgrc_value [JString "^b/"]
           eq_refl eq_refl eq_refl eq_refl).
Defined.

(** ** Names outside ASCII *)

(** U+FF5E is the code unit FF5E; U+1F600 is the pair D83D DE00 and comes
    first, though its UTF-8 form starts with the greater byte. *)
Example code_units_wide :
  code_units "～" = Some [65374%N] ∧
  code_units "😀" = Some [55357%N; 56832%N] ∧
  length_units "～😀" = 3 ∧
  sort ["～"; "z"; "😀"] = ["z"; "😀"; "～"].
Proof. by vm_compute. Qed.

Example compareDirectories_wide :
  compare disk_wide "dir1" "dir2" [] []
  = (Ok {| onlyInFirst := ["dir1/😀"; "dir1/～"];
           onlyInSecond := [];
           inBoth := [] |},
     [], [Readdir "dir1"; Stat "dir1/～"; Stat "dir1/😀"; Readdir "dir2"]).
Proof. by vm_compute. Qed.

(** ** The pattern [/a/g] *)

(** With the object [/a/g] in the pattern list and a file [a] in both roots,
    the first traversal leaves [lastIndex] at 1, the test of the second
    traversal starts there and fails, and [dir2/a] comes out in
    [onlyInSecond] although its path matches the pattern. *)
Example global_flag_run :
  compare disk_a "dir1" "dir2" [inr 0] [a_global]
  = (Ok {| onlyInFirst := []; onlyInSecond := ["dir2/a"]; inBoth := [] |},
     [a_global], [Readdir "dir1"; Readdir "dir2"; Stat "dir2/a"]).
Proof. reflexivity. Qed.

Lemma ignore_pruning_broken :
  ¬ ignore_pruning join relative argument_limit regexp_compile disk_a "dir1"
      "dir2"
      [inr 0] [a_global].
Proof.
  intros H.
  destruct (H [0] [a_global] []
              {| onlyInFirst := []; onlyInSecond := ["a"]; inBoth := [] |}
              [a_global] [Readdir "dir1"; Readdir "dir2"; Stat "dir2/a"]
              eq_refl eq_refl) as (_ & Hmatch & _).
  destruct (Hmatch "a") as (_ & Hsecond & _); [exact I|].
  apply Hsecond. by left.
Qed.

Lemma idempotent_broken :
  ¬ idempotent join relative argument_limit regexp_compile disk_a "dir1"
      [inr 0] [a_global].
Proof.
  intros H.
  destruct (H [0] [a_global] [] [] [set_lastIndex a_global 1]
              [Readdir "dir1"] eq_refl eq_refl) as [(h' & t & Hcmp) _].
  vm_compute in Hcmp. discriminate Hcmp.
Qed.

Lemma symmetric_broken :
  ¬ symmetric join relative argument_limit regexp_compile disk_a "dir1" "dir2"
      [inr 0] [a_global].
Proof.
  intros H.
  destruct (H _ _ _ global_flag_run)
    as (rel & rel' & h'' & t' & Hrel & _ & Hrel' & _ & Hfirst & _).
  vm_compute in Hrel, Hrel'.
  injection Hrel as <-. injection Hrel' as <- _ _.
  discriminate Hfirst.
Qed.

(** ** Where the program breaks what the specification says

    One defect is behind the three runs below: [compareDirectories] passes
    the RegExp objects of its caller to both traversals (line 81), and
    [pattern.test] on line 56 moves the [lastIndex] of an object that carries
    [g] or [y], so that the same path is ignored at one test and not at the
    next. *)

(** C2. The path [a] matches the pattern [/a/g], and [dir2/a] is returned in
    [onlyInSecond]: the first traversal ignores [a], the second does not. *)
Theorem ignore_pruning_global_flag :
  matches [a_global] [0] "a" ∧
  compare disk_a "dir1" "dir2" [inr 0] [a_global]
  = (Ok {| onlyInFirst := []; onlyInSecond := ["dir2/a"]; inBoth := [] |},
     [a_global], [Readdir "dir1"; Readdir "dir2"; Stat "dir2/a"]) ∧
  ¬ ignore_pruning join relative argument_limit regexp_compile disk_a
      "dir1" "dir2" [inr 0] [a_global].
Proof.
  split_and!; [exact I|reflexivity|exact ignore_pruning_broken].
Qed.

(** C4. The directory [dir1], which holds the one file [a], compared to
    itself with the pattern [/a/g]: [dir1/a] is returned in [onlyInSecond],
    and [inBoth] is empty. *)
Theorem idempotent_global_flag :
  compare disk_a "dir1" "dir1" [inr 0] [a_global]
  = (Ok {| onlyInFirst := []; onlyInSecond := ["dir1/a"]; inBoth := [] |},
     [a_global], [Readdir "dir1"; Readdir "dir1"; Stat "dir1/a"]) ∧
  ¬ idempotent join relative argument_limit regexp_compile disk_a "dir1"
      [inr 0] [a_global].
Proof. split; [reflexivity|exact idempotent_broken]. Qed.

(** C5. With the pattern [/a/g] and the file [a] in both roots, the call on
    (dir1, dir2) returns nothing in [onlyInFirst], and the call on
    (dir2, dir1) returns [dir1/a] in [onlyInSecond]. *)
Theorem symmetric_global_flag :
  compare disk_a "dir1" "dir2" [inr 0] [a_global]
  = (Ok {| onlyInFirst := []; onlyInSecond := ["dir2/a"]; inBoth := [] |},
     [a_global], [Readdir "dir1"; Readdir "dir2"; Stat "dir2/a"]) ∧
  compare disk_a "dir2" "dir1" [inr 0] [a_global]
  = (Ok {| onlyInFirst := []; onlyInSecond := ["dir1/a"]; inBoth := [] |},
     [a_global], [Readdir "dir2"; Readdir "dir1"; Stat "dir1/a"]) ∧
  ¬ symmetric join relative argument_limit regexp_compile disk_a
      "dir1" "dir2" [inr 0] [a_global].
Proof.
  split_and!; [reflexivity|reflexivity|exact symmetric_broken].
Qed.

(** ** Where the specification says more than the program does *)

Lemma printDifferences_counterexample :
  ¬ ends_with_count id "dir1" "dir2"
      {| onlyInFirst := []; onlyInSecond := []; inBoth := ["dir1/a.txt"] |}.
Proof. unfold ends_with_count. vm_compute. discriminate. Qed.

End Witnesses.

(** * Further properties of the program *)

(** ** What a traversal calls *)

Lemma count_calls_app kind t1 t2 :
  count_calls kind (t1 ++ t2) = count_calls kind t1 + count_calls kind t2.
Proof. unfold count_calls. by rewrite filter_app, length_app. Qed.

Section Calls.

Context (join relative : string → string → string).
Context (argument_limit : string → N).

Local Abbreviation collectPaths := (collectPaths join relative argument_limit).
Local Abbreviation collectEntries := (collectEntries join relative
    argument_limit).

Lemma collectEntries_accounting baseDir currentDir patterns entries paths h
    paths' h' t :
  Forall (λ x, ∀ currentDir h paths h' t,
            collectPaths baseDir currentDir x.2 patterns h = (Ok paths, h', t) →
            length paths + count_calls is_Readdir t
            = count_calls is_Stat t + 1) entries →
  collectEntries baseDir currentDir patterns entries paths h
  = (Ok paths', h', t) →
  length paths' + count_calls is_Readdir t
  = length paths + count_calls is_Stat t.
Proof.
  intros Hentries. revert paths h t.
  induction Hentries as [|[entry child] rest Hchild _ IH]; intros paths h t.
  { by intros [= <- <- <-]. }
  rewrite collectEntries_cons. cbv zeta. simpl in Hchild.
  destruct (some_test_Ok patterns (relative baseDir (join currentDir entry)) h)
    as (ignored & h1 & ->).
  destruct ignored.
  { destruct (collectEntries _ _ _ rest paths h1) as [[r h2] t2] eqn:Hrest.
    intros [= -> <- <-]. by apply (IH _ _ _ Hrest). }
  destruct child as [|sub_entries|code|code]; [| | |done].
  - destruct (collectEntries _ _ _ rest _ h1) as [[r h2] t2] eqn:Hrest.
    intros [= -> <- <-]. apply IH in Hrest.
    rewrite length_app in Hrest. simpl in *.
    change (Stat ?p :: ?t) with ([Stat p] ++ t).
    rewrite !count_calls_app. unfold count_calls at 1 3. simpl. lia.
  - destruct (collectPaths _ _ (Dir sub_entries) _ h1)
      as [[[sub|e] h2] t2] eqn:Hsub; [|done].
    case_decide; [|done].
    destruct (collectEntries _ _ _ rest _ h2) as [[r h3] t3] eqn:Hrest.
    intros [= -> <- <-]. apply IH in Hrest. apply Hchild in Hsub.
    rewrite length_app in Hrest. simpl in *.
    change (Stat ?p :: ?t) with ([Stat p] ++ t).
    rewrite !count_calls_app. unfold count_calls at 1 4. simpl. lia.
  - by rewrite collectPaths_eq.
Qed.

(** X1. A traversal that returns has listed or read everything it stat-ed:
    the paths it returns and the directories it read count one more (the
    root, which is read without being stat-ed) than the entries it
    stat-ed. *)
Theorem collectPaths_accounting baseDir currentDir n patterns h paths h' t :
  collectPaths baseDir currentDir n patterns h = (Ok paths, h', t) →
  length paths + count_calls is_Readdir t = count_calls is_Stat t + 1.
Proof.
  revert currentDir h paths h' t.
  induction n as [|entries IH|code|code] using node_ind';
    intros currentDir h paths h' t; rewrite collectPaths_eq; try done.
  destruct (collectEntries _ _ _ entries [] h) as [[r h2] t2] eqn:Hentries.
  intros [= -> <- <-].
  apply (collectEntries_accounting _ _ _ _ _ _ _ _ _ IH) in Hentries.
  change (Readdir ?p :: ?t) with ([Readdir p] ++ t).
  rewrite !count_calls_app. unfold count_calls at 1 3. simpl in *. lia.
Qed.

Lemma thrown_last_after e t1 t : thrown_last e t → thrown_last e (t1 ++ t).
Proof.
  intros (code & path & t0 & c & -> & -> & Hc).
  exists code, path, (t1 ++ t0), c. by rewrite app_assoc.
Qed.

Lemma collectEntries_thrown_last baseDir currentDir patterns entries paths h
    e h' t :
  Forall (λ x, ∀ currentDir h e h' t,
            collectPaths baseDir currentDir x.2 patterns h = (Throw e, h', t) →
            e = RangeError ∨ thrown_last e t) entries →
  collectEntries baseDir currentDir patterns entries paths h
  = (Throw e, h', t) →
  e = RangeError ∨ thrown_last e t.
Proof.
  intros Hentries. revert paths h t.
  induction Hentries as [|[entry child] rest Hchild _ IH]; intros paths h t;
    [done|].
  rewrite collectEntries_cons. cbv zeta. simpl in Hchild.
  destruct (some_test_Ok patterns (relative baseDir (join currentDir entry)) h)
    as (ignored & h1 & ->).
  destruct ignored.
  { destruct (collectEntries _ _ _ rest paths h1) as [[r h2] t2] eqn:Hrest.
    intros [= -> <- <-]. by apply (IH _ _ _ Hrest). }
  destruct child as [|sub_entries|code|code].
  - destruct (collectEntries _ _ _ rest _ h1) as [[r h2] t2] eqn:Hrest.
    intros [= -> <- <-]. apply IH in Hrest as [?|?]; [by left|right].
    by apply (thrown_last_after _ [_]).
  - destruct (collectPaths _ _ (Dir sub_entries) _ h1)
      as [[[sub|e'] h2] t2] eqn:Hsub.
    + case_decide; [|intros [= <- <- <-]; by left].
      destruct (collectEntries _ _ _ rest _ h2) as [[r h3] t3] eqn:Hrest.
      intros [= -> <- <-]. apply IH in Hrest as [?|?]; [by left|right].
      by apply (thrown_last_after _ (_ :: _)).
    + intros [= <- <- <-]. apply Hchild in Hsub as [?|?]; [by left|right].
      by apply (thrown_last_after _ [_]).
  - rewrite collectPaths_eq. intros [= <- <- <-]. right.
    by exists code, (join currentDir entry), [Stat (join currentDir entry)],
      (Readdir (join currentDir entry)).
  - intros [= <- <- <-]. right.
    by exists code, (join currentDir entry), [], (Stat (join currentDir entry)).
Qed.

Lemma collectPaths_Throw_last baseDir currentDir n patterns h e h' t :
  collectPaths baseDir currentDir n patterns h = (Throw e, h', t) →
  e = RangeError ∨ thrown_last e t.
Proof.
  revert currentDir h e h' t.
  induction n as [|entries IH|code|code] using node_ind';
    intros currentDir h e h' t; rewrite collectPaths_eq;
    try (intros [= <- <- <-]; right;
         by eexists _, currentDir, [], (Readdir currentDir)).
  destruct (collectEntries _ _ _ entries [] h) as [[r h2] t2] eqn:Hentries.
  intros [= -> <- <-].
  apply (collectEntries_thrown_last _ _ _ _ _ _ _ _ _ IH) in Hentries
    as [?|?]; [by left|right].
  by apply (thrown_last_after _ [_]).
Qed.

(** X2. A traversal whose patterns keep no state and that throws, throws
    either the RangeError of the call of [push] on line 62, which is given
    the paths of a sub-directory as its arguments, or the error of a call of
    [readdirSync] or [statSync], with the path of that call; this call is
    then the last one made: nothing is tried again and nothing is read after
    the failure. *)
Theorem collectPaths_thrown_last baseDir currentDir n patterns h e h' t :
  Forall (λ l, flagless h l) patterns →
  collectPaths baseDir currentDir n patterns h = (Throw e, h', t) →
  e = RangeError ∨ thrown_last e t.
Proof. intros _. apply collectPaths_Throw_last. Qed.

End Calls.

(** ** What a call does to the store *)

Lemma same_pattern_refl r : same_pattern r r.
Proof. done. Qed.

Lemma same_pattern_trans r1 r2 r3 :
  same_pattern r1 r2 → same_pattern r2 r3 → same_pattern r1 r3.
Proof.
  intros (He & Hg & Hs & Hi) (He' & Hg' & Hs' & Hi').
  split_and!; [congruence..|].
  intros Hplain. rewrite Hi', Hi; [done..|]. by rewrite Hg, Hs.
Qed.

Lemma evolved_refl h : evolved h h.
Proof. apply Forall_Forall2_diag, Forall_forall. intros. apply same_pattern_refl. Qed.

Lemma evolved_trans h1 h2 h3 : evolved h1 h2 → evolved h2 h3 → evolved h1 h3.
Proof. apply Forall2_trans, same_pattern_trans. Qed.

Lemma test_same_pattern r s : same_pattern r (test r s).2.
Proof.
  unfold test. destruct (global r || sticky r) eqn:Hflags; [|done].
  by repeat case_match; (split_and!; [done..|by rewrite Hflags]).
Qed.

Lemma RegExp_test_evolved l s h : evolved h (heap (RegExp_test l s h)).
Proof.
  unfold RegExp_test. destruct (h !! l) as [r|] eqn:Hr; [|apply evolved_refl].
  pose proof (test_same_pattern r s) as Hsame.
  destruct (test r s) as [b r']. simpl in *.
  rewrite <-(list_insert_id h l r Hr) at 1.
  by apply Forall2_insert; [apply evolved_refl|].
Qed.

Lemma some_test_evolved patterns s h : evolved h (heap (some_test patterns s h)).
Proof.
  revert h. induction patterns as [|l rest IH]; intros h; [apply evolved_refl|].
  simpl. unfold bind. pose proof (RegExp_test_evolved l s h) as Hl.
  unfold RegExp_test in *. destruct (h !! l) as [r|]; simpl in *.
  - destruct (test r s) as [[] r']; simpl in *; [done|].
    specialize (IH (<[l:=r']> h)).
    destruct (some_test rest s _) as [[??]?]. by eapply evolved_trans.
  - specialize (IH h). by destruct (some_test rest s h) as [[??]?].
Qed.

Section Store.

Context (join relative : string → string → string).
Context (argument_limit : string → N).
Context (regexp_compile : string → option (string → nat → option nat)).
Context (fs : string → node).

Local Abbreviation collectPaths := (collectPaths join relative argument_limit).
Local Abbreviation collectEntries := (collectEntries join relative
    argument_limit).
Local Abbreviation toRegExp := (toRegExp regexp_compile).
Local Abbreviation compareDirectories :=
  (compareDirectories join relative argument_limit regexp_compile fs).

Lemma collectEntries_evolved baseDir currentDir patterns entries paths h :
  Forall (λ x, ∀ currentDir h,
            evolved h (heap (collectPaths baseDir currentDir x.2 patterns h)))
    entries →
  evolved h (heap (collectEntries baseDir currentDir patterns entries paths h)).
Proof.
  intros Hentries. revert paths h.
  induction Hentries as [|[entry child] rest Hchild _ IH]; intros paths h;
    [apply evolved_refl|].
  rewrite collectEntries_cons. cbv zeta. simpl in Hchild.
  pose proof (some_test_evolved patterns
                (relative baseDir (join currentDir entry)) h) as Htest.
  destruct (some_test patterns _ h) as [[[[]|e] h1] t1]; simpl in Htest;
    [by eapply evolved_trans; [|apply IH]| |done].
  specialize (Hchild (join currentDir entry) h1).
  destruct child as [|sub_entries|code|code].
  - cbn [heap after]. by eapply evolved_trans; [|apply IH].
  - destruct (collectPaths _ _ (Dir sub_entries) _ h1) as [[[sub|e] h2] t2];
      cbn [heap after] in *; [|by eapply evolved_trans].
    case_decide; cbn [heap after]; [|by eapply evolved_trans].
    eapply evolved_trans; [done|]. by eapply evolved_trans; [|apply IH].
  - destruct (collectPaths _ _ (Unlistable code) _ h1) as [[[sub|e] h2] t2];
      cbn [heap after] in *; [|by eapply evolved_trans].
    case_decide; cbn [heap after]; [|by eapply evolved_trans].
    eapply evolved_trans; [done|]. by eapply evolved_trans; [|apply IH].
  - done.
Qed.

Lemma collectPaths_evolved baseDir currentDir n patterns h :
  evolved h (heap (collectPaths baseDir currentDir n patterns h)).
Proof.
  revert currentDir h.
  induction n as [|entries IH|code|code] using node_ind';
    intros currentDir h; rewrite collectPaths_eq; try apply evolved_refl.
  apply (collectEntries_evolved _ _ _ _ _ _ IH).
Qed.

Lemma mapM_toRegExp_grown ignorePatterns h :
  grown h (heap (mapM toRegExp ignorePatterns h)).
Proof.
  revert h. induction ignorePatterns as [|pattern rest IH]; intros h;
    [apply grown_refl|].
  simpl. unfold bind.
  destruct (toRegExp pattern h) as [[[l|e] ha] ta] eqn:Ha.
  - assert (grown h ha) as Hg.
    { by destruct (toRegExp_inv _ _ _ _ _ _ Ha) as [(_ & ? & _)|(_ & -> & _)];
        [|apply grown_refl]. }
    specialize (IH ha).
    destruct (mapM toRegExp rest ha) as [[[ls|e] hb] tb]; simpl in *;
      by eapply grown_trans.
  - destruct pattern as [source|r]; simpl in Ha; [|done].
    unfold RegExp_new in Ha. destruct (regexp_compile source); [done|].
    injection Ha as _ <- _. apply grown_refl.
Qed.

Lemma evolved_plain fresh fresh' :
  evolved fresh fresh' → Forall plain fresh → Forall plain fresh'.
Proof.
  induction 1 as [|r r' ?? (_ & Hg & Hs & _) _ IH]; [done|].
  intros [[??] ?]%Forall_cons. constructor; [|by apply IH].
  split; congruence.
Qed.

(** X3. Whatever its outcome, [compareDirectories] leaves the RegExp objects
    of its caller in place, with their patterns and their flags, and with
    their [lastIndex] when they carry neither [g] nor [y]; the objects it
    makes from the strings are added after them. *)
Theorem compareDirectories_store dir1 dir2 ignorePatterns h :
  ∃ h1 fresh,
    heap (compareDirectories dir1 dir2 ignorePatterns h) = h1 ++ fresh ∧
    evolved h h1 ∧ Forall plain fresh.
Proof.
  assert (∀ ha hb, grown h ha → evolved ha hb →
            ∃ h1 fresh, hb = h1 ++ fresh ∧ evolved h h1 ∧ Forall plain fresh)
    as Hshape.
  { intros ha hb (fresh & -> & Hfresh) (h1 & fresh' & ? & ? & ->)%Forall2_app_inv_l.
    exists h1, fresh'. split_and!; [done..|]. by eapply evolved_plain. }
  unfold compareDirectories_def, bind.
  pose proof (mapM_toRegExp_grown ignorePatterns h) as Hgrown.
  destruct (mapM toRegExp ignorePatterns h) as [[[pats|e] ha] ta];
    simpl in Hgrown; [|by apply (Hshape ha); [|apply evolved_refl]].
  pose proof (collectPaths_evolved dir1 dir1 (fs dir1) pats ha) as H1.
  destruct (collectPaths dir1 dir1 (fs dir1) pats ha) as [[[p1|e] hb] tb];
    simpl in H1; [|by apply (Hshape ha)].
  pose proof (collectPaths_evolved dir2 dir2 (fs dir2) pats hb) as H2.
  destruct (collectPaths dir2 dir2 (fs dir2) pats hb) as [[[p2|e] hc] tc];
    simpl in H2; apply (Hshape ha); [done| |done|]; by eapply evolved_trans.
Qed.

End Store.

(** ** The pattern array as a set *)

Lemma visible_after {A} t (o o' : result A * Heap * list FsCall) :
  visible o = visible o' → visible (after t o) = visible (after t o').
Proof. unfold visible, after. simpl. by intros [= -> ->]. Qed.

Lemma matches_elem_of h patterns s :
  matches h patterns s ↔ ∃ l, l ∈ patterns ∧ matches_at h s l.
Proof.
  unfold matches. by rewrite existb_True, Exists_exists.
Qed.

Lemma matches_same_elements h patterns patterns' s :
  (∀ l, l ∈ patterns ↔ l ∈ patterns') →
  matches h patterns s = matches h patterns' s.
Proof.
  intros Hsame.
  assert (matches h patterns s ↔ matches h patterns' s) as Hiff.
  { rewrite !matches_elem_of. by setoid_rewrite Hsame. }
  destruct (matches h patterns s), (matches h patterns' s); simpl in Hiff;
    tauto.
Qed.

Section Patterns.

Context (join relative : string → string → string).
Context (argument_limit : string → N).

Local Abbreviation collectPaths := (collectPaths join relative argument_limit).
Local Abbreviation collectEntries := (collectEntries join relative
    argument_limit).

(** With patterns that keep no state, a traversal depends on the pattern
    array and the store only through the paths they match. *)
Lemma collectEntries_matches_ext baseDir currentDir patterns patterns' h h'
    entries paths :
  Forall (λ l, flagless h l) patterns →
  Forall (λ l, flagless h' l) patterns' →
  (∀ s, matches h patterns s = matches h' patterns' s) →
  Forall (λ x, ∀ currentDir,
            visible (collectPaths baseDir currentDir x.2 patterns h)
            = visible (collectPaths baseDir currentDir x.2 patterns' h'))
    entries →
  visible (collectEntries baseDir currentDir patterns entries paths h)
  = visible (collectEntries baseDir currentDir patterns' entries paths h').
Proof.
  intros Hp Hp' Hmatch Hentries. revert paths.
  induction Hentries as [|[entry child] rest Hchild _ IH]; intros paths; [done|].
  rewrite !collectEntries_cons_flagless by done. cbv zeta.
  rewrite <-Hmatch. destruct (matches h patterns _); [apply IH|].
  simpl in Hchild. specialize (Hchild (join currentDir entry)).
  destruct child as [|sub_entries|code|code]; [by apply visible_after| | |done].
  - destruct (collectPaths _ _ (Dir sub_entries) patterns h)
      as [[r h1] t1] eqn:H1.
    destruct (collectPaths _ _ (Dir sub_entries) patterns' h')
      as [[r' h1'] t1'] eqn:H1'.
    apply collectPaths_heap in H1 as ->; [|done].
    apply collectPaths_heap in H1' as ->; [|done].
    injection Hchild as -> ->. destruct r'; [|done].
    case_decide; [|done]. by apply visible_after.
  - by rewrite !collectPaths_eq.
Qed.

Lemma collectPaths_matches_ext baseDir currentDir n patterns patterns' h h' :
  Forall (λ l, flagless h l) patterns →
  Forall (λ l, flagless h' l) patterns' →
  (∀ s, matches h patterns s = matches h' patterns' s) →
  visible (collectPaths baseDir currentDir n patterns h)
  = visible (collectPaths baseDir currentDir n patterns' h').
Proof.
  intros Hp Hp' Hmatch. revert currentDir.
  induction n as [|entries IH|code|code] using node_ind'; intros currentDir;
    rewrite !collectPaths_eq; try done.
  by apply visible_after, collectEntries_matches_ext.
Qed.

(** X4. With patterns that keep no state, the order of the pattern array
    and the repetitions in it do not count: two arrays with the same
    elements give the same outcome, calls and store included. *)
Theorem collectPaths_pattern_order baseDir currentDir n patterns patterns' h :
  Forall (λ l, flagless h l) patterns →
  (∀ l, l ∈ patterns ↔ l ∈ patterns') →
  collectPaths baseDir currentDir n patterns h
  = collectPaths baseDir currentDir n patterns' h.
Proof.
  intros Hp Hsame.
  assert (Forall (λ l, flagless h l) patterns') as Hp'.
  { rewrite Forall_forall in Hp |- *. intros l Hl. by apply Hp, Hsame. }
  pose proof (collectPaths_matches_ext baseDir currentDir n patterns patterns'
                h h Hp Hp' (λ s, matches_same_elements h _ _ s Hsame)) as Hv.
  destruct (collectPaths _ _ n patterns h) as [[r h1] t1] eqn:H1.
  destruct (collectPaths _ _ n patterns' h) as [[r' h1'] t1'] eqn:H1'.
  apply collectPaths_heap in H1 as ->; [|done].
  apply collectPaths_heap in H1' as ->; [|done].
  by injection Hv as -> ->.
Qed.

(** With patterns that keep no state, a traversal whose patterns match more
    returns when the other does, a sublist of its paths, after a sublist of
    its calls. *)
Lemma collectEntries_matches_mono baseDir currentDir patterns patterns' h h'
    entries acc acc' paths :
  Forall (λ l, flagless h l) patterns →
  Forall (λ l, flagless h' l) patterns' →
  (∀ s, matches h patterns s → matches h' patterns' s) →
  Forall (λ x, ∀ currentDir paths,
            value (collectPaths baseDir currentDir x.2 patterns h) = Ok paths →
            ∃ paths',
              value (collectPaths baseDir currentDir x.2 patterns' h')
              = Ok paths' ∧
              paths' `sublist_of` paths ∧
              calls (collectPaths baseDir currentDir x.2 patterns' h')
              `sublist_of` calls (collectPaths baseDir currentDir x.2 patterns h))
    entries →
  acc' `sublist_of` acc →
  value (collectEntries baseDir currentDir patterns entries acc h) = Ok paths →
  ∃ paths',
    value (collectEntries baseDir currentDir patterns' entries acc' h')
    = Ok paths' ∧
    paths' `sublist_of` paths ∧
    calls (collectEntries baseDir currentDir patterns' entries acc' h')
    `sublist_of` calls (collectEntries baseDir currentDir patterns entries acc h).
Proof.
  intros Hp Hp' Hmono Hentries. revert acc acc' paths.
  induction Hentries as [|[entry child] rest Hchild _ IH];
    intros acc acc' paths Hacc.
  { intros [= <-]. by exists acc'. }
  rewrite !collectEntries_cons_flagless by done. cbv zeta.
  simpl in Hchild. specialize (Hchild (join currentDir entry)).
  pose proof (Hmono (relative baseDir (join currentDir entry))) as Hm.
  destruct (matches h patterns _);
    [rewrite (Is_true_true_1 _ (Hm I)); by apply IH|].
  clear Hm.
  destruct (matches h' patterns' _).
  { destruct child as [|sub_entries|code|code]; [| | |done].
    - cbn [value calls after]. intros Hrest.
      destruct (IH _ acc' _ (sublist_inserts_r _ _ _ Hacc) Hrest)
        as (paths' & ? & ? & ?).
      exists paths'. split_and!; [done..|]. by apply sublist_cons.
    - destruct (collectPaths _ _ (Dir sub_entries) patterns h)
        as [[[sub|e] h1] t1] eqn:H1; [|done].
      apply collectPaths_heap in H1 as ->; [|done].
      case_decide; [|done]. cbn [value calls after]. intros Hrest.
      destruct (IH _ acc' _ (sublist_inserts_r _ _ _ Hacc) Hrest)
        as (paths' & ? & ? & ?).
      exists paths'. split_and!; [done..|].
      by apply (sublist_inserts_l (_ :: _)).
    - by rewrite collectPaths_eq. }
  destruct child as [|sub_entries|code|code]; [| | |done].
  - cbn [value calls after]. intros Hrest.
    destruct (IH _ (acc' ++ [relative baseDir (join currentDir entry)]) _
                (sublist_app _ _ _ _ Hacc (reflexivity _)) Hrest)
      as (paths' & ? & ? & ?).
    exists paths'. split_and!; [done..|]. by apply sublist_skip.
  - destruct (collectPaths _ _ (Dir sub_entries) patterns h)
      as [[[sub|e] h1] t1] eqn:H1; [|done].
    destruct (Hchild sub eq_refl) as (sub' & Hv & Hsub & Hcalls).
    destruct (collectPaths _ _ (Dir sub_entries) patterns' h')
      as [[r' h1'] t1'] eqn:H1'.
    apply collectPaths_heap in H1 as ->; [|done].
    apply collectPaths_heap in H1' as ->; [|done].
    simpl in Hv, Hcalls. subst r'.
    case_decide as Hfits; [|done].
    rewrite decide_True by (apply sublist_length in Hsub; lia).
    cbn [value calls after]. intros Hrest.
    destruct (IH _ (acc' ++ sub') _ (sublist_app _ _ _ _ Hacc Hsub) Hrest)
      as (paths' & ? & ? & ?).
    exists paths'. split_and!; [done..|].
    apply sublist_skip. by apply sublist_app.
  - by rewrite collectPaths_eq.
Qed.

Lemma collectPaths_matches_mono baseDir currentDir n patterns patterns' h h'
    paths :
  Forall (λ l, flagless h l) patterns →
  Forall (λ l, flagless h' l) patterns' →
  (∀ s, matches h patterns s → matches h' patterns' s) →
  value (collectPaths baseDir currentDir n patterns h) = Ok paths →
  ∃ paths',
    value (collectPaths baseDir currentDir n patterns' h') = Ok paths' ∧
    paths' `sublist_of` paths ∧
    calls (collectPaths baseDir currentDir n patterns' h')
    `sublist_of` calls (collectPaths baseDir currentDir n patterns h).
Proof.
  intros Hp Hp' Hmono. revert currentDir paths.
  induction n as [|entries IH|code|code] using node_ind';
    intros currentDir paths; rewrite !collectPaths_eq; try done.
  cbn [value calls after]. intros Hentries.
  destruct (collectEntries_matches_mono baseDir currentDir patterns patterns'
              h h' entries [] [] paths Hp Hp' Hmono IH (reflexivity _) Hentries)
    as (paths' & ? & ? & ?).
  exists paths'. split_and!; [done..|]. by apply sublist_skip.
Qed.

Lemma matches_subseteq h patterns patterns' s :
  patterns ⊆ patterns' → matches h patterns s → matches h patterns' s.
Proof.
  intros Hsub (l & Hl & Hs)%matches_elem_of. apply matches_elem_of.
  exists l. split; [by apply Hsub|done].
Qed.

(** X5. With patterns that keep no state, more patterns never make a
    traversal fail and never make it find or call more: when the traversal
    returns with an array of patterns, it returns with any larger array, a
    sublist of the paths, after a sublist of the calls, the store left as it
    was. *)
Theorem collectPaths_more_patterns baseDir currentDir n patterns patterns' h
    paths h1 t :
  Forall (λ l, flagless h l) patterns' →
  patterns ⊆ patterns' →
  collectPaths baseDir currentDir n patterns h = (Ok paths, h1, t) →
  ∃ paths' t',
    collectPaths baseDir currentDir n patterns' h = (Ok paths', h, t') ∧
    paths' `sublist_of` paths ∧ t' `sublist_of` t.
Proof.
  intros Hp' Hsub H1.
  assert (Forall (λ l, flagless h l) patterns) as Hp.
  { rewrite Forall_forall in Hp' |- *. intros l Hl. by apply Hp', Hsub. }
  destruct (collectPaths_matches_mono baseDir currentDir n patterns patterns'
              h h paths Hp Hp' (λ s, matches_subseteq h _ _ s Hsub))
    as (paths' & Hv & Hpaths & Hcalls); [by rewrite H1|].
  rewrite H1 in Hcalls.
  destruct (collectPaths _ _ n patterns' h) as [[r' h1'] t'] eqn:H1'.
  apply collectPaths_heap in H1' as ->; [|done].
  simpl in Hv, Hcalls. subst r'. by exists paths', t'.
Qed.

End Patterns.

(** ** The pattern list of [compareDirectories] *)

Lemma matches_at_grown h h' s l :
  grown h h' → l < length h → matches_at h' s l = matches_at h s l.
Proof.
  intros (fresh & -> & _) Hl. unfold matches_at. by rewrite lookup_app_l.
Qed.

Section PatternList.

Context (join relative : string → string → string).
Context (argument_limit : string → N).
Context (regexp_compile : string → option (string → nat → option nat)).
Context (fs : string → node).

Local Abbreviation collectPaths := (collectPaths join relative argument_limit).
Local Abbreviation toRegExp := (toRegExp regexp_compile).
Local Abbreviation pattern_matches := (pattern_matches regexp_compile).
Local Abbreviation relativeDiff := (relativeDiff join relative argument_limit
    regexp_compile fs).
Local Abbreviation compareDirectories :=
  (compareDirectories join relative argument_limit regexp_compile fs).

Lemma mapM_toRegExp_inr refs h :
  mapM toRegExp (inr <$> refs) h = (Ok refs, h, []).
Proof.
  induction refs as [|l rest IH]; [done|].
  rewrite fmap_cons. cbn [mapM].
  rewrite (bind_Ok _ _ h l h [] eq_refl), (bind_Ok _ _ _ _ _ _ IH). done.
Qed.

Lemma compareDirectories_compiled dir1 dir2 ignorePatterns h
    regexPatterns h1 t0 :
  mapM toRegExp ignorePatterns h = (Ok regexPatterns, h1, t0) →
  compareDirectories dir1 dir2 ignorePatterns h
  = after t0 (compareDirectories dir1 dir2 (inr <$> regexPatterns) h1).
Proof.
  intros Hc. unfold compareDirectories_def.
  rewrite (bind_Ok _ _ _ _ _ _ Hc),
    (bind_Ok _ _ _ _ _ _ (mapM_toRegExp_inr regexPatterns h1)).
  done.
Qed.

(** X6. Compiling the strings first changes nothing: [compareDirectories] on
    a list of strings is [patternsToRegExp] on these strings followed by
    [compareDirectories] on the objects it returns, which are passed through
    and not compiled again. *)
Theorem compareDirectories_precompiled dir1 dir2 patterns h :
  compareDirectories dir1 dir2 (inl <$> patterns) h
  = (regexPatterns <- patternsToRegExp regexp_compile patterns ;;
     compareDirectories dir1 dir2 (inr <$> regexPatterns)) h.
Proof.
  pose proof (patternsToRegExp_mapM regexp_compile patterns h) as Hp.
  destruct (mapM toRegExp (inl <$> patterns) h) as [[[refs|e] h1] t0] eqn:Hc.
  - by rewrite (bind_Ok _ _ _ _ _ _ Hp),
      (compareDirectories_compiled _ _ _ _ _ _ _ Hc).
  - rewrite (bind_Throw _ _ _ _ _ _ Hp). unfold compareDirectories_def.
    by rewrite (bind_Throw _ _ _ _ _ _ Hc).
Qed.

Lemma existsb_pattern_matches_grown h h' s ignorePatterns :
  grown h h' → valid_refs h ignorePatterns →
  existsb (pattern_matches h' s) ignorePatterns
  = existsb (pattern_matches h s) ignorePatterns.
Proof.
  intros Hg. induction ignorePatterns as [|pattern rest IH]; intros Hvalid;
    [done|].
  simpl. f_equal.
  - destruct pattern as [source|l]; [done|]. simpl.
    apply matches_at_grown; [done|]. apply Hvalid. by left.
  - apply IH. intros l Hl. apply Hvalid. by right.
Qed.

Lemma mapM_toRegExp_matches ignorePatterns h regexPatterns h1 t0 s :
  mapM toRegExp ignorePatterns h = (Ok regexPatterns, h1, t0) →
  valid_refs h ignorePatterns →
  matches h1 regexPatterns s = existsb (pattern_matches h s) ignorePatterns.
Proof.
  revert h regexPatterns h1 t0.
  induction ignorePatterns as [|pattern rest IH]; intros h pats h1 t0.
  { by intros [= <- <- <-]. }
  cbn [mapM]. intros (l & ha & ta & ? & Ha & H & ->)%bind_Ok_inv Hvalid.
  apply bind_Ok_inv in H as (ls & hb & tb & ? & Hb & H & ->).
  injection H as <- <- <-.
  destruct (mapM_toRegExp_inv _ _ _ _ _ _ Hb) as (_ & Hgb & _).
  assert (grown h ha) as Hga.
  { by destruct (toRegExp_inv _ _ _ _ _ _ Ha) as [(_ & ? & _)|(_ & -> & _)];
      [|apply grown_refl]. }
  assert (valid_refs ha rest) as Hvalid'.
  { intros l' Hl'. destruct Hga as (fresh & -> & _). rewrite length_app.
    assert (l' < length h) by (apply Hvalid; by right). lia. }
  cbn [matches existsb]. unfold matches in IH. rewrite (IH _ _ _ _ Hb Hvalid').
  f_equal.
  - destruct pattern as [source|l0]; simpl in Ha |- *.
    + unfold RegExp_new in Ha. destruct (regexp_compile source) as [e|]; [|done].
      injection Ha as <- <- <-. unfold matches_at.
      destruct Hgb as (fresh & -> & _).
      rewrite lookup_app_l by (rewrite length_app; simpl; lia).
      by rewrite lookup_app_r, Nat.sub_diag.
    + injection Ha as <- <- <-. apply matches_at_grown; [done|].
      apply Hvalid. by left.
  - apply existsb_pattern_matches_grown; [done|].
    intros l' Hl'. apply Hvalid. by right.
Qed.

Lemma mapM_toRegExp_Ok ignorePatterns h :
  (∀ source, inl source ∈ ignorePatterns → is_Some (regexp_compile source)) →
  ∃ regexPatterns h1,
    mapM toRegExp ignorePatterns h = (Ok regexPatterns, h1, []).
Proof.
  revert h. induction ignorePatterns as [|pattern rest IH]; intros h Hvalid;
    [by eexists _, _|].
  assert (∃ l ha, toRegExp pattern h = (Ok l, ha, [])) as (l & ha & Ha).
  { destruct pattern as [source|l]; [|by eexists _, _].
    destruct (Hvalid source) as [e He]; [by left|].
    simpl. unfold RegExp_new. rewrite He. by eexists _, _. }
  destruct (IH ha) as (ls & hb & Hb); [intros source Hin; apply Hvalid; by right|].
  exists (l :: ls), hb. cbn [mapM].
  by rewrite (bind_Ok _ _ _ _ _ _ Ha), (bind_Ok _ _ _ _ _ _ Hb).
Qed.

Lemma existsb_subseteq {A} (f : A → bool) (l l' : list A) :
  l ⊆ l' → existsb f l → existsb f l'.
Proof.
  rewrite !existb_True, !Exists_exists. intros Hsub (x & Hx & Hf).
  exists x. split; [by apply Hsub|done].
Qed.

Lemma existsb_same_elements {A} (f : A → bool) (l l' : list A) :
  (∀ x, x ∈ l ↔ x ∈ l') → existsb f l = existsb f l'.
Proof.
  intros Hsame.
  assert (existsb f l ↔ existsb f l') as Hiff.
  { split; apply existsb_subseteq; intros x; apply Hsame. }
  destruct (existsb f l), (existsb f l'); simpl in Hiff; tauto.
Qed.

(** The comparison with the patterns already compiled, whose objects keep no
    state, depends on them only through the paths they match. *)
Lemma compareDirectories_matches_ext dir1 dir2 patterns patterns' h h' :
  Forall (λ l, flagless h l) patterns →
  Forall (λ l, flagless h' l) patterns' →
  (∀ s, matches h patterns s = matches h' patterns' s) →
  visible (compareDirectories dir1 dir2 (inr <$> patterns) h)
  = visible (compareDirectories dir1 dir2 (inr <$> patterns') h').
Proof.
  intros Hp Hp' Hmatch. unfold compareDirectories_def.
  rewrite (bind_Ok _ _ _ _ _ _ (mapM_toRegExp_inr patterns h)),
    (bind_Ok _ _ _ _ _ _ (mapM_toRegExp_inr patterns' h')).
  pose proof (collectPaths_matches_ext join relative argument_limit dir1 dir1
      (fs dir1)
                patterns patterns' h h' Hp Hp' Hmatch) as Hv1.
  destruct (collectPaths dir1 dir1 (fs dir1) patterns h)
    as [[r1 ha] t1] eqn:H1.
  destruct (collectPaths dir1 dir1 (fs dir1) patterns' h')
    as [[r1' ha'] t1'] eqn:H1'.
  apply collectPaths_heap in H1 as Ha; [|done].
  apply collectPaths_heap in H1' as Ha'; [|done].
  injection Hv1 as <- <-. subst ha ha'.
  destruct r1 as [paths1|e];
    [|by rewrite (bind_Throw _ _ _ _ _ _ H1), (bind_Throw _ _ _ _ _ _ H1')].
  rewrite (bind_Ok _ _ _ _ _ _ H1), (bind_Ok _ _ _ _ _ _ H1').
  pose proof (collectPaths_matches_ext join relative argument_limit dir2 dir2
      (fs dir2)
                patterns patterns' h h' Hp Hp' Hmatch) as Hv2.
  destruct (collectPaths dir2 dir2 (fs dir2) patterns h)
    as [[r2 hb] t2] eqn:H2.
  destruct (collectPaths dir2 dir2 (fs dir2) patterns' h')
    as [[r2' hb'] t2'] eqn:H2'.
  injection Hv2 as <- <-.
  destruct r2 as [paths2|e];
    [|by rewrite (bind_Throw _ _ _ _ _ _ H2), (bind_Throw _ _ _ _ _ _ H2')].
  by rewrite (bind_Ok _ _ _ _ _ _ H2), (bind_Ok _ _ _ _ _ _ H2').
Qed.

Lemma stateless_subseteq h (ignorePatterns ignorePatterns' : list (string + loc)) :
  ignorePatterns ⊆ ignorePatterns' →
  stateless h ignorePatterns' → stateless h ignorePatterns.
Proof.
  rewrite !stateless_spec. intros Hsub Hs l Hl. by apply Hs, Hsub.
Qed.

(** X7. The pattern list counts as a set. When its strings compile and its
    objects keep no state, a list with the same elements, in another order
    or repeated, gives the same outcome (the same result or the same error)
    after the same calls. *)
Theorem compareDirectories_pattern_list_order dir1 dir2
    ignorePatterns ignorePatterns' h :
  stateless h ignorePatterns →
  valid_refs h ignorePatterns →
  (∀ source, inl source ∈ ignorePatterns → is_Some (regexp_compile source)) →
  (∀ pattern, pattern ∈ ignorePatterns ↔ pattern ∈ ignorePatterns') →
  visible (compareDirectories dir1 dir2 ignorePatterns h)
  = visible (compareDirectories dir1 dir2 ignorePatterns' h).
Proof.
  intros Hs Hvalid Hcompile Hsame.
  assert (stateless h ignorePatterns') as Hs'.
  { eapply stateless_subseteq; [|done]. intros x. apply Hsame. }
  assert (valid_refs h ignorePatterns') as Hvalid'.
  { intros l Hl. by apply Hvalid, Hsame. }
  destruct (mapM_toRegExp_Ok ignorePatterns h Hcompile) as (pats & h1 & Hc).
  destruct (mapM_toRegExp_Ok ignorePatterns' h) as (pats' & h1' & Hc').
  { intros source Hin. by apply Hcompile, Hsame. }
  rewrite (compareDirectories_compiled _ _ _ _ _ _ _ Hc),
    (compareDirectories_compiled _ _ _ _ _ _ _ Hc').
  apply visible_after, compareDirectories_matches_ext.
  - by apply (mapM_toRegExp_inv _ _ _ _ _ _ Hc).
  - by apply (mapM_toRegExp_inv _ _ _ _ _ _ Hc').
  - intros s. rewrite (mapM_toRegExp_matches _ _ _ _ _ s Hc Hvalid),
      (mapM_toRegExp_matches _ _ _ _ _ s Hc' Hvalid').
    by apply existsb_same_elements.
Qed.

(** X8. Ignoring more never reports more. When the strings of a longer
    pattern list compile and its objects keep no state, and the comparison
    returns with a part of the list, then it returns with the whole list,
    after a sublist of the calls; every common path it reports then was
    reported as common before, and every path it reports for a tree was
    reported for that tree before. *)
Theorem compareDirectories_more_patterns dir1 dir2
    ignorePatterns ignorePatterns' h d h1 t :
  stateless h ignorePatterns' →
  valid_refs h ignorePatterns' →
  (∀ source, inl source ∈ ignorePatterns' → is_Some (regexp_compile source)) →
  ignorePatterns ⊆ ignorePatterns' →
  compareDirectories dir1 dir2 ignorePatterns h = (Ok d, h1, t) →
  ∃ rel rel' h1' t',
    d = rooted join dir1 dir2 rel ∧
    compareDirectories dir1 dir2 ignorePatterns' h
    = (Ok (rooted join dir1 dir2 rel'), h1', t') ∧
    t' `sublist_of` t ∧
    inBoth rel' ⊆ inBoth rel ∧
    onlyInFirst rel' ⊆ onlyInFirst rel ++ inBoth rel ∧
    onlyInSecond rel' ⊆ onlyInSecond rel ++ inBoth rel.
Proof.
  intros Hs' Hvalid' Hcompile Hsub Hcmp.
  assert (stateless h ignorePatterns) as Hs by by eapply stateless_subseteq.
  assert (valid_refs h ignorePatterns) as Hvalid.
  { intros l Hl. by apply Hvalid', Hsub. }
  apply (compareDirectories_inv join relative argument_limit regexp_compile
      fs) in Hcmp
    as (s1 & s2 & Hsnap & _ & ->).
  apply snapshots_inv in Hsnap
    as (pats & ha & t0 & p1 & hb & t1 & p2 & t2 & Hc & H1 & H2 & -> & -> & ->).
  destruct (mapM_toRegExp_inv _ _ _ _ _ _ Hc) as (-> & _ & Hp).
  specialize (Hp Hs).
  assert (hb = ha) as -> by by eapply collectPaths_heap.
  assert (h1 = ha) as -> by by eapply collectPaths_heap.
  destruct (mapM_toRegExp_Ok ignorePatterns' h Hcompile) as (pats' & ha' & Hc').
  destruct (mapM_toRegExp_inv _ _ _ _ _ _ Hc') as (_ & _ & Hp').
  specialize (Hp' Hs').
  assert (∀ s, matches ha pats s → matches ha' pats' s) as Hmono.
  { intros s. rewrite (mapM_toRegExp_matches _ _ _ _ _ s Hc Hvalid),
      (mapM_toRegExp_matches _ _ _ _ _ s Hc' Hvalid').
    by apply existsb_subseteq. }
  destruct (collectPaths_matches_mono join relative argument_limit dir1 dir1
      (fs dir1)
              pats pats' ha ha' p1 Hp Hp' Hmono)
    as (p1' & Hv1 & Hsub1 & Hcalls1); [by rewrite H1|].
  destruct (collectPaths_matches_mono join relative argument_limit dir2 dir2
      (fs dir2)
              pats pats' ha ha' p2 Hp Hp' Hmono)
    as (p2' & Hv2 & Hsub2 & Hcalls2); [by rewrite H2|].
  rewrite H1 in Hcalls1. rewrite H2 in Hcalls2.
  destruct (collectPaths dir1 dir1 (fs dir1) pats' ha')
    as [[r1' hb'] t1'] eqn:H1'.
  apply collectPaths_heap in H1' as Hb'; [|done]. subst hb'.
  destruct (collectPaths dir2 dir2 (fs dir2) pats' ha')
    as [[r2' hc'] t2'] eqn:H2'.
  simpl in Hv1, Hv2, Hcalls1, Hcalls2. subst r1' r2'.
  exists (partition3 (sort p1) (sort p2)), (partition3 (sort p1') (sort p2')),
    hc', (t1' ++ t2').
  split_and!; [done| |cbn [app]; by apply sublist_app|..].
  - by rewrite (compareDirectories_returns _ _ _ _ _ _ _ _ _ _ _ _ _ _ _ _ _ _
                  Hc' H1' H2').
  - intros x. cbn [inBoth partition3]. rewrite !list_elem_of_filter, !elem_of_sort.
    intros [Hx2 Hx1].
    split; [exact (elem_of_sublist _ _ _ Hx2 Hsub2)
           |exact (elem_of_sublist _ _ _ Hx1 Hsub1)].
  - intros x. cbn [onlyInFirst inBoth partition3].
    rewrite elem_of_app, !list_elem_of_filter, !elem_of_sort.
    intros [_ Hx]. pose proof (elem_of_sublist _ _ _ Hx Hsub1).
    destruct (decide (x ∈ p2)); tauto.
  - intros x. cbn [onlyInSecond inBoth partition3].
    rewrite elem_of_app, !list_elem_of_filter, !elem_of_sort.
    intros [_ Hx]. pose proof (elem_of_sublist _ _ _ Hx Hsub2).
    destruct (decide (x ∈ p1)); tauto.
Qed.

End PatternList.

(** ** What [patternsToRegExp] returns *)

Section Fresh.

Context (regexp_compile : string → option (string → nat → option nat)).

(** X9. When every string compiles, [patternsToRegExp] returns one new
    object for each string, in the order of the strings: each has the
    compiled pattern of its string, no flag, and [lastIndex] 0. The objects
    are added to the store after the existing ones, which are left as they
    were, and the file system is not called. *)
Theorem patternsToRegExp_fresh patterns h :
  Forall (λ source, is_Some (regexp_compile source)) patterns →
  ∃ fresh,
    patternsToRegExp regexp_compile patterns h
    = (Ok (seq (length h) (length patterns)), h ++ fresh, []) ∧
    Forall2 (compiled_from regexp_compile) patterns fresh.
Proof.
  unfold patternsToRegExp. intros Hcompile. revert h.
  induction Hcompile as [|source rest [e He] _ IH]; intros h.
  { exists []. by rewrite app_nil_r. }
  destruct (IH (h ++ [mkRegExp e false false 0])) as (fresh & Hrest & Hfresh).
  exists (mkRegExp e false false 0 :: fresh). split; [|by constructor].
  cbn [mapM].
  assert (RegExp_new regexp_compile source h
          = (Ok (length h), h ++ [mkRegExp e false false 0], [])) as Hnew.
  { unfold RegExp_new. by rewrite He. }
  rewrite (bind_Ok _ _ _ _ _ _ Hnew), (bind_Ok _ _ _ _ _ _ Hrest).
  rewrite length_app, Nat.add_1_r, <-app_assoc. done.
Qed.

End Fresh.

(** ** What the reports list *)

Lemma foldl_console_log (console paths : list string) :
  foldl (λ console path, console_log console (" - " +:+ path)) console paths
  = console ++ (bullet <$> paths).
Proof.
  revert console. induction paths as [|path rest IH]; intros console; simpl.
  - by rewrite app_nil_r.
  - rewrite IH. unfold console_log. by rewrite <-app_assoc.
Qed.

Lemma printDifferences_eq resolve dir1 dir2 diff :
  printDifferences resolve dir1 dir2 diff
  = match onlyInFirst diff, onlyInSecond diff with
    | [], [] => identical_report
    | _, _ =>
        ["Directory Structure Comparison:"; "==============================="]
        ++ only_in_section (resolve dir1) (onlyInFirst diff)
        ++ only_in_section (resolve dir2) (onlyInSecond diff)
        ++ [count_line diff]
    end.
Proof.
  unfold printDifferences. cbv zeta. rewrite !foldl_console_log.
  unfold console_log, count_line.
  destruct (onlyInFirst diff) as [|x1 l1], (onlyInSecond diff) as [|x2 l2];
    repeat case_decide; simpl in *; try lia; try tauto;
    by rewrite <-?app_assoc.
Qed.

Lemma printCommonItems_eq resolve dir1 dir2 diff :
  printCommonItems resolve dir1 dir2 diff
  = match inBoth diff with
    | [] => no_common_report
    | _ =>
        ["Common Directory Structure:"; "==========================";
         newline +:+ "Files and directories in both " +:+ quote
         +:+ resolve dir1 +:+ quote +:+ " and " +:+ quote +:+ resolve dir2
         +:+ quote +:+ ":"]
        ++ (bullet <$> inBoth diff)
        ++ [newline +:+ "Found " +:+ pretty (length (inBoth diff))
            +:+ " common paths"]
    end.
Proof.
  unfold printCommonItems. cbv zeta. rewrite !foldl_console_log.
  unfold console_log.
  destruct (inBoth diff) as [|x l]; case_decide; simpl in *; try lia;
    by rewrite <-?app_assoc.
Qed.

Lemma filter_is_bullet (paths : list string) :
  filter (λ message, is_bullet message) (bullet <$> paths) = bullet <$> paths.
Proof.
  induction paths as [|path rest IH]; [done|].
  rewrite fmap_cons, filter_cons_True; [by rewrite IH|].
  unfold is_bullet, bullet. simpl. by destruct path.
Qed.

Lemma filter_is_bullet_section root paths :
  filter (λ message, is_bullet message) (only_in_section root paths)
  = bullet <$> paths.
Proof.
  destruct paths as [|path rest]; [done|]. unfold only_in_section.
  rewrite filter_cons_False by (by intros []). apply filter_is_bullet.
Qed.

(** X10. Among the calls of [console.log] that [printDifferences] makes,
    in order, those whose message starts with [" - "] are one call for each
    path of [onlyInFirst] and then one for each path of [onlyInSecond], in
    the order of the lists, with the path after the [" - "]; the message of
    no other call starts so, and no call is made for a path of [inBoth]. *)
Theorem printDifferences_bullets resolve dir1 dir2 diff :
  filter (λ message, is_bullet message)
    (printDifferences resolve dir1 dir2 diff)
  = bullet <$> (onlyInFirst diff ++ onlyInSecond diff).
Proof.
  rewrite printDifferences_eq.
  assert (filter (λ message, is_bullet message)
            (["Directory Structure Comparison:";
              "==============================="]
             ++ only_in_section (resolve dir1) (onlyInFirst diff)
             ++ only_in_section (resolve dir2) (onlyInSecond diff)
             ++ [count_line diff])
          = bullet <$> (onlyInFirst diff ++ onlyInSecond diff)) as H.
  { rewrite !filter_app, !filter_is_bullet_section, fmap_app.
    rewrite (filter_cons_False _ (count_line diff)) by (by intros []).
    by rewrite app_nil_r. }
  destruct (onlyInFirst diff), (onlyInSecond diff); done.
Qed.

(** X11. Among the calls of [console.log] that [printCommonItems] makes,
    in order, those whose message starts with [" - "] are one call for each
    path of [inBoth], in the order of the list, with the path after the
    [" - "]; the message of no other call starts so. *)
Theorem printCommonItems_bullets resolve dir1 dir2 diff :
  filter (λ message, is_bullet message)
    (printCommonItems resolve dir1 dir2 diff)
  = bullet <$> inBoth diff.
Proof.
  rewrite printCommonItems_eq. destruct (inBoth diff) as [|path rest] eqn:Hb;
    [done|].
  rewrite <-Hb, !filter_app, filter_is_bullet.
  rewrite (filter_cons_False _ (newline +:+ _)) by (by intros []).
  by rewrite app_nil_r.
Qed.

(** ** What the reports say of the two trees *)

Lemma filter_nil_iff {A} (P : A → Prop) `{!∀ x, Decision (P x)} (l : list A) :
  filter P l = [] ↔ ∀ x, x ∈ l → ¬ P x.
Proof.
  split.
  - intros Hnil x Hx HP.
    assert (x ∈ filter P l) as Hin by by apply list_elem_of_filter.
    rewrite Hnil in Hin. by apply elem_of_nil in Hin.
  - intros Hall. apply elem_of_nil_inv. intros x [HP Hx]%list_elem_of_filter.
    by apply (Hall x).
Qed.

Section Verdicts.

Context (join relative : string → string → string).
Context (argument_limit : string → N).
Context (regexp_compile : string → option (string → nat → option nat)).
Context (fs : string → node).

Local Abbreviation snapshots := (snapshots join relative argument_limit
    regexp_compile fs).
Local Abbreviation compareDirectories :=
  (compareDirectories join relative argument_limit regexp_compile fs).

(** X12. On the result of a comparison, the difference report is the one
    that says the directories are identical exactly when the two traversals
    collected the same set of root-relative paths. *)
Theorem printDifferences_identical resolve dir1 dir2 ignorePatterns h d h' t :
  compareDirectories dir1 dir2 ignorePatterns h = (Ok d, h', t) →
  ∃ s1 s2,
    snapshots dir1 dir2 ignorePatterns h = (Ok (s1, s2), h', t) ∧
    (printDifferences resolve dir1 dir2 d = identical_report ↔
     list_to_set s1 =@{gset string} list_to_set s2).
Proof.
  intros (s1 & s2 & Hsnap & _ & ->)%compareDirectories_inv.
  exists s1, s2. split; [done|].
  rewrite printDifferences_eq. unfold count_line.
  cbn [rooted_def partition3 onlyInFirst onlyInSecond inBoth].
  assert (filter (λ path, path ∉ s2) s1 = [] ∧ filter (λ path, path ∉ s1) s2 = []
          ↔ list_to_set s1 =@{gset string} list_to_set s2) as <-.
  { rewrite !filter_nil_iff, set_eq. setoid_rewrite elem_of_list_to_set.
    split.
    - intros [H1 H2] x. specialize (H1 x). specialize (H2 x).
      destruct (decide (x ∈ s1)), (decide (x ∈ s2)); tauto.
    - intros Heq. split; intros x; specialize (Heq x); tauto. }
  destruct (filter (λ path, path ∉ s2) s1) as [|x1 l1],
    (filter (λ path, path ∉ s1) s2) as [|x2 l2]; simpl.
  - done.
  - split; [|by intros [_ [=]]]. intros Heq. apply (f_equal length) in Heq.
    simpl in Heq. lia.
  - split; [|by intros [[=] _]]. intros Heq. apply (f_equal length) in Heq.
    simpl in Heq. rewrite length_app in Heq. simpl in Heq. lia.
  - split; [|by intros [[=] _]]. intros Heq. apply (f_equal length) in Heq.
    simpl in Heq. rewrite length_app in Heq. simpl in Heq. lia.
Qed.

(** X13. On the result of a comparison, the report of the common items is
    the one that says nothing is common exactly when the two traversals
    collected no root-relative path in common. *)
Theorem printCommonItems_none resolve dir1 dir2 ignorePatterns h d h' t :
  compareDirectories dir1 dir2 ignorePatterns h = (Ok d, h', t) →
  ∃ s1 s2,
    snapshots dir1 dir2 ignorePatterns h = (Ok (s1, s2), h', t) ∧
    (printCommonItems resolve dir1 dir2 d = no_common_report ↔
     list_to_set s1 ##@{gset string} list_to_set s2).
Proof.
  intros (s1 & s2 & Hsnap & _ & ->)%compareDirectories_inv.
  exists s1, s2. split; [done|].
  rewrite printCommonItems_eq.
  cbn [rooted_def partition3 onlyInFirst onlyInSecond inBoth].
  assert (filter (λ path, path ∈ s2) s1 = []
          ↔ list_to_set s1 ##@{gset string} list_to_set s2) as <-.
  { rewrite filter_nil_iff, elem_of_disjoint.
    by setoid_rewrite elem_of_list_to_set. }
  destruct (filter (λ path, path ∈ s2) s1) as [|x l]; simpl; [done|].
  split; [|done]. intros Heq. apply (f_equal length) in Heq.
  simpl in Heq. rewrite length_app in Heq. simpl in Heq. lia.
Qed.

End Verdicts.

(** ** What [loadConfig] writes to the console *)

Lemma loadConfig_cases existsSync readFileSync JSON_parse configPath :
  let config := (loadConfig existsSync readFileSync JSON_parse configPath).1 in
  let console := (loadConfig existsSync readFileSync JSON_parse configPath).2 in
  (console = [] ∧ existsSync configPath = true ∧
   ∃ content items,
     readFileSync configPath = Some content ∧
     JSON_parse content = Some config ∧
     get_ignorePaths config = Some (Some (JArray items))) ∨
  (config = emptyConfig ∧ ∃ message, console = [message]).
Proof.
  cbv zeta. unfold loadConfig.
  destruct (existsSync configPath); [|right; by eauto].
  destruct (readFileSync configPath) as [content|]; simpl; [|right; by eauto].
  destruct (JSON_parse content) as [v|] eqn:Hparse; simpl; [|right; by eauto].
  destruct (get_ignorePaths v) as [[[]|]|] eqn:Hget; simpl;
    try (right; by eauto).
  left. split_and!; [done..|]. by eexists content, _.
Qed.

(** X14. [loadConfig] always returns a value whose [ignorePaths] is an
    array. It writes nothing exactly when it returns the value parsed from
    the file that exists and can be read; in every other case it returns the
    empty configuration and writes one message. *)
Theorem loadConfig_console existsSync readFileSync JSON_parse configPath :
  let config := (loadConfig existsSync readFileSync JSON_parse configPath).1 in
  let console := (loadConfig existsSync readFileSync JSON_parse configPath).2 in
  (∃ items, get_ignorePaths config = Some (Some (JArray items))) ∧
  (console = [] ∧ existsSync configPath = true ∧
   (∃ content, readFileSync configPath = Some content ∧
               JSON_parse content = Some config) ∨
   config = emptyConfig ∧ ∃ message, console = [message]).
Proof.
  cbv zeta.
  destruct (loadConfig_cases existsSync readFileSync JSON_parse configPath)
    as [(Hconsole & Hexists & content & items & Hread & Hparse & Hget)
       |(Hconfig & message & Hconsole)].
  - split; [by exists items|]. left. split_and!; [done..|]. by exists content.
  - split; [|right; by eauto]. rewrite Hconfig. by exists [].
Qed.

(** ** The order in which a directory is listed *)

Section Listing.

Context (join relative : string → string → string).
Context (argument_limit : string → N).

Local Abbreviation collectPaths := (collectPaths join relative argument_limit).
Local Abbreviation collectEntries := (collectEntries join relative
    argument_limit).

Lemma collectEntries_value_acc baseDir currentDir patterns entries paths h :
  value (collectEntries baseDir currentDir patterns entries paths h)
  = match value (collectEntries baseDir currentDir patterns entries [] h) with
    | Ok found => Ok (paths ++ found)
    | Throw e => Throw e
    end.
Proof.
  rewrite collectEntries_acc.
  by destruct (collectEntries _ _ _ entries [] h) as [[[?|?] ?] ?].
Qed.

(** With patterns that keep no state, the loop goes through the entries one
    by one, each adding what it contributes. *)
Lemma collectEntries_step baseDir currentDir patterns x entries paths h :
  Forall (λ l, flagless h l) patterns →
  value (collectEntries baseDir currentDir patterns (x :: entries) paths h)
  = match value (collectEntries baseDir currentDir patterns [x] [] h) with
    | Ok found =>
        value (collectEntries baseDir currentDir patterns entries
                 (paths ++ found) h)
    | Throw e => Throw e
    end.
Proof.
  intros Hp.
  destruct (collectEntries_flagless join relative argument_limit patterns
      baseDir currentDir
              [x] paths h) as [Hheap _]; [|done|].
  { apply Forall_forall. intros. apply collectPaths_flagless. }
  change (x :: entries) with ([x] ++ entries).
  rewrite collectEntries_app. unfold bind.
  rewrite collectEntries_acc in Hheap |- *.
  destruct (collectEntries _ _ _ [x] [] h) as [[[found|e] h1] t1];
    simpl in Hheap |- *; [subst h1|done].
  by destruct (collectEntries _ _ _ entries _ h) as [[??]?].
Qed.

Section Reorder.

Context (baseDir : string) (patterns : list loc) (h : Heap).
Context (Hp : Forall (λ l, flagless h l) patterns).

Local Abbreviation permuted :=
  (listed_alike join relative argument_limit baseDir patterns h).

Lemma collectEntries_reorder_one currentDir entry child child' found :
  reorder child child' → permuted child child' →
  value (collectEntries baseDir currentDir patterns [(entry, child)] [] h)
  = Ok found →
  ∃ found',
    value (collectEntries baseDir currentDir patterns [(entry, child')] [] h)
    = Ok found' ∧
    found ≡ₚ found'.
Proof.
  intros Hre Hperm. rewrite !collectEntries_cons_flagless by done. cbv zeta.
  destruct (matches h patterns _); [intros [= <-]; by exists []|].
  specialize (Hperm (join currentDir entry)).
  inversion Hre as [|entries shuffled entries' Hsh Hpe| |]; subst; [by eauto| | |done].
  - destruct (collectPaths _ _ (Dir entries) patterns h)
      as [[[sub|e] h1] t1] eqn:H1; [|done].
    destruct (Hperm sub eq_refl) as (sub' & Hv & Hsub).
    destruct (collectPaths _ _ (Dir entries') patterns h)
      as [[r' h1'] t1'] eqn:H1'.
    simpl in Hv. subst r'. case_decide as Hfits; [|done].
    rewrite decide_True by (by rewrite <-Hsub).
    cbn [value after]. intros [= <-]. by exists sub'.
  - by rewrite collectPaths_eq.
Qed.

Lemma collectEntries_reorder_below currentDir entries shuffled acc acc' paths :
  Forall (λ x, ∀ n', reorder x.2 n' → permuted x.2 n') entries →
  Forall2 (λ x y, x.1 = y.1 ∧ reorder x.2 y.2) entries shuffled →
  acc ≡ₚ acc' →
  value (collectEntries baseDir currentDir patterns entries acc h) = Ok paths →
  ∃ paths',
    value (collectEntries baseDir currentDir patterns shuffled acc' h)
    = Ok paths' ∧
    paths ≡ₚ paths'.
Proof.
  intros Hentries Hsh. revert acc acc' paths Hentries.
  induction Hsh as [|[entry child] [entry' child'] rest rest' [Hname Hre] _ IH];
    intros acc acc' paths Hentries Hacc.
  { intros [= <-]. by exists acc'. }
  simpl in Hname, Hre. subst entry'.
  apply Forall_cons in Hentries as [Hchild Hrest].
  rewrite (collectEntries_step _ _ _ (entry, child) rest acc h Hp),
    (collectEntries_step _ _ _ (entry, child') rest' acc' h Hp).
  destruct (value (collectEntries _ _ _ [(entry, child)] [] h))
    as [found|e] eqn:Hone; [|done].
  destruct (collectEntries_reorder_one currentDir entry child child' found
              Hre (Hchild child' Hre) Hone) as (found' & -> & Hfound).
  apply IH; [done|]. by apply Permutation_app.
Qed.

Lemma collectEntries_reorder_here currentDir entries entries' acc acc' paths :
  entries ≡ₚ entries' →
  acc ≡ₚ acc' →
  value (collectEntries baseDir currentDir patterns entries acc h) = Ok paths →
  ∃ paths',
    value (collectEntries baseDir currentDir patterns entries' acc' h)
    = Ok paths' ∧
    paths ≡ₚ paths'.
Proof.
  intros Hperm. revert acc acc' paths.
  induction Hperm as [|x l l' _ IH|x y l|l l' l'' _ IH1 _ IH2];
    intros acc acc' paths Hacc.
  - intros [= <-]. by exists acc'.
  - rewrite (collectEntries_step _ _ _ x l acc h Hp),
      (collectEntries_step _ _ _ x l' acc' h Hp).
    destruct (value (collectEntries _ _ _ [x] [] h)) as [found|e]; [|done].
    apply IH. by apply Permutation_app.
  - rewrite (collectEntries_step _ _ _ y (x :: l) acc h Hp),
      (collectEntries_step _ _ _ x (y :: l) acc' h Hp).
    destruct (value (collectEntries _ _ _ [x] [] h)) as [fx|e] eqn:Hx,
      (value (collectEntries _ _ _ [y] [] h)) as [fy|e'] eqn:Hy;
      rewrite ?(collectEntries_step _ _ _ x l _ h Hp),
        ?(collectEntries_step _ _ _ y l _ h Hp), ?Hx, ?Hy; try done.
    rewrite collectEntries_value_acc,
      (collectEntries_value_acc _ _ _ _ ((acc' ++ fx) ++ fy)).
    destruct (value (collectEntries _ _ _ l [] h)) as [found|e]; [|done].
    intros [= <-]. eexists. split; [done|].
    rewrite Hacc, <-!app_assoc. f_equiv. rewrite !app_assoc. f_equiv.
    apply Permutation_app_comm.
  - intros H1. destruct (IH1 acc acc paths (reflexivity _) H1)
      as (paths1 & H2 & Hperm1).
    destruct (IH2 acc acc' paths1 Hacc H2) as (paths2 & H3 & Hperm2).
    exists paths2. split; [done|]. by etrans.
Qed.

Lemma collectPaths_reorder n n' : reorder n n' → permuted n n'.
Proof.
  revert n'. induction n as [|entries IH|code|code] using node_ind';
    intros n' Hre currentDir paths; rewrite collectPaths_eq; try done.
  inversion Hre as [|? shuffled entries' Hsh Hperm| |]; subst.
  rewrite collectPaths_eq. cbn [value after]. intros Hentries.
  destruct (collectEntries_reorder_below currentDir entries shuffled [] []
              paths IH Hsh (reflexivity _) Hentries) as (paths1 & H1 & Hperm1).
  destruct (collectEntries_reorder_here currentDir shuffled entries' [] []
              paths1 Hperm (reflexivity _) H1) as (paths2 & H2 & Hperm2).
  exists paths2. split; [done|]. by etrans.
Qed.

End Reorder.

End Listing.

Section ListingOrder.

Context (join relative : string → string → string).
Context (argument_limit : string → N).
Context (regexp_compile : string → option (string → nat → option nat)).

Local Abbreviation collectPaths := (collectPaths join relative argument_limit).
Local Abbreviation compareDirectories :=
  (compareDirectories join relative argument_limit regexp_compile).

(** X15. The result does not depend on the order in which [readdirSync]
    lists a directory. When no RegExp object of the pattern list carries [g]
    or [y] and the comparison returns, it returns the same three lists on
    trees that hold the same entries listed in another order, at the roots
    or anywhere below. *)
Theorem compareDirectories_listing_order fs fs' dir1 dir2 ignorePatterns h
    d h' t :
  stateless h ignorePatterns →
  reorder (fs dir1) (fs' dir1) →
  reorder (fs dir2) (fs' dir2) →
  compareDirectories fs dir1 dir2 ignorePatterns h = (Ok d, h', t) →
  ∃ t', compareDirectories fs' dir1 dir2 ignorePatterns h = (Ok d, h', t').
Proof.
  intros Hs Hre1 Hre2 (s1 & s2 & Hsnap & _ & ->)%compareDirectories_inv.
  apply snapshots_inv in Hsnap
    as (pats & h1 & t0 & p1 & h2 & t1 & p2 & t2 & Hc & H1 & H2 & -> & -> & ->).
  destruct (mapM_toRegExp_inv _ _ _ _ _ _ Hc) as (_ & _ & Hp).
  specialize (Hp Hs).
  assert (h2 = h1) as -> by by eapply collectPaths_heap.
  assert (h' = h1) as -> by by eapply collectPaths_heap.
  destruct (collectPaths_reorder join relative argument_limit dir1 pats h1 Hp
      _ _ Hre1 dir1 p1)
    as (p1' & Hv1 & Hperm1); [by rewrite H1|].
  destruct (collectPaths_reorder join relative argument_limit dir2 pats h1 Hp
      _ _ Hre2 dir2 p2)
    as (p2' & Hv2 & Hperm2); [by rewrite H2|].
  destruct (collectPaths dir1 dir1 (fs' dir1) pats h1)
    as [[r1' ha] t1'] eqn:H1'.
  apply collectPaths_heap in H1' as Ha; [|done]. subst ha.
  destruct (collectPaths dir2 dir2 (fs' dir2) pats h1)
    as [[r2' hb] t2'] eqn:H2'.
  apply collectPaths_heap in H2' as Hb; [|done]. subst hb.
  simpl in Hv1, Hv2. subst r1' r2'.
  exists (t0 ++ t1' ++ t2').
  rewrite (compareDirectories_returns _ _ _ _ _ _ _ _ _ _ _ _ _ _ _ _ _ _
             Hc H1' H2').
  assert (∀ p p' : list string, p ≡ₚ p' → sort p' = sort p) as Hsort.
  { intros p p' Hperm. apply sort_unique.
    - by rewrite sort_Permutation.
    - apply StronglySorted_Sorted, sort_StronglySorted. }
  by rewrite (Hsort _ _ Hperm1), (Hsort _ _ Hperm2).
Qed.

End ListingOrder.

(** ** An empty tree *)

Section Empty.

Context (join relative : string → string → string).
Context (argument_limit : string → N).
Context (regexp_compile : string → option (string → nat → option nat)).
Context (fs : string → node).

Local Abbreviation collectPaths := (collectPaths join relative argument_limit).
Local Abbreviation compareDirectories :=
  (compareDirectories join relative argument_limit regexp_compile fs).

Lemma filter_not_elem_nil (l : list string) : filter (λ x, x ∉ []) l = l.
Proof.
  induction l as [|x l IH]; [done|].
  rewrite filter_cons_True by apply not_elem_of_nil. by rewrite IH.
Qed.

Lemma filter_elem_nil (l : list string) : filter (λ x, x ∈ []) l = [].
Proof.
  apply filter_nil_iff. intros x _. apply not_elem_of_nil.
Qed.

(** X16. A comparison that returns, one of whose roots is an empty
    directory, finds nothing in common and nothing only in the empty root;
    every path collected from the other root, in order, is only there. *)
Theorem compareDirectories_empty_root dir1 dir2 ignorePatterns h d h' t :
  compareDirectories dir1 dir2 ignorePatterns h = (Ok d, h', t) →
  (fs dir2 = Dir [] →
   inBoth d = [] ∧ onlyInSecond d = [] ∧
   ∃ regexPatterns h1 t0 paths1 t1,
     mapM (toRegExp regexp_compile) ignorePatterns h
     = (Ok regexPatterns, h1, t0) ∧
     collectPaths dir1 dir1 (fs dir1) regexPatterns h1 = (Ok paths1, h', t1) ∧
     onlyInFirst d = join dir1 <$> sort paths1) ∧
  (fs dir1 = Dir [] →
   inBoth d = [] ∧ onlyInFirst d = [] ∧
   ∃ regexPatterns h1 t0 paths2 t2,
     mapM (toRegExp regexp_compile) ignorePatterns h
     = (Ok regexPatterns, h1, t0) ∧
     collectPaths dir2 dir2 (fs dir2) regexPatterns h1 = (Ok paths2, h', t2) ∧
     onlyInSecond d = join dir2 <$> sort paths2).
Proof.
  intros (s1 & s2 & Hsnap & _ & ->)%compareDirectories_inv.
  apply snapshots_inv in Hsnap
    as (pats & h1 & t0 & p1 & h2 & t1 & p2 & t2 & Hc & H1 & H2 & -> & -> & ->).
  cbn [rooted_def partition3 onlyInFirst onlyInSecond inBoth].
  split; intros Hempty.
  - rewrite Hempty, collectPaths_eq in H2. injection H2 as <- <- <-.
    rewrite filter_elem_nil, filter_not_elem_nil. split_and!; [done..|].
    by exists pats, h1, t0, p1, t1.
  - rewrite Hempty, collectPaths_eq in H1. injection H1 as <- <- <-.
    rewrite filter_not_elem_nil. split_and!; [done..|].
    by exists pats, h1, t0, p2, t2.
Qed.

End Empty.

(** ** The script *)

Section ScriptProperties.

Context (join relative : string → string → string).
Context (argument_limit : string → N).
Context (regexp_compile : string → option (string → nat → option nat)).
Context (fs : string → node).
Context (resolve : string → string).
Context (existsSync : string → bool).
Context (readFileSync : string → option string).
Context (JSON_parse : string → option json).
Context (configPath : string).
Context (ToString : json → option string).

Local Abbreviation loadConfig :=
  (loadConfig existsSync readFileSync JSON_parse configPath).
Local Abbreviation compareDirectories :=
  (compareDirectories join relative argument_limit regexp_compile fs).
Local Abbreviation pattern_source := (pattern_source ToString).
Local Abbreviation sources_of := (sources_of ToString).
Local Abbreviation script :=
  (script join relative argument_limit regexp_compile fs resolve existsSync
      readFileSync
     JSON_parse configPath ToString).

Lemma get_ignorePaths_emptyConfig :
  get_ignorePaths emptyConfig = Some (Some (JArray [])).
Proof. done. Qed.

Lemma sources_of_strings sources :
  sources_of (JString <$> sources) = (sources, true).
Proof.
  induction sources as [|source rest IH]; [done|].
  rewrite fmap_cons. simpl. by rewrite IH.
Qed.

Lemma sources_of_false items sources :
  sources_of items = (sources, false) →
  ∃ item, item ∈ items ∧ pattern_source item = None.
Proof.
  revert sources. induction items as [|item rest IH]; intros sources; [done|].
  simpl. destruct (pattern_source item) as [source|] eqn:Hitem.
  - destruct (sources_of rest) as [sources' all] eqn:Hrest.
    intros [= <- ->]. destruct (IH _ eq_refl) as (item' & Hin & Hnone).
    exists item'. split; [by right|done].
  - intros _. exists item. split; [by left|done].
Qed.

(** X17. The script ends on a TypeError only when an item of the array
    [ignorePaths] of the parsed file is not a string and cannot be converted
    to one: the value [loadConfig] returns always has an array to map
    over. *)
Theorem script_TypeError h :
  run_completion (script h) = TypeError →
  ∃ content v items item,
    existsSync configPath = true ∧
    readFileSync configPath = Some content ∧
    JSON_parse content = Some v ∧
    get_ignorePaths v = Some (Some (JArray items)) ∧
    item ∈ items ∧ (∀ source, item ≠ JString source) ∧ ToString item = None.
Proof.
  unfold script_def.
  destruct (loadConfig_cases existsSync readFileSync JSON_parse configPath)
    as [(Hconsole & Hexists & content & items & Hread & Hparse & Hget)
       |(Hconfig & message & Hconsole)];
    destruct loadConfig as [config messages]; cbn [fst snd] in *.
  - rewrite Hget. destruct (sources_of items) as [sources all] eqn:Hsources.
    destruct (patternsToRegExp regexp_compile sources h)
      as [[[refs|e] h1] t0]; [|done].
    destruct all.
    { by destruct (compareDirectories_def _ _ _ _ _ _ _ _ h1) as [[[?|?] ?] ?]. }
    intros _. apply sources_of_false in Hsources as (item & Hin & Hnone).
    exists content, config, items, item. split_and!; try done.
    + by intros source ->.
    + by destruct item.
  - subst config. rewrite get_ignorePaths_emptyConfig. simpl.
    by destruct (compareDirectories_def _ _ _ _ _ _ _ _ h) as [[[?|?] ?] ?].
Qed.

(** X18. When the items of [ignorePaths] are strings, the script is
    [compareDirectories] on the two resolved roots with these strings as the
    pattern list, followed by [printCommonItems]: the objects that
    [patternsToRegExp] makes of the strings stand for the strings. What
    [loadConfig] wrote comes first on the console; when the comparison
    throws, nothing else is written. *)
Theorem script_compare sources h :
  get_ignorePaths loadConfig.1 = Some (Some (JArray (JString <$> sources))) →
  let dir1 := resolve "../oc-esim-service" in
  let dir2 := resolve "../oc-catalogue-service" in
  script h
  = match compareDirectories dir1 dir2 (inl <$> sources) h with
    | (Ok diff, h', t) =>
        mkRun Normal (loadConfig.2 ++ printCommonItems resolve dir1 dir2 diff)
          t h'
    | (Throw e, h', t) => mkRun (Uncaught e) loadConfig.2 t h'
    end.
Proof.
  intros Hget. cbv zeta. unfold script_def.
  destruct loadConfig as [config messages]. simpl in Hget |- *.
  rewrite Hget, sources_of_strings, patternsToRegExp_mapM.
  destruct (mapM (toRegExp regexp_compile) (inl <$> sources) h)
    as [[[refs|e] h1] t0] eqn:Hc.
  - rewrite (compareDirectories_compiled join relative argument_limit
      regexp_compile fs
               _ _ _ _ _ _ _ Hc).
    by destruct (compareDirectories_def _ _ _ _ _ _ _ _ h1) as [[[?|?] ?] ?].
  - unfold compareDirectories_def. by rewrite (bind_Throw _ _ _ _ _ _ Hc).
Qed.

End ScriptProperties.

(** ** The errors of a comparison *)

Section Throws.

Context (join relative : string → string → string).
Context (argument_limit : string → N).
Context (regexp_compile : string → option (string → nat → option nat)).
Context (fs : string → node).

Local Abbreviation collectPaths := (collectPaths join relative argument_limit).
Local Abbreviation toRegExp := (toRegExp regexp_compile).
Local Abbreviation compareDirectories :=
  (compareDirectories join relative argument_limit regexp_compile fs).

Lemma mapM_toRegExp_Throw ignorePatterns h e h1 t0 :
  mapM toRegExp ignorePatterns h = (Throw e, h1, t0) →
  ∃ source,
    e = SyntaxError source ∧ inl source ∈ ignorePatterns ∧
    regexp_compile source = None ∧ t0 = [].
Proof.
  revert h. induction ignorePatterns as [|pattern rest IH]; intros h; [done|].
  cbn [mapM]. destruct (toRegExp pattern h) as [[[l|e'] ha] ta] eqn:Ha.
  - rewrite (bind_Ok _ _ _ _ _ _ Ha).
    assert (ta = []) as ->
      by (by destruct (toRegExp_inv _ _ _ _ _ _ Ha) as [(-> & _)|(-> & _)]).
    destruct (mapM toRegExp rest ha) as [[[ls|e''] hb] tb] eqn:Hb.
    { by rewrite (bind_Ok _ _ _ _ _ _ Hb). }
    rewrite (bind_Throw _ _ _ _ _ _ Hb). cbn [value heap calls app].
    intros [= <- <- <-]. destruct (IH _ Hb) as (source & -> & Hin & Hnone & ->).
    exists source. split_and!; [done|by right|done..].
  - rewrite (bind_Throw _ _ _ _ _ _ Ha). intros [= <- <- <-].
    destruct pattern as [source|l]; simpl in Ha; [|done].
    unfold RegExp_new in Ha. destruct (regexp_compile source) eqn:Hsource;
      [done|].
    injection Ha as <- _ <-. exists source. split_and!; [done|by left|done..].
Qed.

(** X19. A comparison whose pattern list holds no RegExp object with [g] or
    [y] and that throws, throws one of three errors: the SyntaxError of a
    string of the list that does not compile, before any call of the file
    system; the RangeError of the call of [push] on line 62; or the error of
    a call of [readdirSync] or [statSync], with the path of that call, which
    is then the last call made. *)
Theorem compareDirectories_throws dir1 dir2 ignorePatterns h e h' t :
  stateless h ignorePatterns →
  compareDirectories dir1 dir2 ignorePatterns h = (Throw e, h', t) →
  (∃ source,
     e = SyntaxError source ∧ inl source ∈ ignorePatterns ∧
     regexp_compile source = None ∧ t = []) ∨
  e = RangeError ∨
  thrown_last e t.
Proof.
  intros _. unfold compareDirectories_def.
  destruct (mapM toRegExp ignorePatterns h) as [[[pats|e0] h1] t0] eqn:Hc.
  - rewrite (bind_Ok _ _ _ _ _ _ Hc).
    destruct (collectPaths dir1 dir1 (fs dir1) pats h1)
      as [[[p1|e1] h2] t1] eqn:H1.
    + rewrite (bind_Ok _ _ _ _ _ _ H1).
      destruct (collectPaths dir2 dir2 (fs dir2) pats h2)
        as [[[p2|e2] h3] t2] eqn:H2.
      * by rewrite (bind_Ok _ _ _ _ _ _ H2).
      * rewrite (bind_Throw _ _ _ _ _ _ H2). cbn [value heap calls].
        intros [= <- <- <-]. right.
        apply collectPaths_Throw_last in H2 as [?|?]; [by left|right].
        by apply thrown_last_after, thrown_last_after.
    + rewrite (bind_Throw _ _ _ _ _ _ H1). cbn [value heap calls].
      intros [= <- <- <-]. right.
      apply collectPaths_Throw_last in H1 as [?|?]; [by left|right].
      by apply thrown_last_after.
  - rewrite (bind_Throw _ _ _ _ _ _ Hc). intros [= <- <- <-]. left.
    by apply mapM_toRegExp_Throw in Hc.
Qed.

End Throws.

(** ** When a comparison returns *)

Section Returns.

Context (join relative : string → string → string).
Context (argument_limit : string → N).
Context (regexp_compile : string → option (string → nat → option nat)).
Context (fs : string → node).

Local Abbreviation collectPaths := (collectPaths join relative argument_limit).
Local Abbreviation collectEntries := (collectEntries join relative
    argument_limit).
Local Abbreviation toRegExp := (toRegExp regexp_compile).
Local Abbreviation compareDirectories :=
  (compareDirectories join relative argument_limit regexp_compile fs).

Lemma collectEntries_length baseDir currentDir patterns entries paths h
    paths' h' t :
  Forall (λ x, ∀ currentDir h paths h' t,
            collectPaths baseDir currentDir x.2 patterns h = (Ok paths, h', t) →
            length paths ≤ files_below x.2) entries →
  collectEntries baseDir currentDir patterns entries paths h
  = (Ok paths', h', t) →
  length paths' ≤ length paths + files_below (Dir entries).
Proof.
  intros Hentries. revert paths h t.
  induction Hentries as [|[entry child] rest Hchild _ IH]; intros paths h t.
  { intros [= <- <- <-]. simpl. lia. }
  rewrite collectEntries_cons. cbv zeta. simpl in Hchild.
  cbn [files_below sum_list_with] in IH |- *.
  destruct (some_test_Ok patterns (relative baseDir (join currentDir entry)) h)
    as (ignored & h1 & ->).
  destruct ignored.
  { destruct (collectEntries _ _ _ rest paths h1) as [[r h2] t2] eqn:Hrest.
    intros [= -> <- <-]. apply IH in Hrest. lia. }
  destruct child as [|sub_entries|code|code]; [| | |done].
  - destruct (collectEntries _ _ _ rest _ h1) as [[r h2] t2] eqn:Hrest.
    intros [= -> <- <-]. apply IH in Hrest.
    rewrite length_app in Hrest. simpl in *. lia.
  - destruct (collectPaths _ _ (Dir sub_entries) _ h1)
      as [[[sub|e] h2] t2] eqn:Hsub; [|done].
    case_decide; [|done].
    destruct (collectEntries _ _ _ rest _ h2) as [[r h3] t3] eqn:Hrest.
    intros [= -> <- <-]. apply IH in Hrest. apply Hchild in Hsub.
    rewrite length_app in Hrest. lia.
  - by rewrite collectPaths_eq.
Qed.

(** A traversal returns no more paths than there are files. *)
Lemma collectPaths_length baseDir currentDir n patterns h paths h' t :
  collectPaths baseDir currentDir n patterns h = (Ok paths, h', t) →
  length paths ≤ files_below n.
Proof.
  revert currentDir h paths h' t.
  induction n as [|entries IH|code|code] using node_ind';
    intros currentDir h paths h' t; rewrite collectPaths_eq; try done.
  destruct (collectEntries _ _ _ entries [] h) as [[r h2] t2] eqn:Hentries.
  intros [= -> <- <-].
  by apply (collectEntries_length _ _ _ _ _ _ _ _ _ IH) in Hentries.
Qed.

Lemma collectEntries_listable baseDir currentDir patterns entries paths h :
  Forall (λ x, ∀ currentDir h,
            listable x.2 → spreadable join argument_limit currentDir x.2 →
            ∃ paths h' t,
              collectPaths baseDir currentDir x.2 patterns h = (Ok paths, h', t))
    entries →
  listable (Dir entries) →
  spreadable join argument_limit currentDir (Dir entries) →
  ∃ paths' h' t,
    collectEntries baseDir currentDir patterns entries paths h
    = (Ok paths', h', t).
Proof.
  intros Hentries. revert paths h.
  induction Hentries as [|[entry child] rest Hchild _ IH]; intros paths h;
    [by eexists _, _, _|].
  cbn [listable spreadable forallb].
  intros [Hhere Hrest]%andb_True [Hfits Hspread]%andb_True.
  rewrite collectEntries_cons. cbv zeta. simpl in Hchild.
  destruct (some_test_Ok patterns (relative baseDir (join currentDir entry)) h)
    as (ignored & h1 & ->).
  destruct ignored.
  { destruct (IH paths h1 Hrest Hspread) as (paths' & h' & t & ->).
    by eexists _, _, _. }
  destruct child as [|sub_entries|code|code]; [| |done..].
  - destruct (IH (paths ++ [relative baseDir (join currentDir entry)]) h1
                Hrest Hspread) as (paths' & h' & t & ->).
    by eexists _, _, _.
  - apply andb_True in Hfits as [Hfits%bool_decide_unpack Hbelow].
    destruct (Hchild (join currentDir entry) h1 Hhere Hbelow)
      as (sub & h2 & t2 & Hsub).
    rewrite Hsub. apply collectPaths_length in Hsub.
    rewrite decide_True by lia.
    destruct (IH (paths ++ sub) h2 Hrest Hspread) as (paths' & h' & t & ->).
    by eexists _, _, _.
Qed.

Lemma collectPaths_listable baseDir currentDir n patterns h :
  listable n → spreadable join argument_limit currentDir n →
  ∃ paths h' t, collectPaths baseDir currentDir n patterns h = (Ok paths, h', t).
Proof.
  revert currentDir h.
  induction n as [|entries IH|code|code] using node_ind';
    intros currentDir h Hn Hspread; try done.
  rewrite collectPaths_eq.
  destruct (collectEntries_listable baseDir currentDir patterns entries [] h
              IH Hn Hspread) as (paths & h' & t & ->).
  by eexists _, _, _.
Qed.

(** X20. A comparison returns a result whenever no RegExp object of the
    pattern list carries [g] or [y], every string of the list compiles, each
    root is a directory in which everything can be read, and no
    sub-directory holds more files than the engine can pass as the arguments
    of one call. *)
Theorem compareDirectories_total dir1 dir2 ignorePatterns h :
  stateless h ignorePatterns →
  (∀ source, inl source ∈ ignorePatterns → is_Some (regexp_compile source)) →
  listable (fs dir1) →
  listable (fs dir2) →
  spreadable join argument_limit dir1 (fs dir1) →
  spreadable join argument_limit dir2 (fs dir2) →
  ∃ d h' t, compareDirectories dir1 dir2 ignorePatterns h = (Ok d, h', t).
Proof.
  intros _ Hcompile Hdir1 Hdir2 Hspread1 Hspread2.
  destruct (mapM_toRegExp_Ok regexp_compile ignorePatterns h Hcompile)
    as (pats & h1 & Hc).
  destruct (collectPaths_listable dir1 dir1 (fs dir1) pats h1 Hdir1 Hspread1)
    as (p1 & h2 & t1 & H1).
  destruct (collectPaths_listable dir2 dir2 (fs dir2) pats h2 Hdir2 Hspread2)
    as (p2 & h3 & t2 & H2).
  eexists _, _, _.
  apply (compareDirectories_returns join relative argument_limit regexp_compile
           fs _ _ _ _ _ _ _ _ _ _ _ _ _ Hc H1 H2).
Qed.

End Returns.

(** ** The further properties at concrete inputs *)

Lemma reorder_refl n : reorder n n.
Proof.
  induction n as [|entries IH|code|code] using node_ind'; try by constructor.
  apply (reorder_Dir entries entries entries); [|done].
  induction IH as [|x l Hx _ IHl]; by constructor.
Qed.

Section Instances.

Import Posix Examples Inputs.

Local Abbreviation compare fs :=
  (compareDirectories join relative argument_limit regexp_compile fs).
Local Abbreviation collect := (collectPaths join relative argument_limit).

Lemma collectPaths_accounting_witness :
  ∃ paths h' t,
    collect "dir1" "dir1" tree1 [] [] = (Ok paths, h', t) ∧
    length paths + count_calls is_Readdir t = count_calls is_Stat t + 1.
Proof.
  eexists _, _, _. split; [vm_compute; reflexivity|].
  exact (collectPaths_accounting join relative argument_limit "dir1" "dir1"
      tree1 [] []
           _ _ _ eq_refl).
Defined.

Lemma collectPaths_thrown_last_witness :
  Forall (λ l, flagless [d_plain] l) [0] ∧
  (∃ e h' t,
     collect "dir1" "dir1" (disk_locked "dir1") [0] [d_plain]
     = (Throw e, h', t) ∧
     e = FsError EACCES "dir1/secret" ∧
     (e = RangeError ∨ thrown_last e t)) ∧
  (∃ e h' t,
     collectPaths join relative no_arguments "dir1" "dir1" tree1 [0] [d_plain]
     = (Throw e, h', t) ∧
     (e = RangeError ∨ thrown_last e t)).
Proof.
  assert (Forall (λ l, flagless [d_plain] l) [0]) as Hp by (repeat constructor).
  split_and!; [exact Hp|..].
  - eexists _, _, _. split; [vm_compute; reflexivity|]. split; [reflexivity|].
    exact (collectPaths_thrown_last join relative argument_limit "dir1" "dir1"
             (disk_locked "dir1") [0] [d_plain] _ _ _ Hp eq_refl).
  - eexists _, _, _. split; [vm_compute; reflexivity|].
    exact (collectPaths_thrown_last join relative no_arguments "dir1" "dir1"
             tree1 [0] [d_plain] _ _ _ Hp eq_refl).
Defined.

Lemma collectPaths_pattern_order_witness :
  Forall (λ l, flagless [c_plain; d_plain] l) [0; 1] ∧
  (∀ l, l ∈ [0; 1] ↔ l ∈ [1; 0; 1]) ∧
  collect "dir1" "dir1" tree1 [0; 1] [c_plain; d_plain]
  = collect "dir1" "dir1" tree1 [1; 0; 1] [c_plain; d_plain].
Proof.
  assert (Forall (λ l, flagless [c_plain; d_plain] l) [0; 1]) as Hp
    by (repeat constructor).
  assert (∀ l, l ∈ [0; 1] ↔ l ∈ [1; 0; 1]) as Hsame.
  { intros l. rewrite !elem_of_cons, elem_of_nil. tauto. }
  split_and!; [exact Hp|exact Hsame|].
  exact (collectPaths_pattern_order join relative argument_limit "dir1" "dir1"
      tree1
           [0; 1] [1; 0; 1] [c_plain; d_plain] Hp Hsame).
Defined.

Lemma collectPaths_more_patterns_witness :
  Forall (λ l, flagless [c_plain; d_plain] l) [0; 1] ∧
  [0] ⊆ [0; 1] ∧
  ∃ paths h1 t,
    collect "dir1" "dir1" tree1 [0] [c_plain; d_plain] = (Ok paths, h1, t) ∧
    ∃ paths' t',
      collect "dir1" "dir1" tree1 [0; 1] [c_plain; d_plain]
      = (Ok paths', [c_plain; d_plain], t') ∧
      paths' `sublist_of` paths ∧ t' `sublist_of` t.
Proof.
  assert (Forall (λ l, flagless [c_plain; d_plain] l) [0; 1]) as Hp
    by (repeat constructor).
  assert ([0] ⊆ [0; 1]) as Hsub.
  { intros l. rewrite !elem_of_cons, elem_of_nil. tauto. }
  split_and!; [exact Hp|exact Hsub|].
  eexists _, _, _. split; [vm_compute; reflexivity|].
  exact (collectPaths_more_patterns join relative argument_limit "dir1" "dir1"
      tree1
           [0] [0; 1] [c_plain; d_plain] _ _ _ Hp Hsub eq_refl).
Defined.

Lemma valid_refs_example :
  valid_refs [c_plain] [inl "^b/"; inr 0; inr 0].
Proof.
  intros l. rewrite !elem_of_cons, elem_of_nil.
  intros [[=]|[[= ->]|[[= ->]|[]]]]; simpl; lia.
Qed.

Lemma compile_example source :
  inl source ∈ [inl "^b/"; inr 0; inr 0] →
  is_Some (regexp_compile source).
Proof.
  rewrite !elem_of_cons, elem_of_nil.
  intros [[= ->]|[[=]|[[=]|[]]]]. by eexists.
Qed.

Lemma subseteq_example :
  [inr 0; inl "^b/"] ⊆ [inl "^b/"; inr 0; inr 0].
Proof. intros x. rewrite !elem_of_cons, elem_of_nil. tauto. Qed.

Lemma compareDirectories_pattern_list_order_witness :
  stateless [c_plain] [inl "^b/"; inr 0; inr 0] ∧
  valid_refs [c_plain] [inl "^b/"; inr 0; inr 0] ∧
  (∀ source, inl source ∈ [inl "^b/"; inr 0; inr 0] →
             is_Some (regexp_compile source)) ∧
  (∀ pattern, pattern ∈ [inl "^b/"; inr 0; inr 0] ↔
              pattern ∈ [inr 0; inl "^b/"]) ∧
  visible (compare disk "dir1" "dir2" [inl "^b/"; inr 0; inr 0] [c_plain])
  = visible (compare disk "dir1" "dir2" [inr 0; inl "^b/"] [c_plain]).
Proof.
  assert (∀ pattern : string + nat,
            pattern ∈ [inl "^b/"; inr 0; inr 0] ↔
            pattern ∈ [inr 0; inl "^b/"]) as Hsame.
  { intros x. rewrite !elem_of_cons, elem_of_nil. tauto. }
  split_and!; [exact I|exact valid_refs_example|exact compile_example
              |exact Hsame|].
  exact (compareDirectories_pattern_list_order join relative argument_limit
      regexp_compile
           disk "dir1" "dir2" [inl "^b/"; inr 0; inr 0] [inr 0; inl "^b/"]
           [c_plain] I valid_refs_example compile_example Hsame).
Defined.

Lemma compareDirectories_more_patterns_witness :
  stateless [c_plain] [inl "^b/"; inr 0; inr 0] ∧
  valid_refs [c_plain] [inl "^b/"; inr 0; inr 0] ∧
  (∀ source, inl source ∈ [inl "^b/"; inr 0; inr 0] →
             is_Some (regexp_compile source)) ∧
  [inr 0; inl "^b/"] ⊆ [inl "^b/"; inr 0; inr 0] ∧
  ∃ d h1 t,
    compare disk "dir1" "dir2" [inr 0; inl "^b/"] [c_plain] = (Ok d, h1, t) ∧
    ∃ rel rel' h1' t',
      d = rooted join "dir1" "dir2" rel ∧
      compare disk "dir1" "dir2" [inl "^b/"; inr 0; inr 0] [c_plain]
      = (Ok (rooted join "dir1" "dir2" rel'), h1', t') ∧
      t' `sublist_of` t ∧ inBoth rel' ⊆ inBoth rel.
Proof.
  split_and!; [exact I|exact valid_refs_example|exact compile_example
              |exact subseteq_example|].
  eexists _, _, _. split; [vm_compute; reflexivity|].
  destruct (compareDirectories_more_patterns join relative argument_limit
      regexp_compile
              disk "dir1" "dir2" [inr 0; inl "^b/"] [inl "^b/"; inr 0; inr 0]
              [c_plain] _ _ _ I valid_refs_example compile_example
              subseteq_example eq_refl)
    as (rel & rel' & h1' & t' & Hd & Hcmp & Ht & Hboth & _).
  by exists rel, rel', h1', t'.
Defined.

Lemma patternsToRegExp_fresh_witness :
  Forall (λ source, is_Some (regexp_compile source)) ["^b/"; "c"] ∧
  ∃ fresh,
    patternsToRegExp regexp_compile ["^b/"; "c"] [a_global]
    = (Ok [1; 2], [a_global] ++ fresh, []) ∧
    Forall2 (compiled_from regexp_compile) ["^b/"; "c"] fresh.
Proof.
  assert (Forall (λ source, is_Some (regexp_compile source)) ["^b/"; "c"])
    as Hcompile by (repeat constructor; by eexists).
  split; [exact Hcompile|].
  exact (patternsToRegExp_fresh regexp_compile ["^b/"; "c"] [a_global] Hcompile).
Defined.

Lemma printDifferences_identical_witness :
  ∃ d h' t,
    compare disk "dir1" "dir2" [] [] = (Ok d, h', t) ∧
    ∃ s1 s2,
      snapshots join relative argument_limit regexp_compile disk "dir1" "dir2"
          [] []
      = (Ok (s1, s2), h', t) ∧
      (printDifferences id "dir1" "dir2" d = identical_report ↔
       list_to_set s1 =@{gset string} list_to_set s2).
Proof.
  eexists _, _, _. split; [vm_compute; reflexivity|].
  exact (printDifferences_identical join relative argument_limit
      regexp_compile disk id
           "dir1" "dir2" [] [] _ _ _ eq_refl).
Defined.

Lemma printCommonItems_none_witness :
  ∃ d h' t,
    compare disk "dir1" "dir2" [] [] = (Ok d, h', t) ∧
    ∃ s1 s2,
      snapshots join relative argument_limit regexp_compile disk "dir1" "dir2"
          [] []
      = (Ok (s1, s2), h', t) ∧
      (printCommonItems id "dir1" "dir2" d = no_common_report ↔
       list_to_set s1 ##@{gset string} list_to_set s2).
Proof.
  eexists _, _, _. split; [vm_compute; reflexivity|].
  exact (printCommonItems_none join relative argument_limit regexp_compile disk id
           "dir1" "dir2" [] [] _ _ _ eq_refl).
Defined.

Lemma reorder_tree1 : reorder tree1 tree1_reversed.
Proof.
  apply (reorder_Dir _ [("a.txt", File); ("b", Dir [("c.txt", File)])]).
  - repeat constructor; apply reorder_refl.
  - apply perm_swap.
Qed.

Lemma compareDirectories_listing_order_witness :
  stateless [c_plain] [inr 0; inl "^b/"] ∧
  reorder (disk "dir1") (disk_reversed "dir1") ∧
  reorder (disk "dir2") (disk_reversed "dir2") ∧
  ∃ d h' t,
    compare disk "dir1" "dir2" [inr 0; inl "^b/"] [c_plain] = (Ok d, h', t) ∧
    ∃ t',
      compare disk_reversed "dir1" "dir2" [inr 0; inl "^b/"] [c_plain]
      = (Ok d, h', t').
Proof.
  split_and!; [exact I|exact reorder_tree1|exact (reorder_refl tree2)|].
  eexists _, _, _. split; [vm_compute; reflexivity|].
  exact (compareDirectories_listing_order join relative argument_limit
      regexp_compile
           disk disk_reversed "dir1" "dir2" [inr 0; inl "^b/"] [c_plain]
           _ _ _ I reorder_tree1 (reorder_refl tree2) eq_refl).
Defined.

Lemma compareDirectories_empty_root_witness :
  disk_beside_empty "dir2" = Dir [] ∧
  ∃ h' t,
    compare disk_beside_empty "dir1" "dir2" [] []
    = (Ok {| onlyInFirst := ["dir1/a.txt"; "dir1/b/c.txt"];
             onlyInSecond := []; inBoth := [] |}, h', t) ∧
    ∃ paths1,
      value (collect "dir1" "dir1" tree1 [] []) = Ok paths1 ∧
      ["dir1/a.txt"; "dir1/b/c.txt"] = join "dir1" <$> sort paths1.
Proof.
  split; [reflexivity|].
  eexists _, _. split; [vm_compute; reflexivity|].
  destruct (compareDirectories_empty_root join relative argument_limit
              regexp_compile disk_beside_empty "dir1" "dir2" [] [] _ _ _ eq_refl)
    as [Hsecond _].
  destruct (Hsecond eq_refl)
    as (_ & _ & pats & h1 & t0 & paths1 & t1 & [= <- <- <-] & H1 & Honly).
  exists paths1. split; [|exact Honly].
  change (disk_beside_empty "dir1") with tree1 in H1. by rewrite H1.
Defined.

Local Abbreviation run_with fs existsSync parsed :=
  (script join relative argument_limit regexp_compile fs id existsSync
     (λ _, Some bdgrc) (λ _, Some parsed) ".bdgrc.json" ToString []).
Local Abbreviation run parsed := (run_with disk (λ _, true) parsed).

Lemma script_TypeError_witness :
  run_completion (run bdgrc_object) = TypeError ∧
  ∃ item,
    item ∈ [JObject {[ "toString" := JNull ]}] ∧
    (∀ source, item ≠ JString source) ∧ ToString item = None.
Proof.
  assert (run_completion (run bdgrc_object) = TypeError) as Hrun
    by (vm_compute; reflexivity).
  split; [exact Hrun|].
  destruct (script_TypeError join relative argument_limit regexp_compile disk
      id (λ _, true)
              (λ _, Some bdgrc) (λ _, Some bdgrc_object) ".bdgrc.json"
              ToString [] Hrun)
    as (content & v & items & item & _ & _ & [= <-] & [= <-] & Hin & Hitem).
  by exists item.
Defined.

Lemma script_compare_witness :
  get_ignorePaths
    (loadConfig (λ _, true) (λ _, Some bdgrc) (λ _, Some bdgrc_value)
       ".bdgrc.json").1
  = Some (Some (JArray (JString <$> ["^b/"]))) ∧
  run_with disk_services (λ _, true) bdgrc_value
  = match compare disk_services "../oc-esim-service" "../oc-catalogue-service"
            [inl "^b/"] [] with
    | (Ok diff, h', t) =>
        mkRun Normal
          (printCommonItems id "../oc-esim-service" "../oc-catalogue-service"
             diff) t h'
    | (Throw e, h', t) => mkRun (Uncaught e) [] t h'
    end ∧
  run_completion (run_with disk_services (λ _, true) bdgrc_value) = Normal ∧
  run_console (run_with disk_services (λ _, true) bdgrc_value)
  = ["Common Directory Structure:"; "==========================";
     newline +:+ "Files and directories in both " +:+ quote
     +:+ "../oc-esim-service" +:+ quote +:+ " and " +:+ quote
     +:+ "../oc-catalogue-service" +:+ quote +:+ ":";
     " - ../oc-esim-service/a.txt";
     newline +:+ "Found 1 common paths"] ∧
  get_ignorePaths
    (loadConfig (λ _, false) (λ _, Some bdgrc) (λ _, Some bdgrc_value)
       ".bdgrc.json").1
  = Some (Some (JArray (JString <$> []))) ∧
  run_with disk_services (λ _, false) bdgrc_value
  = match compare disk_services "../oc-esim-service" "../oc-catalogue-service"
            [] [] with
    | (Ok diff, h', t) =>
        mkRun Normal
          ([".bdgrc.json not found, using empty ignore list."]
           ++ printCommonItems id "../oc-esim-service"
                "../oc-catalogue-service" diff) t h'
    | (Throw e, h', t) =>
        mkRun (Uncaught e)
          [".bdgrc.json not found, using empty ignore list."] t h'
    end ∧
  run_console (run_with disk_services (λ _, false) bdgrc_value)
  = [".bdgrc.json not found, using empty ignore list.";
     "Common Directory Structure:"; "==========================";
     newline +:+ "Files and directories in both " +:+ quote
     +:+ "../oc-esim-service" +:+ quote +:+ " and " +:+ quote
     +:+ "../oc-catalogue-service" +:+ quote +:+ ":";
     " - ../oc-esim-service/a.txt";
     newline +:+ "Found 1 common paths"].
Proof.
  split_and!; [reflexivity| |reflexivity|reflexivity|reflexivity| |reflexivity].
  - exact (script_compare join relative argument_limit regexp_compile
             disk_services id (λ _, true) (λ _, Some bdgrc)
             (λ _, Some bdgrc_value) ".bdgrc.json" ToString ["^b/"] [] eq_refl).
  - exact (script_compare join relative argument_limit regexp_compile
             disk_services id (λ _, false) (λ _, Some bdgrc)
             (λ _, Some bdgrc_value) ".bdgrc.json" ToString [] [] eq_refl).
Defined.

Lemma compareDirectories_throws_witness :
  stateless [d_plain] [inr 0] ∧
  (∃ e h' t,
     compare disk_locked "dir1" "dir2" [inr 0] [d_plain]
     = (Throw e, h', t) ∧
     e = FsError EACCES "dir1/secret" ∧
     ((∃ source,
         e = SyntaxError source ∧ inl source ∈ [inr 0] ∧
         regexp_compile source = None ∧ t = []) ∨
      e = RangeError ∨ thrown_last e t)) ∧
  (∃ e h' t,
     compareDirectories join relative no_arguments regexp_compile disk
       "dir1" "dir2" [inr 0] [d_plain]
     = (Throw e, h', t) ∧
     e = RangeError ∧
     ((∃ source,
         e = SyntaxError source ∧ inl source ∈ [inr 0] ∧
         regexp_compile source = None ∧ t = []) ∨
      e = RangeError ∨ thrown_last e t)).
Proof.
  split_and!; [exact I|..].
  - eexists _, _, _. split; [vm_compute; reflexivity|]. split; [reflexivity|].
    exact (compareDirectories_throws join relative argument_limit
             regexp_compile disk_locked "dir1" "dir2" [inr 0]
             [d_plain] _ _ _ I eq_refl).
  - eexists _, _, _. split; [vm_compute; reflexivity|]. split; [reflexivity|].
    exact (compareDirectories_throws join relative no_arguments
             regexp_compile disk "dir1" "dir2" [inr 0]
             [d_plain] _ _ _ I eq_refl).
Defined.

Lemma compareDirectories_total_witness :
  stateless [c_plain] [inl "^b/"; inr 0; inr 0] ∧
  (∀ source, inl source ∈ [inl "^b/"; inr 0; inr 0] →
             is_Some (regexp_compile source)) ∧
  listable (disk "dir1") ∧ listable (disk "dir2") ∧
  spreadable join argument_limit "dir1" (disk "dir1") ∧
  spreadable join argument_limit "dir2" (disk "dir2") ∧
  ∃ d h' t,
    compare disk "dir1" "dir2" [inl "^b/"; inr 0; inr 0] [c_plain]
    = (Ok d, h', t).
Proof.
  assert (spreadable join argument_limit "dir1" (disk "dir1")) as Hs1
    by (vm_compute; exact I).
  assert (spreadable join argument_limit "dir2" (disk "dir2")) as Hs2
    by (vm_compute; exact I).
  split_and!; [exact I|exact compile_example|exact I|exact I|exact Hs1
              |exact Hs2|].
  exact (compareDirectories_total join relative argument_limit regexp_compile
           disk "dir1" "dir2" [inl "^b/"; inr 0; inr 0] [c_plain]
           I compile_example I I Hs1 Hs2).
Defined.

End Instances.
